(** * Grammar analysis and predictive parsing: a shallow embedding

    The development follows the Python sources of the repository:

    - [expt 4/main.py]            iterative FIRST / FOLLOW solver
    - [expt 4/first_n_follow.py]  recursive, memoised FIRST ([cal_first])
    - [expt 5/main.py]            elimination of immediate left recursion
    - [expt 6/6a.py]              LL(1) table construction and predictive parser

    Python values are modelled as follows.  A [str] is a [string]; a [set] of
    strings is a [gset string]; a [dict] from strings to sets is a
    [gmap string (gset string)]; a grammar, whose [dict] is iterated in
    insertion order, is an association list.  A function that can raise
    returns a [res]; a [while] loop is unrolled under a budget of passes and a
    recursive function under a budget of nested calls. *)

From Stdlib Require Import Ascii String.
From stdpp Require Import gmap strings list fin_maps fin_sets sorting.

Open Scope string_scope.
Open Scope list_scope.

(** ** Results of computations that may raise *)

Inductive exn : Type :=
| KeyError (key : string)   (* d[key] on a missing key *)
| IndexError                (* l[i] or s[0] out of range *)
| RecursionError            (* the budget of nested calls is used up *)
| LoopBudget.               (* the budget of [while] passes is used up *)

Inductive res (A : Type) : Type :=
| Ok (a : A)
| Raise (e : exn).
Arguments Ok {A} a.
Arguments Raise {A} e.

#[global] Instance res_ret : MRet res := λ A a, Ok a.
#[global] Instance res_bind : MBind res := λ A B f m,
  match m with
  | Ok a => f a
  | Raise e => Raise e
  end.
#[global] Instance res_fmap : FMap res := λ A B f m,
  match m with
  | Ok a => Ok (f a)
  | Raise e => Raise e
  end.

(** [for x in l: body], threading the state [s] through the iterations. *)
Fixpoint for_each {A S : Type} (l : list A) (body : A → S → res S) (s : S) : res S :=
  match l with
  | [] => Ok s
  | x :: l' => s' ← body x s; for_each l' body s'
  end.

(** [changed = True; while changed: changed = False; ...]: [pass] is one run
    of the loop body, started with the flag reset, and returns the flag. *)
Fixpoint while_changed {S : Type} (budget : nat) (pass : S → res (S * bool)) (s : S)
  : res S :=
  match budget with
  | 0 => Raise LoopBudget
  | S budget' =>
      '(s', changed) ← pass s;
      if changed : bool then while_changed budget' pass s' else Ok s'
  end.

(** A Python [dict] with string keys whose iteration order matters. *)
Definition dict (V : Type) : Type := list (string * V).

Definition keys {V} (d : dict V) : list string := d.*1.

Fixpoint dict_get {V} (k : string) (d : dict V) : option V :=
  match d with
  | [] => None
  | (k', v) :: d' => if decide (k = k') then Some v else dict_get k d'
  end.

(** [d[k] = v]: an existing key keeps its position, a new key goes last. *)
Fixpoint dict_set {V} (k : string) (v : V) (d : dict V) : dict V :=
  match d with
  | [] => [(k, v)]
  | (k', v') :: d' =>
      if decide (k = k') then (k, v) :: d' else (k', v') :: dict_set k v d'
  end.

(** [k in d] *)
Definition dict_mem {V} (k : string) (d : dict V) : bool :=
  bool_decide (k ∈ keys d).

Definition production : Type := list string.
Definition grammar_dict : Type := dict (list production).

Abbreviation sets := (gmap string (gset string)).

(** [d[k]] on a dict of sets. *)
Definition getitem {V} (d : gmap string V) (k : string) : res V :=
  match d !! k with
  | Some v => Ok v
  | None => Raise (KeyError k)
  end.

(** ** Python strings *)

(** White space as [str.strip] and [str.split] see it, on the ASCII range (a
    [string] is a sequence of bytes, so the white space beyond ASCII is not
    recognised). *)
Definition is_space (c : ascii) : bool :=
  let n := nat_of_ascii c in
  bool_decide (9 ≤ n ≤ 13)%nat || bool_decide (28 ≤ n ≤ 32)%nat.

Fixpoint lstrip (s : string) : string :=
  match s with
  | String c s' => if is_space c then lstrip s' else s
  | EmptyString => EmptyString
  end.

Fixpoint rstrip (s : string) : string :=
  match s with
  | String c s' =>
      match rstrip s' with
      | EmptyString => if is_space c then EmptyString else String c EmptyString
      | r => String c r
      end
  | EmptyString => EmptyString
  end.

Definition strip (s : string) : string := rstrip (lstrip s).

(** [s.split()]: the maximal runs of characters that are not white space. *)
Fixpoint split_from (cur : list ascii) (s : string) : list string :=
  match s with
  | EmptyString =>
      match cur with
      | [] => []
      | _ => [string_of_list_ascii (rev cur)]
      end
  | String c s' =>
      if is_space c then
        match cur with
        | [] => split_from [] s'
        | _ => string_of_list_ascii (rev cur) :: split_from [] s'
        end
      else split_from (c :: cur) s'
  end.

Definition split (s : string) : list string := split_from [] s.

(** [s.split(sep)] for a separator of one character. *)
Fixpoint split_on_from (sep : ascii) (cur : list ascii) (s : string) : list string :=
  match s with
  | EmptyString => [string_of_list_ascii (rev cur)]
  | String c s' =>
      if decide (c = sep) then string_of_list_ascii (rev cur) :: split_on_from sep [] s'
      else split_on_from sep (c :: cur) s'
  end.

Definition split_on (sep : ascii) (s : string) : list string := split_on_from sep [] s.

(** [s.split("->", 1)], or [None] when ["->" not in s]. *)
Fixpoint split_arrow_from (cur : list ascii) (s : string) : option (string * string) :=
  match s with
  | EmptyString => None
  | String c s' =>
      match s' with
      | String c' rest =>
          if bool_decide (c = "-"%char) && bool_decide (c' = ">"%char)
          then Some (string_of_list_ascii (rev cur), rest)
          else split_arrow_from (c :: cur) s'
      | EmptyString => None
      end
  end.

Definition split_arrow (s : string) : option (string * string) := split_arrow_from [] s.

(** Loops that a [return] can leave: the body either goes on with a state or
    returns a value (the global state it leaves behind comes along). *)
Inductive flow (S R : Type) : Type :=
| Continue (s : S)
| Return (r : R) (s : S).
Arguments Continue {S R} s.
Arguments Return {S R} r s.

Fixpoint for_until {A S R : Type} (l : list A) (body : A → S → res (flow S R)) (s : S)
  : res (flow S R) :=
  match l with
  | [] => Ok (Continue s)
  | x :: l' =>
      r ← body x s;
      match r with
      | Continue s' => for_until l' body s'
      | Return v s' => Ok (Return v s')
      end
  end.

(** ** expt 5/main.py: elimination of immediate left recursion *)

Module Expt5.

(** [grammar[nt]] on a [defaultdict(list)]. *)
Definition productions_of (nt : string) (g : grammar_dict) : list production :=
  default [] (dict_get nt g).

(** [p and p[0] == nt] *)
Definition starts_with (nt : string) (p : production) : bool :=
  match p with
  | [] => false
  | x :: _ => bool_decide (x = nt)
  end.

(** [p and p[0] != nt] *)
Definition starts_otherwise (nt : string) (p : production) : bool :=
  match p with
  | [] => false
  | x :: _ => bool_decide (x ≠ nt)
  end.

(** The body of the loop over [list(grammar.keys())]. *)
Definition rewrite_nonterminal (g : grammar_dict) (new_grammar : grammar_dict) (nt : string)
  : grammar_dict :=
  let alpha := drop 1 <$> filter (λ p, starts_with nt p = true) (productions_of nt g) in
  let beta := filter (λ p, starts_otherwise nt p = true) (productions_of nt g) in
  match alpha with
  | _ :: _ =>
      let new_nt := nt +:+ "'" in
      let new_grammar :=
        dict_set nt
          (match beta with
           | _ :: _ => (λ p, p ++ [new_nt]) <$> beta
           | [] => [[new_nt]]
           end) new_grammar in
      dict_set new_nt (((λ p, p ++ [new_nt]) <$> alpha) ++ [["ε"]]) new_grammar
  | [] => dict_set nt (productions_of nt g) new_grammar
  end.

Definition eliminate_left_recursion (g : grammar_dict) : grammar_dict :=
  foldl (rewrite_nonterminal g) [] (keys g).

(** Some key of the grammar has a production that starts with the key itself. *)
Definition immediately_left_recursive (g : grammar_dict) : bool :=
  existsb (λ '(nt, prods), existsb (starts_with nt) prods) g.

(** [nt] has a production that starts with [nt] itself. *)
Definition left_recursive_in (g : grammar_dict) (nt : string) : bool :=
  existsb (starts_with nt) (productions_of nt g).

(** A production [nt x ...] of [nt], if it starts with [nt], goes on with a
    symbol [x] other than the primed name. *)
Definition tail_guarded (nt : string) (p : production) : bool :=
  match p with
  | x :: rest =>
      bool_decide (x ≠ nt)
      || match rest with
         | y :: _ => bool_decide (y ≠ nt +:+ "'")
         | [] => false
         end
  | [] => true
  end.

(** [E -> E + T | T], [T -> T * F | F], [F -> ( E ) | id]. *)
Definition expression_left_recursive : grammar_dict :=
  [("E", [["E"; "+"; "T"]; ["T"]]);
   ("T", [["T"; "*"; "F"]; ["F"]]);
   ("F", [["("; "E"; ")"]; ["id"]])].

End Expt5.

(** ** expt 4/main.py: the iterative FIRST / FOLLOW solver *)

Module Expt4.

Definition EPSILON : string := "ε".

Definition is_nonterminal (symbol : string) (g : grammar_dict) : bool :=
  dict_mem symbol g.

(** [changed] after [first_sets[nt].update(..)], from the two lengths. *)
Definition size_changed (before after : gset string) (changed : bool) : bool :=
  if decide (size after = size before) then changed else true.

(** The set assigned to [symbol_first] in the walk over a production. *)
Definition symbol_first_of (g : grammar_dict) (first_sets : sets) (symbol : string)
  : res (gset string) :=
  if decide (symbol = EPSILON) then Ok {[EPSILON]}
  else if is_nonterminal symbol g then getitem first_sets symbol
  else Ok {[symbol]}.

(** [for symbol in production: ...] of [compute_first_sets]; the third
    component of the result is [derives_epsilon]. *)
Fixpoint first_walk (g : grammar_dict) (non_terminal : string) (prod : production)
    (first_sets : sets) (changed : bool) : res (sets * bool * bool) :=
  match prod with
  | [] => Ok (first_sets, changed, true)
  | symbol :: rest =>
      symbol_first ← symbol_first_of g first_sets symbol;
      before ← getitem first_sets non_terminal;
      let after := before ∪ (symbol_first ∖ {[EPSILON]}) in
      let first_sets' := <[non_terminal := after]> first_sets in
      let changed' := size_changed before after changed in
      if decide (EPSILON ∈ symbol_first)
      then first_walk g non_terminal rest first_sets' changed'
      else Ok (first_sets', changed', false)
  end.

(** [if EPSILON not in first_sets[nt]: first_sets[nt].add(EPSILON); changed = True] *)
Definition add_epsilon (non_terminal : string) (st : sets * bool) : res (sets * bool) :=
  let '(first_sets, changed) := st in
  cur ← getitem first_sets non_terminal;
  if decide (EPSILON ∈ cur) then Ok (first_sets, changed)
  else Ok (<[non_terminal := cur ∪ {[EPSILON]}]> first_sets, true).

(** The body of [for production in production_list]. *)
Definition first_production (g : grammar_dict) (non_terminal : string) (prod : production)
    (st : sets * bool) : res (sets * bool) :=
  if decide (prod = [EPSILON]) then add_epsilon non_terminal st
  else
    '(first_sets, changed, derives_epsilon) ← first_walk g non_terminal prod st.1 st.2;
    if derives_epsilon : bool then add_epsilon non_terminal (first_sets, changed)
    else Ok (first_sets, changed).

(** One pass of the [while changed] loop, started with [changed = False]. *)
Definition first_pass (g : grammar_dict) (first_sets : sets) : res (sets * bool) :=
  for_each g (λ '(non_terminal, production_list),
                for_each production_list (first_production g non_terminal))
           (first_sets, false).

(** [{nt: set() for nt in grammar}] *)
Definition empty_sets (g : grammar_dict) : sets :=
  list_to_map ((λ nt, (nt, ∅)) <$> keys g).

Definition compute_first_sets (budget : nat) (g : grammar_dict) : res sets :=
  while_changed budget (first_pass g) (empty_sets g).

(** [for symbol in sequence: ... else: result.add(EPSILON)] of
    [first_of_sequence], for a non-empty sequence. *)
Fixpoint sequence_walk (g : grammar_dict) (first_sets : sets) (sequence : list string)
    (result : gset string) : res (gset string) :=
  match sequence with
  | [] => Ok (result ∪ {[EPSILON]})
  | symbol :: rest =>
      if decide (symbol = EPSILON)
      then sequence_walk g first_sets rest (result ∪ {[EPSILON]})
      else
        symbol_first ← (if is_nonterminal symbol g then getitem first_sets symbol
                        else Ok {[symbol]});
        let result' := result ∪ (symbol_first ∖ {[EPSILON]}) in
        if decide (EPSILON ∈ symbol_first)
        then sequence_walk g first_sets rest result'
        else Ok result'
  end.

Definition first_of_sequence (sequence : list string) (first_sets : sets) (g : grammar_dict)
  : res (gset string) :=
  match sequence with
  | [] => Ok {[EPSILON]}
  | _ => sequence_walk g first_sets sequence ∅
  end.

(** [update_set(follow_sets[key], additions)]: the updated dict and whether
    the length of the target set changed. *)
Definition update_set (follow_sets : sets) (key : string) (additions : gset string)
  : res (sets * bool) :=
  target ← getitem follow_sets key;
  let target' := target ∪ additions in
  Ok (<[key := target']> follow_sets, bool_decide (size target' ≠ size target)).

(** [for index, symbol in enumerate(production)]: [prod] is what remains of
    the production from [symbol] on. *)
Fixpoint follow_walk (g : grammar_dict) (first_sets : sets) (head : string)
    (prod : production) (st : sets * bool) : res (sets * bool) :=
  match prod with
  | [] => Ok st
  | symbol :: remainder =>
      if is_nonterminal symbol g then
        let '(follow_sets, changed) := st in
        lookahead_first ← first_of_sequence remainder first_sets g;
        '(follow_sets, grew) ← update_set follow_sets symbol (lookahead_first ∖ {[EPSILON]});
        let changed := if grew : bool then true else changed in
        if bool_decide (remainder = []) || bool_decide (EPSILON ∈ lookahead_first) then
          from_head ← getitem follow_sets head;
          '(follow_sets, grew) ← update_set follow_sets symbol from_head;
          follow_walk g first_sets head remainder
            (follow_sets, if grew : bool then true else changed)
        else follow_walk g first_sets head remainder (follow_sets, changed)
      else follow_walk g first_sets head remainder st
  end.

Definition follow_pass (g : grammar_dict) (first_sets : sets) (follow_sets : sets)
  : res (sets * bool) :=
  for_each g (λ '(head, production_list),
                for_each production_list (follow_walk g first_sets head))
           (follow_sets, false).

Definition compute_follow_sets (budget : nat) (g : grammar_dict) (first_sets : sets)
    (start_symbol : string) : res sets :=
  start_follow ← getitem (empty_sets g) start_symbol;
  while_changed budget (follow_pass g first_sets)
    (<[start_symbol := start_follow ∪ {["$"]}]> (empty_sets g)).

End Expt4.

(** ** expt 4/first_n_follow.py: the recursive, memoised FIRST *)

Module Expt4Rec.

Definition EPSILON : string := "ε".

Definition EPSILON_ALIASES : list string :=
  [EPSILON; "#"; "epsilon"; "EPSILON"; "lambda"; "Λ"; "eps"].

Definition normalize_symbol (token : string) : string :=
  let token := strip token in
  if decide (token = "") then ""
  else if bool_decide (token ∈ EPSILON_ALIASES) then EPSILON else token.

(** The two mutable arguments of [cal_first]: [memo] and [visiting]. *)
Definition store : Type := sets * gset string.

(** [for symbol in production: ...] of [cal_first]; [rec] is the recursive
    call [cal_first(symbol, productions, memo, visiting)] and the last
    component of the result is [all_can_be_epsilon]. *)
Fixpoint cal_walk (rec : string → store → res (gset string * store))
    (productions : grammar_dict) (prod : production) (first : gset string)
    (st : store) : res (gset string * store * bool) :=
  match prod with
  | [] => Ok (first, st, true)
  | symbol :: rest =>
      if decide (symbol = EPSILON) then cal_walk rec productions rest first st
      else if dict_mem symbol productions then
        '(sub_first, st') ← rec symbol st;
        let first' := first ∪ (sub_first ∖ {[EPSILON]}) in
        if decide (EPSILON ∈ sub_first) then cal_walk rec productions rest first' st'
        else Ok (first', st', false)
      else Ok (first ∪ {[symbol]}, st, false)
  end.

(** The body of [for production in productions[s]]. *)
Definition cal_production (rec : string → store → res (gset string * store))
    (productions : grammar_dict) (prod : production) (acc : gset string * store)
  : res (gset string * store) :=
  let '(first, st) := acc in
  match prod with
  | [] => Ok (first ∪ {[EPSILON]}, st)
  | _ =>
      '(first', st', all_can_be_epsilon) ← cal_walk rec productions prod first st;
      Ok (if all_can_be_epsilon : bool then first' ∪ {[EPSILON]} else first', st')
  end.

Fixpoint cal_first (depth : nat) (productions : grammar_dict) (s : string) (st : store)
  : res (gset string * store) :=
  match depth with
  | 0 => Raise RecursionError
  | S depth' =>
      let '(memo, visiting) := st in
      match memo !! s with
      | Some known => Ok (known, st)
      | None =>
          match dict_get s productions with
          | None => Ok ({[normalize_symbol s]}, st)
          | Some alternatives =>
              if decide (s ∈ visiting) then Ok (∅, st)
              else
                '(first, (memo', visiting')) ←
                  for_each alternatives
                    (cal_production (cal_first depth' productions) productions)
                    (∅, (memo, visiting ∪ {[s]}));
                Ok (first, (<[s := first]> memo', visiting' ∖ {[s]}))
          end
      end
  end.

(** The loop of [main]: [first[s] = cal_first(s, productions, first_memo)]
    for every key, each call with a fresh [visiting]. *)
Definition first_table (depth : nat) (productions : grammar_dict) : res sets :=
  fst <$>
  for_each (keys productions)
    (λ s '(first, first_memo),
       '(v, (first_memo', _)) ← cal_first depth productions s (first_memo, ∅);
       Ok (<[s := v]> first, first_memo'))
    (∅, ∅).

(** [A -> B x | a] and [B -> A y | b]: two mutually recursive nonterminals. *)
Definition mutual_grammar : grammar_dict :=
  [("A", [["B"; "x"]; ["a"]]); ("B", [["A"; "y"]; ["b"]])].

End Expt4Rec.

(** ** expt 6/6a.py: FIRST, FOLLOW, the LL(1) table and the parser *)

Module Expt6.

Definition EPSILON : string := "#".
Definition END_MARKER : string := "$".

Abbreviation table := (gmap string (gmap string (option production))).

(** The module-level variables of the script. *)
Record globals : Type := Globals {
  grammar : grammar_dict;
  first_sets : sets;
  follow_sets : sets;
  terminals : gset string;
  non_terminals : gset string;
  parsing_table : table
}.

Definition initial : globals := Globals [] ∅ ∅ ∅ ∅ ∅.

Definition with_grammar (g : grammar_dict) (G : globals) : globals :=
  Globals g (first_sets G) (follow_sets G) (terminals G) (non_terminals G)
    (parsing_table G).
Definition with_first_sets (fs : sets) (G : globals) : globals :=
  Globals (grammar G) fs (follow_sets G) (terminals G) (non_terminals G)
    (parsing_table G).
Definition with_follow_sets (fs : sets) (G : globals) : globals :=
  Globals (grammar G) (first_sets G) fs (terminals G) (non_terminals G)
    (parsing_table G).
Definition with_terminals (ts : gset string) (G : globals) : globals :=
  Globals (grammar G) (first_sets G) (follow_sets G) ts (non_terminals G)
    (parsing_table G).
Definition with_non_terminals (nts : gset string) (G : globals) : globals :=
  Globals (grammar G) (first_sets G) (follow_sets G) (terminals G) nts
    (parsing_table G).
Definition with_parsing_table (t : table) (G : globals) : globals :=
  Globals (grammar G) (first_sets G) (follow_sets G) (terminals G)
    (non_terminals G) t.

(** *** FIRST *)

(** [for sym in production: ... else: first.add(EPSILON)] of [compute_first];
    [rec] is the recursive call [compute_first(sym)]. *)
Fixpoint first_walk (rec : string → globals → res (gset string * globals))
    (prod : production) (first : gset string) (G : globals)
  : res (gset string * globals) :=
  match prod with
  | [] => Ok (first ∪ {[EPSILON]}, G)
  | sym :: rest =>
      '(sym_first, G') ← rec sym G;
      let first' := first ∪ (sym_first ∖ {[EPSILON]}) in
      if decide (EPSILON ∈ sym_first) then first_walk rec rest first' G'
      else Ok (first', G')
  end.

(** The body of [for production in grammar.get(symbol, [])]. *)
Definition first_production (rec : string → globals → res (gset string * globals))
    (prod : production) (acc : gset string * globals) : res (gset string * globals) :=
  if decide (prod = [EPSILON]) then Ok (acc.1 ∪ {[EPSILON]}, acc.2)
  else first_walk rec prod acc.1 acc.2.

(** [depth] is the number of nested calls the interpreter still allows. *)
Fixpoint compute_first (depth : nat) (symbol : string) (G : globals)
  : res (gset string * globals) :=
  match depth with
  | 0 => Raise RecursionError
  | S depth' =>
      match first_sets G !! symbol with
      | Some known => Ok (known, G)
      | None =>
          '(first, G') ←
            (if decide (symbol ∈ terminals G) then Ok ({[symbol]}, G)
             else if decide (symbol = EPSILON) then Ok ({[EPSILON]}, G)
             else match dict_get symbol (grammar G) with
                  | Some alternatives =>
                      for_each alternatives (first_production (compute_first depth'))
                        (∅, G)
                  | None => Ok (∅, G)
                  end);
          Ok (first, with_first_sets (<[symbol := first]> (first_sets G')) G')
      end
  end.

(** [for sym in sequence: ...] of [compute_first_of_sequence]. *)
Fixpoint sequence_walk (depth : nat) (sequence : list string) (result : gset string)
    (G : globals) : res (gset string * globals) :=
  match sequence with
  | [] => Ok (result ∪ {[EPSILON]}, G)
  | sym :: rest =>
      '(sym_first, G') ← compute_first depth sym G;
      let result' := result ∪ (sym_first ∖ {[EPSILON]}) in
      if decide (EPSILON ∈ sym_first) then sequence_walk depth rest result' G'
      else Ok (result', G')
  end.

Definition compute_first_of_sequence (depth : nat) (sequence : list string) (G : globals)
  : res (gset string * globals) :=
  match sequence with
  | [] => Ok ({[EPSILON]}, G)
  | _ => sequence_walk depth sequence ∅ G
  end.

(** *** FOLLOW *)

(** [for i, B in enumerate(prod)]: [prod] is what remains of the production
    from [B] on; the state is the globals and [updated]. *)
Fixpoint follow_walk (depth : nat) (A : string) (prod : production)
    (st : globals * bool) : res (globals * bool) :=
  match prod with
  | [] => Ok st
  | B :: beta =>
      let '(G, updated) := st in
      if decide (B ∈ non_terminals G) then
        '(first_beta, G) ← compute_first_of_sequence depth beta G;
        let to_add := first_beta ∖ {[EPSILON]} in
        follow_B ← getitem (follow_sets G) B;
        let '(G, updated) :=
          if decide (to_add ⊆ follow_B) then (G, updated)
          else (with_follow_sets (<[B := follow_B ∪ to_add]> (follow_sets G)) G, true) in
        if bool_decide (beta = []) || bool_decide (EPSILON ∈ first_beta) then
          follow_A ← getitem (follow_sets G) A;
          follow_B ← getitem (follow_sets G) B;
          if decide (follow_A ⊆ follow_B) then follow_walk depth A beta (G, updated)
          else
            follow_walk depth A beta
              (with_follow_sets (<[B := follow_B ∪ follow_A]> (follow_sets G)) G, true)
        else follow_walk depth A beta (G, updated)
      else follow_walk depth A beta st
  end.

(** One pass of [while updated], started with [updated = False]. *)
Definition follow_pass (depth : nat) (G : globals) : res (globals * bool) :=
  for_each (grammar G)
    (λ '(A, productions), for_each productions (follow_walk depth A))
    (G, false).

(** [for nt in non_terminals: follow_sets[nt] = set()] *)
Definition reset_follow_sets (G : globals) : globals :=
  with_follow_sets
    (foldl (λ fs nt, <[nt := ∅]> fs) (follow_sets G) (elements (non_terminals G))) G.

Definition compute_all_follow_sets (budget depth : nat) (start_symbol : string)
    (G : globals) : res globals :=
  let G := reset_follow_sets G in
  start_follow ← getitem (follow_sets G) start_symbol;
  while_changed budget (follow_pass depth)
    (with_follow_sets (<[start_symbol := start_follow ∪ {[END_MARKER]}]> (follow_sets G)) G).

(** *** The parsing table *)

(** What the three [print] lines of a conflict show. *)
Record conflict : Type := Conflict {
  conflict_nt : string;
  conflict_terminal : string;
  conflict_existing : production;
  conflict_new : production
}.

(** The body of the two loops over terminals: fill [M[nt, terminal]], or
    print the conflict and [return False]. *)
Definition place (nt : string) (prod : production) (terminal : string) (G : globals)
  : res (flow globals conflict) :=
  row ← getitem (parsing_table G) nt;
  cell ← getitem row terminal;
  match cell with
  | Some existing => Ok (Return (Conflict nt terminal existing prod) G)
  | None =>
      Ok (Continue
            (with_parsing_table (<[nt := <[terminal := Some prod]> row]> (parsing_table G)) G))
  end.

(** The body of [for prod in productions]. *)
Definition fill_production (depth : nat) (nt : string) (prod : production) (G : globals)
  : res (flow globals conflict) :=
  '(first_of_prod, G) ← compute_first_of_sequence depth prod G;
  r ← for_until (elements (first_of_prod ∖ {[EPSILON]})) (place nt prod) G;
  match r with
  | Return c G => Ok (Return c G)
  | Continue G =>
      if decide (EPSILON ∈ first_of_prod) then
        follow_nt ← getitem (follow_sets G) nt;
        for_until (elements follow_nt) (place nt prod) G
      else Ok (Continue G)
  end.

(** [all_terminals], the keys of every row; [sorted] fixes the order in which
    the row is printed and plays no part in a lookup. *)
Definition all_terminals (G : globals) : list string :=
  merge_sort String.leb (elements (terminals G)) ++ [END_MARKER].

Definition empty_row (G : globals) : gmap string (option production) :=
  foldl (λ row t, <[t := None]> row) ∅ (all_terminals G).

(** [for nt in non_terminals: parsing_table[nt] = {...}] *)
Definition reset_parsing_table (G : globals) : globals :=
  with_parsing_table
    (foldl (λ tbl nt, <[nt := empty_row G]> tbl) (parsing_table G)
       (elements (non_terminals G))) G.

(** The value returned is [True] for [Continue] and [False] for [Return],
    which carries the conflict that was printed. *)
Definition construct_parsing_table (depth : nat) (G : globals)
  : res (flow globals conflict) :=
  for_until (grammar G)
    (λ '(nt, productions), for_until productions (fill_production depth nt))
    (reset_parsing_table G).

(** *** The parser *)

Inductive action : Type :=
| Match (current_input : string)
| Apply (top_of_stack : string) (prod : production)
| Mismatch (top_of_stack current_input : string)
| NoTableEntry (top_of_stack current_input : string)
| UnknownSymbol (top_of_stack : string).

(** One printed row of the trace: the stack (bottom first), the input that
    remains, and the action. *)
Record row : Type := Row {
  row_stack : list string;
  row_input : list string;
  row_action : action
}.

(** One iteration of [while stack] on a stack whose last element is
    [top_of_stack]: the printed row, and either the value returned or the
    stack and the input pointer of the next iteration. *)
Definition step (G : globals) (tokens : list string) (stack : list string)
    (top_of_stack : string) (input_pointer : nat)
  : res (row * (bool + list string * nat)) :=
  match tokens !! input_pointer with
  | None => Raise IndexError
  | Some current_input =>
      let shown := Row stack (drop input_pointer tokens) in
      if bool_decide (top_of_stack ∈ terminals G) || bool_decide (top_of_stack = END_MARKER)
      then
        if decide (top_of_stack = current_input) then
          if bool_decide (top_of_stack = END_MARKER) && bool_decide (current_input = END_MARKER)
          then Ok (shown (Match current_input), inl true)
          else Ok (shown (Match current_input), inr (removelast stack, S input_pointer))
        else Ok (shown (Mismatch top_of_stack current_input), inl false)
      else if decide (top_of_stack ∈ non_terminals G) then
        table_row ← getitem (parsing_table G) top_of_stack;
        match table_row !! current_input with
        | Some (Some prod) =>
            Ok (shown (Apply top_of_stack prod),
                inr (if decide (prod = [EPSILON]) then removelast stack
                     else removelast stack ++ reverse prod,
                     input_pointer))
        | _ => Ok (shown (NoTableEntry top_of_stack current_input), inl false)
        end
      else Ok (shown (UnknownSymbol top_of_stack), inl false)
  end.

(** [while stack: ...] followed by [return False]; the rows are those printed
    so far, latest first. *)
Fixpoint parse_loop (budget : nat) (G : globals) (tokens : list string)
    (stack : list string) (input_pointer : nat) (printed : list row)
  : res (bool * list row) :=
  match budget with
  | 0 => Raise LoopBudget
  | S budget' =>
      match last stack with
      | None => Ok (false, reverse printed)
      | Some top_of_stack =>
          '(r, next) ← step G tokens stack top_of_stack input_pointer;
          match next with
          | inl verdict => Ok (verdict, reverse (r :: printed))
          | inr (stack', input_pointer') =>
              parse_loop budget' G tokens stack' input_pointer' (r :: printed)
          end
      end
  end.

Definition parse_input_string (budget : nat) (input_str : string) (start_symbol : string)
    (G : globals) : res (bool * list row) :=
  parse_loop budget G (split input_str ++ [END_MARKER]) [END_MARKER; start_symbol] 0 [].

(** *** [main]: loading the grammar and running the stages *)

(** ['A' <= symbol[0] <= 'Z'] *)
Definition starts_upper (symbol : string) : res bool :=
  match symbol with
  | EmptyString => Raise IndexError
  | String c _ => Ok (bool_decide (65 ≤ nat_of_ascii c ≤ 90)%nat)
  end.

(** A line of the grammar file, stripped and split: the head and the symbols
    of each alternative; [None] for a line that is skipped. *)
Definition parse_line (line : string) : option (string * list production) :=
  let line := strip line in
  if decide (line = "") then None
  else
    match split_arrow line with
    | None => None
    | Some (head, body) =>
        Some (strip head,
              (λ p, let prod := strip p in
                    match (if decide (prod = "") then [] else split prod) with
                    | [] => [EPSILON]
                    | symbols => symbols
                    end) <$> split_on "|" body)
    end.

(** [for symbol in symbols: if symbol != EPSILON and not (...): terminals.add(symbol)] *)
Definition note_terminal (symbol : string) (G : globals) : res globals :=
  upper ← starts_upper symbol;
  Ok (if bool_decide (symbol ≠ EPSILON) && negb upper
      then with_terminals (terminals G ∪ {[symbol]}) G else G).

(** [grammar[head].append(symbols)] followed by the loop over [symbols]. *)
Definition add_production (head : string) (symbols : production) (G : globals)
  : res globals :=
  for_each symbols note_terminal
    (with_grammar
       (dict_set head (default [] (dict_get head (grammar G)) ++ [symbols]) (grammar G)) G).

(** The body of [for line in lines] once the line is split. *)
Definition add_line (entry : string * list production) (st : globals * option string)
  : res (globals * option string) :=
  let '(head, alternatives) := entry in
  let '(G, start_symbol) := st in
  let G := with_non_terminals (non_terminals G ∪ {[head]}) G in
  let start_symbol := match start_symbol with None => Some head | s => s end in
  let G := if dict_mem head (grammar G) then G
           else with_grammar (dict_set head [] (grammar G)) G in
  G ← for_each alternatives (add_production head) G;
  Ok (G, start_symbol).

(** The body of the second pass over the symbols of the grammar; the state is
    [non_terminals] and [all_symbols]. *)
Definition note_non_terminal (symbol : string) (st : gset string * gset string)
  : res (gset string * gset string) :=
  upper ← starts_upper symbol;
  Ok (if upper && bool_decide (symbol ∉ st.2)
      then (st.1 ∪ {[symbol]}, st.2 ∪ {[symbol]}) else st).

Definition classify_rest (G : globals) : res globals :=
  '(nts, _) ←
    for_each (grammar G) (λ '(_, productions), for_each productions (λ prod, for_each prod note_non_terminal))
      (non_terminals G, terminals G ∪ non_terminals G ∪ {[EPSILON]});
  Ok (with_non_terminals nts G).

(** The grammar, the two symbol classes and the start symbol, from the split
    lines of the grammar file. *)
Definition load (entries : list (string * list production))
  : res (globals * option string) :=
  '(G, start_symbol) ← for_each entries add_line (initial, None);
  G ← classify_rest G;
  Ok (G, start_symbol).

(** How [main] ends once the grammar is loaded: [sys.exit(1)] after a
    conflict, or the verdict and the trace of the parser. *)
Inductive outcome : Type :=
| NotLL1 (c : conflict)
| Parsed (verdict : bool) (trace : list row).

(** [main] up to the call of [construct_parsing_table]: the grammar is
    loaded, FIRST is computed for every nonterminal and FOLLOW is solved.  With
    no production at all [start_symbol] is still [None] and
    [follow_sets[start_symbol]] raises. *)
Definition analyse (depth budget : nat) (lines : list string) : res (globals * string) :=
  '(G, start_symbol) ← load (omap parse_line lines);
  G ← for_each (elements (non_terminals G)) (λ nt G, snd <$> compute_first depth nt G) G;
  start_symbol ← (match start_symbol with
                  | Some s => Ok s
                  | None => Raise (KeyError "None")
                  end);
  G ← compute_all_follow_sets budget depth start_symbol G;
  Ok (G, start_symbol).

Definition main (depth budget : nat) (lines : list string) (input_str : string)
  : res outcome :=
  '(G, start_symbol) ← analyse depth budget lines;
  built ← construct_parsing_table depth G;
  match built with
  | Return c _ => Ok (NotLL1 c)
  | Continue G =>
      '(verdict, trace) ← parse_input_string budget (strip input_str) start_symbol G;
      Ok (Parsed verdict trace)
  end.

(** The expression grammar, as the lines of a grammar file. *)
Definition expression_grammar : list string :=
  [ "E -> T E'";
    "E' -> + T E' | #";
    "T -> F T'";
    "T' -> * F T' | #";
    "F -> ( E ) | id" ].

(** The globals of the expression grammar when the table is built, and the
    globals in which the parser then runs. *)
Definition expression_analysed : globals :=
  Eval vm_compute in
    match analyse 1000 100 expression_grammar with
    | Ok (G, _) => G
    | Raise _ => initial
    end.

Definition expression_table : globals :=
  Eval vm_compute in
    match construct_parsing_table 1000 expression_analysed with
    | Ok (Continue G) => G
    | _ => initial
    end.

(** [A -> A a | b], loaded: a left-recursive grammar. *)
Definition left_recursive : globals :=
  Globals [("A", [["A"; "a"]; ["b"]])] ∅ ∅ {["a"; "b"]} {["A"]} ∅.

(** A grammar whose only head is the epsilon symbol itself. *)
Definition hash_grammar : list string := ["# -> # #"].

(** The globals of [hash_grammar] once loaded, once analysed and once the
    table is built. *)
Definition hash_loaded : globals := Globals [("#", [["#"; "#"]])] ∅ ∅ ∅ {["#"]} ∅.

Definition hash_analysed : globals :=
  Globals [("#", [["#"; "#"]])] {["#" := {["#"]}]} {["#" := {["$"]}]} ∅ {["#"]} ∅.

Definition hash_globals : globals :=
  Globals [("#", [["#"; "#"]])] {["#" := {["#"]}]} {["#" := {["$"]}]} ∅ {["#"]}
    {["#" := {["$" := Some ["#"; "#"]]}]}.

(** Four productions, two pairs of which meet in one cell: [M[A, a]] and
    [M[A, c]]. *)
Definition two_conflicts : list string := ["A -> a | a b | c | c d"].

Definition two_conflicts_analysed : globals :=
  Eval vm_compute in
    match analyse 1000 100 two_conflicts with
    | Ok (G, _) => G
    | Raise _ => initial
    end.

Definition two_conflicts_left : globals :=
  Eval vm_compute in
    match construct_parsing_table 1000 two_conflicts_analysed with
    | Ok (Return _ G) => G
    | _ => initial
    end.

(** A row of the trace that shows a match. *)
Definition is_match (r : row) : bool :=
  match row_action r with
  | Match _ => true
  | _ => false
  end.

Definition count_matches (trace : list row) : nat :=
  length (filter (λ r, is_match r = true) trace).

(** The test ['A' <= symbol[0] <= 'Z'] on a symbol that is not empty. *)
Definition upper (symbol : string) : bool :=
  match symbol with
  | EmptyString => false
  | String c _ => bool_decide (65 ≤ nat_of_ascii c ≤ 90)%nat
  end.

Definition heads (entries : list (string * list production)) : list string := entries.*1.

Definition body_symbols (entries : list (string * list production)) : list string :=
  concat (concat entries.*2).


(** The tokens that the rows of a trace show as matched, in order. *)
Definition matched (trace : list row) : list string :=
  omap (λ r, match row_action r with Match a => Some a | _ => None end) trace.

End Expt6.

(** ** expt 4/main.py: reading the grammar file *)

Module Expt4Parse.

Definition EPSILON : string := "ε".

Definition EPSILON_TOKENS : list string :=
  [EPSILON; "#"; "epsilon"; "EPSILON"; "lambda"; "Λ"].

Definition normalize_symbol (symbol : string) : string :=
  let symbol := strip symbol in
  if bool_decide (symbol ∈ EPSILON_TOKENS) then EPSILON else symbol.

(** [s.startswith(prefix, start)] *)
Fixpoint startswith (s prefix : string) (start : nat) : bool :=
  match start, s with
  | 0, _ => String.prefix prefix s
  | S start', String _ s' => startswith s' prefix start'
  | S _, EmptyString => false
  end.

(** The inner loop of [split_token], [while lookahead < length and not
    any(...): lookahead += 1], unrolled [steps] times. *)
Fixpoint scan (steps : nat) (token : string) (sorted_nonterminals : list string)
    (lookahead : nat) : nat :=
  match steps with
  | 0 => lookahead
  | S steps' =>
      if bool_decide (lookahead < String.length token)%nat
         && negb (existsb (λ nt, startswith token nt lookahead) sorted_nonterminals)
      then scan steps' token sorted_nonterminals (S lookahead)
      else lookahead
  end.

(** [while index < length: ...] of [split_token]. *)
Fixpoint split_loop (budget : nat) (token : string) (sorted_nonterminals : list string)
    (index : nat) (symbols : list string) : res (list string) :=
  match budget with
  | 0 => Raise LoopBudget
  | S budget' =>
      if bool_decide (index < String.length token)%nat then
        match find (λ nt, startswith token nt index) sorted_nonterminals with
        | Some (String _ _ as found) =>
            split_loop budget' token sorted_nonterminals (index + String.length found)
              (symbols ++ [found])
        | _ =>
            let lookahead := scan (String.length token) token sorted_nonterminals (S index) in
            split_loop budget' token sorted_nonterminals lookahead
              (symbols ++ [substring index (lookahead - index) token])
        end
      else Ok symbols
  end.

(** The loops are unrolled as many times as the token has characters, and
    once more for the test that ends the outer one. *)
Definition split_token (token : string) (nonterminals : gset string)
    (sorted_nonterminals : list string) : res (list string) :=
  if decide (token = "") then Ok []
  else if bool_decide (token ∈ EPSILON_TOKENS) then Ok [EPSILON]
  else if decide (token ∈ nonterminals) then Ok [token]
  else split_loop (S (String.length token)) token sorted_nonterminals 0 [].

Definition tokenize_alternative (alternative : string) (nonterminals : gset string)
    (sorted_nonterminals : list string) : res (list string) :=
  match split alternative with
  | [] => Ok [EPSILON]
  | parts =>
      tokens ← foldr (λ part rest,
                        symbols ← split_token part nonterminals sorted_nonterminals;
                        later ← rest; Ok (symbols ++ later))
                 (Ok []) parts;
      match normalize_symbol <$> filter (λ token, token ≠ "") tokens with
      | [] => Ok [EPSILON]
      | normalized => Ok normalized
      end
  end.

(** What [GrammarParseError] is raised with. *)
Inductive parse_error : Type :=
| MissingArrow (line_no : nat)
| EmptyLhs (line_no : nat)
| NoProductions (line_no : nat) (lhs : string)
| OnlyEmptyAlternatives (line_no : nat) (lhs : string)
| NoGrammar
| UnableToParse (line_no : nat) (alt lhs : string).

(** An entry of [entries]: the left-hand side, the alternatives and the
    number of the line. *)
Definition entry : Type := string * list string * nat.

(** The body of [for line_no, raw_line in enumerate(handle, start=1)]; the
    state is [entries] and [start_symbol]. *)
Definition read_line (line_no : nat) (raw_line : string)
    (st : list entry * option string) : parse_error + list entry * option string :=
  let '(entries, start_symbol) := st in
  let stripped := strip raw_line in
  if bool_decide (stripped = "") || String.prefix "//" stripped then inr st
  else
    match split_arrow stripped with
    | None => inl (MissingArrow line_no)
    | Some (lhs, rhs) =>
        let lhs_part := strip lhs in
        let rhs_part := strip rhs in
        if decide (lhs_part = "") then inl (EmptyLhs line_no)
        else
          let start_symbol := match start_symbol with None => Some lhs_part | s => s end in
          if decide (rhs_part = "") then inl (NoProductions line_no lhs_part)
          else
            match filter (λ alt, alt ≠ "") (strip <$> split_on "|" rhs_part) with
            | [] => inl (OnlyEmptyAlternatives line_no lhs_part)
            | alternatives => inr (entries ++ [(lhs_part, alternatives, line_no)], start_symbol)
            end
    end.

Fixpoint read_lines (line_no : nat) (lines : list string)
    (st : list entry * option string) : parse_error + list entry * option string :=
  match lines with
  | [] => inr st
  | raw_line :: lines' =>
      match read_line line_no raw_line st with
      | inl e => inl e
      | inr st' => read_lines (S line_no) lines' st'
      end
  end.

(** [sorted(nonterminals, key=len, reverse=True)].  The lengths are those of
    the encoded strings; of two nonterminals that both start at one place of
    a token one is a prefix of the other, and the longer one comes first
    however the lengths are counted and the ties are ordered. *)
Definition sort_nonterminals (nonterminals : gset string) : list string :=
  merge_sort (λ a b, bool_decide (String.length b ≤ String.length a)%nat)
    (elements nonterminals).

(** The body of [for alt in alternatives]: the productions so far, or the
    error raised. *)
Definition add_alternative (nonterminals : gset string) (sorted_nonterminals : list string)
    (lhs : string) (line_no : nat) (alt : string) (productions : grammar_dict)
  : res (flow grammar_dict parse_error) :=
  symbols ← tokenize_alternative alt nonterminals sorted_nonterminals;
  match symbols with
  | [] => Ok (Return (UnableToParse line_no alt lhs) productions)
  | _ =>
      Ok (Continue (dict_set lhs (default [] (dict_get lhs productions) ++ [symbols])
                      productions))
  end.

(** The lines of the file to the grammar and the start symbol, or to the
    error that [main] prints. *)
Definition parse_grammar_file (lines : list string)
  : res (parse_error + grammar_dict * string) :=
  match read_lines 1 lines ([], None) with
  | inl e => Ok (inl e)
  | inr (_, None) => Ok (inl NoGrammar)
  | inr (entries, Some start_symbol) =>
      let nonterminals : gset string := list_to_set (entries.*1.*1) in
      let sorted_nonterminals := sort_nonterminals nonterminals in
      r ← for_until entries
             (λ '(lhs, alternatives, line_no),
                for_until alternatives
                  (add_alternative nonterminals sorted_nonterminals lhs line_no))
             [];
      match r with
      | Return e _ => Ok (inl e)
      | Continue productions => Ok (inr (productions, start_symbol))
      end
  end.

(** [main] up to the calls of [display_sets]: the error printed, or the FIRST
    and the FOLLOW sets. *)
Definition main (budget : nat) (lines : list string) : res (parse_error + sets * sets) :=
  parsed ← parse_grammar_file lines;
  match parsed with
  | inl e => Ok (inl e)
  | inr (g, start_symbol) =>
      first_sets ← Expt4.compute_first_sets budget g;
      follow_sets ← Expt4.compute_follow_sets budget g first_sets start_symbol;
      Ok (inr (first_sets, follow_sets))
  end.

End Expt4Parse.

(** ** expt 4/first_n_follow.py: the recursive FOLLOW *)

Module Expt4RecFollow.

Definition EPSILON : string := Expt4Rec.EPSILON.

(** The two mutable arguments of [cal_follow]: [memo] and [visiting].  The
    local [follow] of a call on [s] is the set object [memo[s]] itself, made
    by [memo.setdefault(s, set())]: what the call adds to [follow] it adds to
    the entry of [s] in the store. *)
Definition store : Type := sets * gset string.

(** [follow.update(additions)], [follow] being [memo[s]]. *)
Definition update_follow (s : string) (additions : gset string) (memo : sets) : sets :=
  alter (λ follow, follow ∪ additions) s memo.

(** [while next_idx < len(production): ... else: ...] on what remains of the
    production after an occurrence of [s]; the flag tells that the loop ended
    without a [break], so that the [else] branch runs. *)
Fixpoint follow_rest (productions : grammar_dict) (first : sets) (s : string)
    (rest : list string) (memo : sets) : res (sets * bool) :=
  match rest with
  | [] => Ok (memo, true)
  | next_symbol :: rest' =>
      if decide (next_symbol = EPSILON) then follow_rest productions first s rest' memo
      else if dict_mem next_symbol productions then
        symbol_first ← getitem first next_symbol;
        let memo := update_follow s (symbol_first ∖ {[EPSILON]}) memo in
        if decide (EPSILON ∈ symbol_first) then follow_rest productions first s rest' memo
        else Ok (memo, false)
      else Ok (update_follow s {[next_symbol]} memo, false)
  end.

(** [if head != s: follow.update(cal_follow(head, ...))]; [rec] is the
    recursive call. *)
Definition inherit (rec : string → store → res (gset string * store)) (s head : string)
    (st : store) : res store :=
  if decide (head ≠ s) then
    '(from_head, (memo, visiting)) ← rec head st;
    Ok (update_follow s from_head memo, visiting)
  else Ok st.

(** The body of [for idx in indices], for the occurrence of [s] that [rest]
    follows in the production. *)
Definition after_occurrence (rec : string → store → res (gset string * store))
    (productions : grammar_dict) (first : sets) (s head : string) (rest : list string)
    (st : store) : res store :=
  match rest with
  | [] => inherit rec s head st
  | _ =>
      '(memo, ended) ← follow_rest productions first s rest st.1;
      if ended : bool then inherit rec s head (memo, st.2) else Ok (memo, st.2)
  end.

(** [for idx in indices] over the places of the production that hold [s]. *)
Fixpoint follow_production (rec : string → store → res (gset string * store))
    (productions : grammar_dict) (first : sets) (s head : string) (prod : production)
    (st : store) : res store :=
  match prod with
  | [] => Ok st
  | symbol :: rest =>
      st' ← (if decide (symbol = s)
             then after_occurrence rec productions first s head rest st
             else Ok st);
      follow_production rec productions first s head rest st'
  end.

Fixpoint cal_follow (depth : nat) (productions : grammar_dict) (first : sets)
    (start_symbol : string) (s : string) (st : store) : res (gset string * store) :=
  match depth with
  | 0 => Raise RecursionError
  | S depth' =>
      let '(memo, visiting) := st in
      match memo !! s with
      | Some known => Ok (known, st)
      | None =>
          let memo := <[s := ∅]> memo in
          if negb (dict_mem s productions) then Ok (∅, (memo, visiting))
          else if decide (s ∈ visiting) then Ok (∅, (memo, visiting))
          else
            let memo := if decide (s = start_symbol) then update_follow s {["$"]} memo
                        else memo in
            '(memo, visiting) ←
              for_each productions
                (λ '(head, rules),
                   for_each rules
                     (follow_production (cal_follow depth' productions first start_symbol)
                        productions first s head))
                (memo, visiting ∪ {[s]});
            if decide (s ∈ visiting) then
              Ok (default ∅ (memo !! s), (memo, visiting ∖ {[s]}))
            else Raise (KeyError s)
      end
  end.

(** The loop of [main]: [follow[s] = cal_follow(s, productions, first,
    follow_memo, start_symbol=start_symbol)] for every key, each call with a
    fresh [visiting].  [follow[s]] is the set object [follow_memo[s]]: the
    table that is displayed is the store the loop leaves. *)
Definition follow_table (depth : nat) (productions : grammar_dict) (first : sets)
    (start_symbol : string) : res sets :=
  for_each (keys productions)
    (λ s follow_memo,
       '(_, (follow_memo, _)) ←
         cal_follow depth productions first start_symbol s (follow_memo, ∅);
       Ok follow_memo)
    ∅.

End Expt4RecFollow.

(** ** expt 4/first_n_follow.py: reading the grammar file, and [main] *)

Module Expt4RecMain.

(** What [ValueError] is raised with by [parse_grammar]; [main] prints it. *)
Inductive value_error : Type :=
| MissingArrow (raw_line : string)
| EmptyLhs (raw_line : string).

(** [symbols = [normalize_symbol(token) for token in alternative.split() if
    token.strip()]], replaced by [[EPSILON]] when it is empty. *)
Definition symbols_of_alternative (alternative : string) : production :=
  match Expt4Rec.normalize_symbol <$> filter (λ token, strip token ≠ "") (split alternative)
  with
  | [] => [Expt4Rec.EPSILON]
  | symbols => symbols
  end.

(** [not line or line.startswith("//") or line.startswith("#")] *)
Definition skipped (line : string) : bool :=
  bool_decide (line = "") || String.prefix "//" line || String.prefix "#" line.

(** The body of [for raw_line in grammar]. *)
Definition read_line (raw_line : string) (productions : grammar_dict)
  : value_error + grammar_dict :=
  let line := strip raw_line in
  if skipped line then inr productions
  else
    match split_arrow line with
    | None => inl (MissingArrow (rstrip raw_line))
    | Some (lhs, rhs) =>
        let left_part := strip lhs in
        let right_part := strip rhs in
        if decide (left_part = "") then inl (EmptyLhs (rstrip raw_line))
        else
          let alternatives :=
            match filter (λ alt, alt ≠ "") (strip <$> split_on "|" right_part) with
            | [] => [Expt4Rec.EPSILON]
            | alternatives => alternatives
            end in
          let productions :=
            if dict_mem left_part productions then productions
            else dict_set left_part [] productions in
          inr (foldl (λ productions alternative,
                        dict_set left_part
                          (default [] (dict_get left_part productions)
                           ++ [symbols_of_alternative alternative])
                          productions)
                 productions alternatives)
    end.

Fixpoint parse_grammar (lines : list string) (productions : grammar_dict)
  : value_error + grammar_dict :=
  match lines with
  | [] => inr productions
  | raw_line :: lines' =>
      match read_line raw_line productions with
      | inl e => inl e
      | inr productions' => parse_grammar lines' productions'
      end
  end.

(** How [main] ends: the error of [parse_grammar] is printed; or
    [next(iter(productions))] raises [StopIteration], which nothing catches;
    or the two tables are displayed. *)
Inductive outcome : Type :=
| ParseError (e : value_error)
| StopIteration (first : sets)
| Displayed (first follow : sets).

Definition main (depth : nat) (lines : list string) : res outcome :=
  match parse_grammar lines [] with
  | inl e => Ok (ParseError e)
  | inr productions =>
      first ← Expt4Rec.first_table depth productions;
      match head (keys productions) with
      | None => Ok (StopIteration first)
      | Some start_symbol =>
          follow ← Expt4RecFollow.follow_table depth productions first start_symbol;
          Ok (Displayed first follow)
      end
  end.

End Expt4RecMain.

(** ** Measures and invariants of the solvers *)

Open Scope nat_scope.

(** The sets of a dict taken together, as counted over the keys [K]. *)
Definition total_size (K : list string) (fs : sets) : nat :=
  sum_list_with (λ k, size (default ∅ (fs !! k))) K.

(** The symbols that occur in the productions of a grammar. *)
Definition symbols_of (g : grammar_dict) : gset string :=
  list_to_set (concat (concat g.*2)).

Definition union_values (fs : sets) : gset string := ⋃ (map_to_list fs).*2.

(** A loop body taken from the state [s] with the flag [c]: it returns, keeps
    the invariant, does not lower the measure, and raises the flag only when
    the measure went up. *)
Definition advances {S : Type} (inv : S → Prop) (mu : S → nat) (s : S) (c : bool)
    (r : res (S * bool)) : Prop :=
  ∃ s' c', r = Ok (s', c') ∧ inv s' ∧ mu s ≤ mu s' ∧
           (c' = true → c = true ∨ mu s < mu s').

(** Everything a FIRST set of [expt 4/main.py] can hold. *)
Definition first_universe (g : grammar_dict) : gset string :=
  {[Expt4.EPSILON]} ∪ symbols_of g.

(** Passes after which [compute_first_sets] has returned. *)
Definition first_budget (g : grammar_dict) : nat :=
  S (length (keys g) * size (first_universe g)).

Definition first_inv (g : grammar_dict) (fs : sets) : Prop :=
  (∀ k, k ∈ keys g → is_Some (fs !! k)) ∧
  (∀ k X, fs !! k = Some X → X ⊆ first_universe g).

(** Everything a FOLLOW set of [expt 4/main.py] can hold. *)
Definition follow_universe (g : grammar_dict) (first_sets : sets) : gset string :=
  {["$"]} ∪ first_universe g ∪ union_values first_sets.

(** Passes after which [compute_follow_sets] has returned. *)
Definition follow_budget (g : grammar_dict) (first_sets : sets) : nat :=
  S (length (keys g) * size (follow_universe g first_sets)).

Definition follow_inv (g : grammar_dict) (first_sets : sets) (start_symbol : string)
    (fs : sets) : Prop :=
  (∀ k, k ∈ keys g → is_Some (fs !! k)) ∧
  (∀ k X, fs !! k = Some X → X ⊆ follow_universe g first_sets) ∧
  (∃ X, fs !! start_symbol = Some X ∧ "$" ∈ X).

(** Everything a FOLLOW set of [expt 6/6a.py] can hold. *)
Definition follow_universe6 (G : Expt6.globals) : gset string :=
  {[Expt6.END_MARKER; Expt6.EPSILON]} ∪ Expt6.terminals G
    ∪ union_values (Expt6.first_sets G).

(** Passes after which [compute_all_follow_sets] has returned. *)
Definition follow_budget6 (G : Expt6.globals) : nat :=
  S (size (Expt6.non_terminals G) * size (follow_universe6 G)).

(** What the passes of [compute_all_follow_sets] keep true, relative to the
    globals [G0] in which the loop is entered. *)
Record follow_inv6 (G0 : Expt6.globals) (start_symbol : string) (G : Expt6.globals)
  : Prop := {
  inv_grammar : Expt6.grammar G = Expt6.grammar G0;
  inv_terminals : Expt6.terminals G = Expt6.terminals G0;
  inv_non_terminals : Expt6.non_terminals G = Expt6.non_terminals G0;
  inv_memo : ∀ k, k ∈ keys (Expt6.grammar G0) → is_Some (Expt6.first_sets G !! k);
  inv_memo_sub : ∀ k X, Expt6.first_sets G !! k = Some X → X ⊆ follow_universe6 G0;
  inv_follow : ∀ k, k ∈ Expt6.non_terminals G0 → is_Some (Expt6.follow_sets G !! k);
  inv_follow_sub : ∀ k X, k ∈ Expt6.non_terminals G0 →
                          Expt6.follow_sets G !! k = Some X → X ⊆ follow_universe6 G0;
  inv_start : ∃ X, Expt6.follow_sets G !! start_symbol = Some X ∧ Expt6.END_MARKER ∈ X
}.

(** The measure of the passes of [compute_all_follow_sets]. *)
Definition follow_size6 (G0 G : Expt6.globals) : nat :=
  total_size (elements (Expt6.non_terminals G0)) (Expt6.follow_sets G).


(** [G'] differs from [G] by new entries of the memo [first_sets] at most. *)
Definition memo_extended (G G' : Expt6.globals) : Prop :=
  Expt6.grammar G' = Expt6.grammar G ∧
  Expt6.terminals G' = Expt6.terminals G ∧
  Expt6.non_terminals G' = Expt6.non_terminals G ∧
  Expt6.follow_sets G' = Expt6.follow_sets G ∧
  Expt6.parsing_table G' = Expt6.parsing_table G ∧
  Expt6.first_sets G ⊆ Expt6.first_sets G'.

(** The globals a loop is left with, whichever way it is left. *)
Definition flow_state {S R : Type} (r : flow S R) : S :=
  match r with
  | Continue s => s
  | Return _ s => s
  end.

(** Every production in a row of a nonterminal is one of its productions. *)
Definition table_sound (G : Expt6.globals) : Prop :=
  ∀ nt table_row t prod,
    nt ∈ Expt6.non_terminals G → Expt6.parsing_table G !! nt = Some table_row →
    table_row !! t = Some (Some prod) →
    ∃ prods, (nt, prods) ∈ Expt6.grammar G ∧ prod ∈ prods.

(** [M[nt, terminal]] holds the production [prod]. *)
Definition cell_holds (G : Expt6.globals) (nt terminal : string) (prod : production) : Prop :=
  ∃ table_row, Expt6.parsing_table G !! nt = Some table_row ∧
               table_row !! terminal = Some (Some prod).

(** From [G] to [G'] cells were filled and FIRST sets memoised, nothing else. *)
Definition table_grows (G G' : Expt6.globals) : Prop :=
  Expt6.grammar G' = Expt6.grammar G ∧
  Expt6.terminals G' = Expt6.terminals G ∧
  Expt6.non_terminals G' = Expt6.non_terminals G ∧
  Expt6.follow_sets G' = Expt6.follow_sets G ∧
  Expt6.first_sets G ⊆ Expt6.first_sets G' ∧
  ∀ nt terminal prod, cell_holds G nt terminal prod → cell_holds G' nt terminal prod.

(** The production [prod] of [nt] sits in the row of [nt] under every
    terminal of its FIRST set and, when that holds the epsilon symbol, under
    every symbol of FOLLOW of [nt]. *)
Definition production_placed (G : Expt6.globals) (nt : string) (prod : production) : Prop :=
  ∃ first_of_prod,
    (∀ depth, Expt6.compute_first_of_sequence (S depth) prod G = Ok (first_of_prod, G)) ∧
    (∀ terminal, terminal ∈ first_of_prod → terminal ≠ Expt6.EPSILON →
       cell_holds G nt terminal prod) ∧
    (Expt6.EPSILON ∈ first_of_prod →
       ∃ follow_nt, Expt6.follow_sets G !! nt = Some follow_nt ∧
         ∀ terminal, terminal ∈ follow_nt → cell_holds G nt terminal prod).

(** A loop body that leaves the flag down only when it leaves the state as it
    found it, with the flag down already. *)
Definition steady {A S : Type} (body : A → S * bool → res (S * bool)) : Prop :=
  ∀ x s c s', body x (s, c) = Ok (s', false) → c = false ∧ s' = s.

(** The FIRST sets of [fs] are sets of the keys of [g], and hold the epsilon
    symbol and symbols of the productions that are not keys, nothing else. *)
Definition first_of_terminals (g : grammar_dict) (fs : sets) : Prop :=
  ∀ k X, fs !! k = Some X →
    k ∈ keys g ∧
    ∀ x, x ∈ X → x = Expt4.EPSILON ∨ (x ∈ symbols_of g ∧ x ∉ keys g).

(** Every memoised FIRST set holds terminals and the epsilon symbol only. *)
Definition first_within_terminals (G : Expt6.globals) : Prop :=
  ∀ k X, Expt6.first_sets G !! k = Some X → X ⊆ Expt6.terminals G ∪ {[Expt6.EPSILON]}.

(** What FOLLOW in [G] owes to an occurrence of the nonterminal [B] before
    [beta] in a production of [A]. *)
Definition follow_solved (G : Expt6.globals) (A B : string) (beta : list string) : Prop :=
  ∃ first_beta follow_B,
    (∀ depth, Expt6.compute_first_of_sequence (S depth) beta G = Ok (first_beta, G)) ∧
    Expt6.follow_sets G !! B = Some follow_B ∧
    first_beta ∖ {[Expt6.EPSILON]} ⊆ follow_B ∧
    (beta = [] ∨ Expt6.EPSILON ∈ first_beta →
     ∃ follow_A, Expt6.follow_sets G !! A = Some follow_A ∧ follow_A ⊆ follow_B).

(** A call [rec] of [cal_first] made with [visiting]: it returns, hands
    [visiting] back as it got it, and keeps what is memoised. *)
Definition returns_balanced (rec : string → Expt4Rec.store → res (gset string * Expt4Rec.store))
    (visiting : gset string) : Prop :=
  ∀ s memo, ∃ X memo', rec s (memo, visiting) = Ok (X, (memo', visiting)) ∧ memo ⊆ memo'.

(** The keys of the grammar that are not being visited: the nested calls of
    [cal_first] that can still open. *)
Definition unvisited (productions : grammar_dict) (visiting : gset string) : nat :=
  size (list_to_set (keys productions) ∖ visiting : gset string).

(** Every set memoised in [memo] lies within the set that [solved] has for
    the same key. *)
Definition memo_under (solved memo : sets) : Prop :=
  ∀ k X, memo !! k = Some X → ∃ Y, solved !! k = Some Y ∧ X ⊆ Y.

(** The entries that the first loop of [parse_grammar_file] collects have a
    left-hand side and at least one alternative, none of them empty. *)
Definition entry_ok (e : Expt4Parse.entry) : Prop :=
  e.1.1 ≠ "" ∧ e.1.2 ≠ [] ∧ Forall (λ alt, alt ≠ "") e.1.2.

(** The start symbol is the left-hand side of the first entry. *)
Definition start_is_first (st : list Expt4Parse.entry * option string) : Prop :=
  st.2 = head (st.1.*1.*1).

(** The keys of a grammar are not empty, and no key is left without a
    production or with an empty one. *)
Definition productions_ok (g : grammar_dict) : Prop :=
  NoDup (keys g) ∧
  ∀ nt prods, (nt, prods) ∈ g → nt ≠ "" ∧ prods ≠ [] ∧ Forall (λ p, p ≠ []) prods.

(** The keys of the grammar that [memo] does not hold yet: the nested calls
    of [cal_follow] that can still open. *)
Definition unmemoised (productions : grammar_dict) (memo : sets) : nat :=
  size (list_to_set (keys productions) ∖ dom memo : gset string).

(** What the calls of [cal_follow] keep true of the store: a symbol that is
    being visited is memoised, and the set memoised for the start symbol
    holds the end marker. *)
Definition follow_store_ok (start_symbol : string) (st : Expt4RecFollow.store) : Prop :=
  st.2 ⊆ dom st.1 ∧ ∀ X, st.1 !! start_symbol = Some X → "$" ∈ X.

(** A call [rec] of [cal_follow] started in a store that is in order, with
    at most [n] keys left to memoise: it returns, memoises its symbol with the
    set it returns, hands [visiting] back and keeps the store in order. *)
Definition follow_call_ok (productions : grammar_dict) (start_symbol : string)
    (rec : string → Expt4RecFollow.store → res (gset string * Expt4RecFollow.store))
    (n : nat) : Prop :=
  ∀ s memo visiting,
    follow_store_ok start_symbol (memo, visiting) → unmemoised productions memo < n →
    ∃ X memo', rec s (memo, visiting) = Ok (X, (memo', visiting)) ∧
               follow_store_ok start_symbol (memo', visiting) ∧
               dom memo ⊆ dom memo' ∧ memo' !! s = Some X.

(** A string that does not start with white space. *)
Definition starts_clean (s : string) : Prop :=
  match s with
  | String c _ => is_space c = false
  | EmptyString => True
  end.

(** stdpp's solvers clear hypotheses that are already gone. *)
#[local] Set Warnings "-clear-no-such-hyp".

(** ** Loops, dicts and measures *)

Lemma elem_of_concat {A} (x : A) (ls : list (list A)) :
  x ∈ concat ls ↔ ∃ l, x ∈ l ∧ l ∈ ls.
Proof.
  induction ls as [|l ls IH]; simpl.
  - rewrite elem_of_nil. split; [done|]. intros (l & _ & H). by apply elem_of_nil in H.
  - rewrite elem_of_app, IH. split.
    + intros [?|(l' & ? & ?)]; [exists l; split; [done|left]|exists l'; split; [done|by right]].
    + intros (l' & ? & [->|?]%elem_of_cons); [by left|right; eauto].
Qed.

Lemma bind_ok {A B} (m : res A) (f : A → res B) a : m = Ok a → m ≫= f = f a.
Proof. by intros ->. Qed.

Section Loops.
Context {S : Type} (inv : S → Prop) (mu : S → nat) (bound : nat).
Hypothesis mu_bound : ∀ s, inv s → mu s ≤ bound.
Local Abbreviation advances := (advances inv mu).

Lemma advances_refl s c : inv s → advances s c (Ok (s, c)).
Proof. intros. exists s, c. repeat split; auto. Qed.

Lemma advances_bind s c (m : res (S * bool)) (f : S * bool → res (S * bool)) :
  advances s c m →
  (∀ s1 c1, inv s1 → advances s1 c1 (f (s1, c1))) →
  advances s c (m ≫= f).
Proof.
  intros (s1 & c1 & -> & Hi & Hle & Hc) Hf.
  destruct (Hf s1 c1 Hi) as (s2 & c2 & Hr & Hi2 & Hle2 & Hc2).
  exists s2, c2. simpl. repeat split; auto; [lia|].
  intros Ht. destruct (Hc2 Ht) as [H1|H1]; [destruct (Hc H1)|]; [auto|right; lia|right; lia].
Qed.

Lemma advances_trans s c s1 c1 r :
  mu s ≤ mu s1 → (c1 = true → c = true ∨ mu s < mu s1) →
  advances s1 c1 r → advances s c r.
Proof.
  intros Hle Hc (s2 & c2 & -> & Hi2 & Hle2 & Hc2).
  exists s2, c2. repeat split; [done|lia|].
  intros Ht. destruct (Hc2 Ht) as [H1|H1]; [destruct (Hc H1)|]; [auto|right; lia|right; lia].
Qed.

Lemma for_each_advances {A} (l : list A) (body : A → S * bool → res (S * bool)) :
  (∀ x s c, x ∈ l → inv s → advances s c (body x (s, c))) →
  ∀ s c, inv s → advances s c (for_each l body (s, c)).
Proof.
  induction l as [|x l IH]; intros Hb s c Hi; simpl.
  - by apply advances_refl.
  - apply advances_bind.
    + apply Hb; [left|done].
    + intros s1 c1 Hi1. apply IH; [|done].
      intros y s2 c2 Hy. apply Hb. by right.
Qed.

Lemma while_changed_total (pass : S → res (S * bool)) :
  (∀ s, inv s → advances s false (pass s)) →
  ∀ s, inv s →
    ∃ s', inv s' ∧ mu s ≤ mu s' ∧
          ∀ budget, bound - mu s < budget → while_changed budget pass s = Ok s'.
Proof.
  intros Hp s. remember (bound - mu s) as n eqn:Hn.
  revert s Hn. induction (lt_wf n) as [n _ IH]. intros s Hn Hi.
  destruct (Hp s Hi) as (s1 & c1 & Hr & Hi1 & Hle & Hc).
  destruct c1.
  - destruct (Hc eq_refl) as [?|Hlt]; [done|].
    pose proof (mu_bound s1 Hi1).
    destruct (IH (bound - mu s1) ltac:(lia) s1 eq_refl Hi1) as (s2 & Hi2 & Hle2 & Hrun).
    exists s2. repeat split; [done|lia|].
    intros [|b] Hb; [lia|]. simpl. rewrite Hr. simpl. apply Hrun. lia.
  - exists s1. repeat split; [done..|].
    intros [|b] Hb; [lia|]. simpl. by rewrite Hr.
Qed.
End Loops.

Lemma total_size_bound K U (fs : sets) :
  (∀ k X, k ∈ K → fs !! k = Some X → X ⊆ U) → total_size K fs ≤ length K * size U.
Proof.
  unfold total_size. induction K as [|k K IH]; intros H; simpl; [lia|].
  assert (size (default ∅ (fs !! k)) ≤ size U).
  { apply subseteq_size. destruct (fs !! k) eqn:E; simpl; [|set_solver].
    eapply H; [left|done]. }
  specialize (IH (λ k' X Hk, H k' X (list_elem_of_further _ _ _ Hk))). lia.
Qed.

Lemma total_size_insert_le K (fs : sets) k X X' :
  fs !! k = Some X → X ⊆ X' → total_size K fs ≤ total_size K (<[k := X']> fs).
Proof.
  intros Hk Hsub. unfold total_size. induction K as [|j K IH]; simpl; [lia|].
  assert (size (default ∅ (fs !! j)) ≤ size (default ∅ (<[k := X']> fs !! j))); [|lia].
  destruct (decide (k = j)) as [->|Hne].
  - rewrite lookup_insert_eq, Hk. simpl. by apply subseteq_size.
  - by rewrite lookup_insert_ne.
Qed.

Lemma total_size_insert_lt K (fs : sets) k X X' :
  k ∈ K → fs !! k = Some X → X ⊆ X' → size X < size X' →
  total_size K fs < total_size K (<[k := X']> fs).
Proof.
  intros Hin Hk Hsub Hlt. unfold total_size.
  induction K as [|j K IH]; [by apply elem_of_nil in Hin|]. simpl.
  pose proof (total_size_insert_le K fs k X X' Hk Hsub) as Hle. unfold total_size in Hle.
  destruct (decide (k = j)) as [->|Hne].
  - rewrite lookup_insert_eq, Hk. simpl. lia.
  - rewrite (lookup_insert_ne _ k j) by done.
    apply elem_of_cons in Hin as [?|Hin]; [done|]. specialize (IH Hin). lia.
Qed.

(** ** expt 4/main.py: the solvers return *)

Lemma getitem_ok {V} (d : gmap string V) k v : d !! k = Some v → getitem d k = Ok v.
Proof. unfold getitem. by intros ->. Qed.

Lemma symbols_of_elem g nt prods prod x :
  (nt, prods) ∈ g → prod ∈ prods → x ∈ prod → x ∈ symbols_of g.
Proof.
  intros Hg Hp Hx. unfold symbols_of. apply elem_of_list_to_set.
  apply elem_of_concat. exists prod. split; [done|].
  apply elem_of_concat. exists prods. split; [done|].
  apply list_elem_of_fmap. by exists (nt, prods).
Qed.

Lemma keys_elem {V} (d : dict V) k v : (k, v) ∈ d → k ∈ keys d.
Proof. intros H. apply list_elem_of_fmap. by exists (k, v). Qed.

Lemma dict_mem_true {V} (d : dict V) k : dict_mem k d = true → k ∈ keys d.
Proof. unfold dict_mem. apply bool_decide_eq_true_1. Qed.

(** Growing one set of an invariant dict. *)
Lemma first_inv_insert g fs k X add :
  first_inv g fs → fs !! k = Some X → add ⊆ first_universe g →
  first_inv g (<[k := X ∪ add]> fs).
Proof.
  intros [Hk Hu] Hl Ha. split.
  - intros j Hj. destruct (decide (k = j)) as [->|]; [rewrite lookup_insert_eq; eauto|].
    rewrite lookup_insert_ne by done. auto.
  - intros j Y. destruct (decide (k = j)) as [->|].
    + rewrite lookup_insert_eq. intros [= <-]. specialize (Hu _ _ Hl). set_solver.
    + rewrite lookup_insert_ne by done. apply Hu.
Qed.

Section First.
Variable g : grammar_dict.
Local Abbreviation K := (keys g).
Local Abbreviation mu := (total_size (keys g)).
Local Abbreviation inv := (first_inv g).

Lemma symbol_first_of_ok fs symbol :
  inv fs → symbol ∈ first_universe g →
  ∃ X, Expt4.symbol_first_of g fs symbol = Ok X ∧ X ⊆ first_universe g.
Proof.
  intros [Hk Hu] Hs. unfold Expt4.symbol_first_of.
  destruct (decide (symbol = Expt4.EPSILON)).
  { eexists; split; [done|]. unfold first_universe. set_solver. }
  unfold Expt4.is_nonterminal. destruct (dict_mem symbol g) eqn:E.
  - apply dict_mem_true in E. destruct (Hk _ E) as [X HX].
    exists X. split; [by apply getitem_ok|]. eauto.
  - eexists; split; [done|]. set_solver.
Qed.

Lemma insert_advances fs nt X add (c : bool) :
  inv fs → nt ∈ K → fs !! nt = Some X → add ⊆ first_universe g →
  let fs' := <[nt := X ∪ add]> fs in
  inv fs' ∧ mu fs ≤ mu fs' ∧ (size (X ∪ add) ≠ size X → mu fs < mu fs').
Proof.
  intros Hi Hnt Hl Ha fs'. split; [by apply first_inv_insert|].
  split.
  - eapply total_size_insert_le; [done|set_solver].
  - intros Hne. eapply total_size_insert_lt; [done..|set_solver|].
    assert (size X ≤ size (X ∪ add)) by (apply subseteq_size; set_solver). lia.
Qed.

Lemma first_walk_advances nt prod fs c :
  nt ∈ K → (∀ x, x ∈ prod → x ∈ first_universe g) → inv fs →
  ∃ fs' c' d, Expt4.first_walk g nt prod fs c = Ok (fs', c', d) ∧
    inv fs' ∧ mu fs ≤ mu fs' ∧ (c' = true → c = true ∨ mu fs < mu fs').
Proof.
  intros Hnt. revert fs c. induction prod as [|x prod IH]; intros fs c Hp Hi; simpl.
  { exists fs, c, true. repeat split; auto; apply Hi. }
  destruct (symbol_first_of_ok fs x Hi) as (sf & -> & Hsf); [apply Hp; left|]. simpl.
  destruct (proj1 Hi nt Hnt) as [X HX]. rewrite (getitem_ok _ _ _ HX). simpl.
  destruct (insert_advances fs nt X (sf ∖ {[Expt4.EPSILON]}) c Hi Hnt HX) as (Hi' & Hle & Hlt);
    [set_solver|].
  set (fs1 := <[nt := X ∪ sf ∖ {[Expt4.EPSILON]}]> fs) in *.
  set (c1 := Expt4.size_changed X (X ∪ sf ∖ {[Expt4.EPSILON]}) c).
  assert (Hc1 : c1 = true → c = true ∨ mu fs < mu fs1).
  { unfold c1, Expt4.size_changed. case_decide; [auto|]. intros _. right. by apply Hlt. }
  destruct (decide (Expt4.EPSILON ∈ sf)).
  - destruct (IH fs1 c1) as (fs2 & c2 & d & Hr & Hi2 & Hle2 & Hc2); [|done|].
    { intros y Hy. apply Hp. by right. }
    exists fs2, c2, d. repeat split; [done|apply Hi2|apply Hi2|lia|].
    intros Ht. destruct (Hc2 Ht) as [H1|H1]; [destruct (Hc1 H1)|]; [auto|right; lia|right; lia].
  - exists fs1, c1, false. repeat split; [apply Hi'|apply Hi'|done|done].
Qed.

Lemma add_epsilon_advances nt fs c :
  nt ∈ K → inv fs → advances inv mu fs c (Expt4.add_epsilon nt (fs, c)).
Proof.
  intros Hnt Hi. unfold Expt4.add_epsilon.
  destruct (proj1 Hi nt Hnt) as [X HX]. rewrite (getitem_ok _ _ _ HX). simpl.
  case_decide.
  - by apply advances_refl.
  - destruct (insert_advances fs nt X {[Expt4.EPSILON]} c Hi Hnt HX) as (Hi' & Hle & Hlt).
    { unfold first_universe. set_solver. }
    eexists _, _. split; [done|]. repeat split; [apply Hi'..|done|].
    intros _. right. apply Hlt.
    rewrite size_union by set_solver. rewrite size_singleton. lia.
Qed.

Lemma first_production_advances nt prod fs c :
  nt ∈ K → (∀ x, x ∈ prod → x ∈ first_universe g) → inv fs →
  advances inv mu fs c (Expt4.first_production g nt prod (fs, c)).
Proof.
  intros Hnt Hp Hi. unfold Expt4.first_production. case_decide.
  { by apply add_epsilon_advances. }
  cbn [fst snd]. destruct (first_walk_advances nt prod fs c Hnt Hp Hi)
    as (fs1 & c1 & d & -> & Hi1 & Hle & Hc). cbn [mbind res_bind].
  destruct d.
  - destruct (add_epsilon_advances nt fs1 c1 Hnt Hi1) as (fs2 & c2 & -> & Hi2 & Hle2 & Hc2).
    exists fs2, c2. repeat split; [apply Hi2..|lia|].
    intros Ht. destruct (Hc2 Ht) as [H1|H1]; [destruct (Hc H1)|]; [auto|right; lia|right; lia].
  - exists fs1, c1. repeat split; [apply Hi1..|done|done].
Qed.

Lemma first_pass_advances fs :
  inv fs → advances inv mu fs false (Expt4.first_pass g fs).
Proof.
  intros Hi. unfold Expt4.first_pass.
  apply for_each_advances; [|done].
  intros [nt prods] s c Hin Hs.
  apply for_each_advances; [|done].
  intros prod s' c' Hprod Hs'. apply first_production_advances; [|  |done].
  - by eapply keys_elem.
  - intros x Hx. unfold first_universe. apply elem_of_union_r.
    by eapply symbols_of_elem.
Qed.

Lemma empty_sets_inv : inv (Expt4.empty_sets g).
Proof.
  split.
  - intros k Hk. unfold Expt4.empty_sets. exists ∅.
    apply elem_of_list_to_map_1'.
    + intros y Hy. apply list_elem_of_fmap in Hy as (? & [= _ ->] & _). done.
    + apply list_elem_of_fmap. by exists k.
  - intros k X Hl. unfold Expt4.empty_sets in Hl.
    apply elem_of_list_to_map_2 in Hl. apply list_elem_of_fmap in Hl as (? & [= _ ->] & _).
    set_solver.
Qed.

Lemma compute_first_sets_total_aux :
  ∃ fs, inv fs ∧ ∀ budget, first_budget g ≤ budget → Expt4.compute_first_sets budget g = Ok fs.
Proof.
  destruct (while_changed_total inv mu (length K * size (first_universe g))) with
    (pass := Expt4.first_pass g) (s := Expt4.empty_sets g) as (fs & Hi & _ & Hrun).
  - intros s [_ Hu]. apply total_size_bound. eauto.
  - apply first_pass_advances.
  - apply empty_sets_inv.
  - exists fs. split; [done|]. intros b Hb. apply Hrun. unfold first_budget in Hb. lia.
Qed.
End First.

Lemma union_values_lookup (fs : sets) k X : fs !! k = Some X → X ⊆ union_values fs.
Proof.
  intros H x Hx. unfold union_values. apply elem_of_union_list. exists X. split; [|done].
  apply list_elem_of_fmap. exists (k, X). split; [done|]. by apply elem_of_map_to_list.
Qed.

Section Follow.
Variables (g : grammar_dict) (first_sets : sets) (start_symbol : string).
Hypothesis first_covers : ∀ k, k ∈ keys g → is_Some (first_sets !! k).
Local Abbreviation K := (keys g).
Local Abbreviation U := (follow_universe g first_sets).
Local Abbreviation mu := (total_size (keys g)).
Local Abbreviation inv := (follow_inv g first_sets start_symbol).

Lemma sequence_walk_ok sequence result :
  (∀ x, x ∈ sequence → x ∈ first_universe g) → result ⊆ U →
  ∃ X, Expt4.sequence_walk g first_sets sequence result = Ok X ∧ X ⊆ U.
Proof.
  revert result. induction sequence as [|x l IH]; intros result Hs Hr; simpl.
  { eexists; split; [done|]. unfold follow_universe, first_universe in *. set_solver. }
  assert (Hx : x ∈ first_universe g) by (apply Hs; left).
  assert (Hl : ∀ y, y ∈ l → y ∈ first_universe g) by (intros y Hy; apply Hs; by right).
  case_decide.
  { apply IH; [done|]. unfold follow_universe, first_universe in *. set_solver. }
  unfold Expt4.is_nonterminal. destruct (dict_mem x g) eqn:E.
  - apply dict_mem_true in E. destruct (first_covers _ E) as [X HX].
    rewrite (getitem_ok _ _ _ HX). cbn [mbind res_bind].
    pose proof (union_values_lookup _ _ _ HX).
    assert (result ∪ X ∖ {[Expt4.EPSILON]} ⊆ U).
    { unfold follow_universe in *. set_solver. }
    case_decide; [by apply IH|]. eexists; split; done.
  - cbn [mbind res_bind].
    assert (result ∪ {[x]} ∖ {[Expt4.EPSILON]} ⊆ U).
    { unfold follow_universe in *. set_solver. }
    case_decide; [by apply IH|]. eexists; split; done.
Qed.

Lemma first_of_sequence_ok sequence :
  (∀ x, x ∈ sequence → x ∈ first_universe g) →
  ∃ X, Expt4.first_of_sequence sequence first_sets g = Ok X ∧ X ⊆ U.
Proof.
  intros Hs. destruct sequence as [|x l].
  - eexists; split; [done|]. unfold follow_universe, first_universe. set_solver.
  - apply sequence_walk_ok; [done|set_solver].
Qed.

Lemma update_set_advances fs key additions (c : bool) :
  inv fs → key ∈ K → additions ⊆ U →
  ∃ fs' grew, Expt4.update_set fs key additions = Ok (fs', grew) ∧
    inv fs' ∧ mu fs ≤ mu fs' ∧ (grew = true → mu fs < mu fs').
Proof.
  intros (Hk & Hu & (S0 & HS0 & Hend)) Hkey Hadd. unfold Expt4.update_set.
  destruct (Hk key Hkey) as [X HX]. rewrite (getitem_ok _ _ _ HX). cbn [mbind res_bind].
  eexists _, _. split; [done|]. repeat split.
  - intros j Hj. destruct (decide (key = j)) as [->|]; [rewrite lookup_insert_eq; eauto|].
    rewrite lookup_insert_ne by done. auto.
  - intros j Y. destruct (decide (key = j)) as [->|].
    + rewrite lookup_insert_eq. intros [= <-]. specialize (Hu _ _ HX).  set_solver.
    + rewrite lookup_insert_ne by done. apply Hu.
  - destruct (decide (key = start_symbol)) as [->|].
    + rewrite lookup_insert_eq. eexists; split; [done|]. rewrite HX in HS0. set_solver.
    + rewrite lookup_insert_ne by done. eauto.
  - eapply total_size_insert_le; [done|set_solver].
  - intros Hg. apply bool_decide_eq_true_1 in Hg.
    eapply total_size_insert_lt; [done..|set_solver|].
    assert (size X ≤ size (X ∪ additions)) by (apply subseteq_size; set_solver). lia.
Qed.

Lemma follow_walk_advances head prod fs c :
  head ∈ K → (∀ x, x ∈ prod → x ∈ first_universe g) → inv fs →
  advances inv mu fs c (Expt4.follow_walk g first_sets head prod (fs, c)).
Proof.
  intros Hhead. revert fs c. induction prod as [|x rest IH]; intros fs c Hp Hi.
  { by apply advances_refl. }
  assert (Hrest : ∀ y, y ∈ rest → y ∈ first_universe g) by (intros y Hy; apply Hp; by right).
  cbn [Expt4.follow_walk]. unfold Expt4.is_nonterminal at 1.
  destruct (dict_mem x g) eqn:E; [|by apply IH].
  apply dict_mem_true in E.
  destruct (first_of_sequence_ok rest Hrest) as (la & -> & Hla). cbn [mbind res_bind].
  destruct (update_set_advances fs x (la ∖ {[Expt4.EPSILON]}) c Hi E)
    as (fs1 & grew1 & -> & Hi1 & Hle1 & Hg1); [set_solver|]. cbn [mbind res_bind].
  apply (advances_trans inv mu fs c fs1 (if grew1 then true else c)); [done| |].
  { destruct grew1; auto. }
  generalize (if grew1 then true else c). intros c1.
  destruct (bool_decide (rest = []) || bool_decide (Expt4.EPSILON ∈ la)); [|by apply IH].
  destruct (proj1 Hi1 head Hhead) as [FH HFH]. rewrite (getitem_ok _ _ _ HFH).
  cbn [mbind res_bind].
  destruct (update_set_advances fs1 x FH c1 Hi1 E)
    as (fs2 & grew2 & -> & Hi2 & Hle2 & Hg2); [by eapply Hi1|]. cbn [mbind res_bind].
  apply (advances_trans inv mu fs1 c1 fs2 (if grew2 then true else c1)); [done| |by apply IH].
  destruct grew2; auto.
Qed.

Lemma follow_pass_advances fs :
  inv fs → advances inv mu fs false (Expt4.follow_pass g first_sets fs).
Proof.
  intros Hi. unfold Expt4.follow_pass.
  apply for_each_advances; [|done].
  intros [head prods] s c Hin Hs.
  apply for_each_advances; [|done].
  intros prod s' c' Hprod Hs'. apply follow_walk_advances; [| |done].
  - by eapply keys_elem.
  - intros x Hx. unfold first_universe. apply elem_of_union_r.
    by eapply symbols_of_elem.
Qed.

Lemma compute_follow_sets_total_aux :
  start_symbol ∈ K →
  ∃ fs, inv fs ∧
    ∀ budget, follow_budget g first_sets ≤ budget →
      Expt4.compute_follow_sets budget g first_sets start_symbol = Ok fs.
Proof.
  intros Hstart. unfold Expt4.compute_follow_sets.
  destruct (empty_sets_inv g) as [Hk Hu].
  destruct (Hk _ Hstart) as [X HX]. rewrite (getitem_ok _ _ _ HX).
  destruct (while_changed_total inv mu (length K * size U)) with
    (pass := Expt4.follow_pass g first_sets)
    (s := <[start_symbol := X ∪ {["$"]}]> (Expt4.empty_sets g)) as (fs & Hi & _ & Hrun).
  - intros s (_ & Hu' & _). apply total_size_bound. eauto.
  - apply follow_pass_advances.
  - repeat split.
    + intros j Hj. destruct (decide (start_symbol = j)) as [->|];
        [rewrite lookup_insert_eq; eauto|].
      rewrite lookup_insert_ne by done. auto.
    + intros j Y. destruct (decide (start_symbol = j)) as [->|].
      * rewrite lookup_insert_eq. intros [= <-]. specialize (Hu _ _ HX).
        unfold follow_universe. set_solver.
      * rewrite lookup_insert_ne by done. intros HY. specialize (Hu _ _ HY).
        unfold follow_universe. set_solver.
    + rewrite lookup_insert_eq. eexists; split; [done|]. set_solver.
  - exists fs. split; [done|]. intros b Hb. cbn [mbind res_bind]. apply Hrun.
    unfold follow_budget in Hb. lia.
Qed.
End Follow.

(** ** expt 6/6a.py *)

Import Expt6.

Lemma dict_get_None {V} (d : dict V) k : k ∉ keys d → dict_get k d = None.
Proof.
  induction d as [|[k' v] d IH]; simpl; [done|]. intros Hk.
  case_decide; [subst; exfalso; apply Hk; left|]. apply IH. intros ?. apply Hk. by right.
Qed.

Section Follow6.
Variables (G0 : globals) (start_symbol : string).
Hypothesis heads_non_terminals : ∀ k, k ∈ keys (grammar G0) → k ∈ non_terminals G0.
Local Abbreviation U := (follow_universe6 G0).
Local Abbreviation mu := (follow_size6 G0).
Local Abbreviation inv := (follow_inv6 G0 start_symbol).

Lemma compute_first_covered depth sym G :
  inv G →
  ∃ X G', compute_first (S depth) sym G = Ok (X, G') ∧ inv G' ∧ X ⊆ U ∧
          follow_sets G' = follow_sets G.
Proof.
  intros Hi. cbn [compute_first]. destruct (first_sets G !! sym) as [X|] eqn:E.
  { exists X, G. split_and!; [done..| |done]. by eapply inv_memo_sub. }
  assert (Hnk : sym ∉ keys (grammar G)).
  { rewrite (inv_grammar _ _ _ Hi). intros Hk.
    destruct (inv_memo _ _ _ Hi _ Hk) as [? ?]. congruence. }
  assert (∃ X, (if decide (sym ∈ terminals G) then Ok ({[sym]}, G)
                else if decide (sym = EPSILON) then Ok ({[EPSILON]}, G)
                else match dict_get sym (grammar G) with
                     | Some alternatives =>
                         for_each alternatives (first_production (compute_first depth)) (∅, G)
                     | None => Ok (∅, G)
                     end) = Ok (X, G) ∧ X ⊆ U) as (X & -> & HX).
  { case_decide.
    - eexists; split; [done|]. rewrite (inv_terminals _ _ _ Hi) in *.
      unfold follow_universe6. set_solver.
    - case_decide.
      + eexists; split; [done|]. unfold follow_universe6. set_solver.
      + rewrite dict_get_None by done. eexists; split; [done|]. set_solver. }
  cbn [mbind res_bind]. eexists _, _. split; [done|]. split; [|done].
  destruct Hi. split; simpl; try done.
  - intros k Hk. destruct (decide (sym = k)) as [->|]; [rewrite lookup_insert_eq; eauto|].
    rewrite lookup_insert_ne by done. auto.
  - intros k Y. destruct (decide (sym = k)) as [->|].
    + rewrite lookup_insert_eq. by intros [= <-].
    + rewrite lookup_insert_ne by done. eauto.
Qed.

Lemma sequence_walk_covered depth sequence result G :
  inv G → result ⊆ U →
  ∃ X G', sequence_walk (S depth) sequence result G = Ok (X, G') ∧ inv G' ∧ X ⊆ U ∧
          follow_sets G' = follow_sets G.
Proof.
  revert result G. induction sequence as [|x l IH]; intros result G Hi Hr.
  { eexists _, _. split; [done|]. split_and!; [done| |done].
    unfold follow_universe6 in *. set_solver. }
  cbn [sequence_walk].
  destruct (compute_first_covered depth x G Hi) as (X & G1 & -> & Hi1 & HX & Hf).
  cbn [mbind res_bind]. case_decide.
  - destruct (IH (result ∪ X ∖ {[EPSILON]}) G1 Hi1) as (Y & G2 & -> & Hi2 & HY & Hf2);
      [set_solver|].
    eexists _, _. split; [done|]. split_and!; [done..|congruence].
  - eexists _, _. split; [done|]. split_and!; [done|set_solver|done].
Qed.

Lemma compute_first_of_sequence_covered depth sequence G :
  inv G →
  ∃ X G', compute_first_of_sequence (S depth) sequence G = Ok (X, G') ∧ inv G' ∧ X ⊆ U ∧
          follow_sets G' = follow_sets G.
Proof.
  intros Hi. destruct sequence as [|x l].
  - eexists _, _. split; [done|]. split_and!; [done| |done].
    unfold follow_universe6. set_solver.
  - apply sequence_walk_covered; [done|set_solver].
Qed.

(** [follow_sets[B].update(additions)] on a state that satisfies the invariant. *)
Lemma update_follow_advances G B X additions :
  inv G → B ∈ non_terminals G0 → follow_sets G !! B = Some X → additions ⊆ U →
  let G' := with_follow_sets (<[B := X ∪ additions]> (follow_sets G)) G in
  inv G' ∧ mu G ≤ mu G' ∧ (additions ⊈ X → mu G < mu G').
Proof.
  intros Hi HB HX Ha G'. split; [|split].
  - destruct Hi. split; simpl; try done.
    + intros k Hk. destruct (decide (B = k)) as [->|]; [rewrite lookup_insert_eq; eauto|].
      rewrite lookup_insert_ne by done. auto.
    + intros k Y Hk. destruct (decide (B = k)) as [->|].
      * rewrite lookup_insert_eq. intros [= <-]. specialize (inv_follow_sub0 _ _ Hk HX).
        set_solver.
      * rewrite lookup_insert_ne by done. eauto.
    + destruct inv_start0 as (S0 & HS0 & Hend).
      destruct (decide (B = start_symbol)) as [->|].
      * rewrite lookup_insert_eq. eexists; split; [done|]. rewrite HX in HS0. set_solver.
      * rewrite lookup_insert_ne by done. eauto.
  - unfold follow_size6. simpl. eapply total_size_insert_le; [done|set_solver].
  - intros Hns. unfold follow_size6. simpl. eapply total_size_insert_lt; [|done|set_solver|].
    + by apply elem_of_elements.
    + apply subset_size. set_solver.
Qed.

Lemma follow_walk_advances6 depth A prod G c :
  A ∈ keys (grammar G0) → inv G →
  advances inv mu G c (follow_walk (S depth) A prod (G, c)).
Proof.
  intros HA. revert G c. induction prod as [|B beta IH]; intros G c Hi.
  { by apply advances_refl. }
  cbn [follow_walk]. case_decide as HB; [|by apply IH].
  rewrite (inv_non_terminals _ _ _ Hi) in HB.
  destruct (compute_first_of_sequence_covered depth beta G Hi)
    as (fb & G1 & -> & Hi1 & Hfb & Hf1). cbn [mbind res_bind].
  destruct (inv_follow _ _ _ Hi1 B HB) as [FB HFB]. rewrite (getitem_ok _ _ _ HFB).
  cbn [mbind res_bind].
  assert (Hmu1 : mu G = mu G1) by (unfold follow_size6; by rewrite Hf1).
  destruct (update_follow_advances G1 B FB (fb ∖ {[EPSILON]}) Hi1 HB HFB)
    as (Hi2 & Hle2 & Hlt2); [set_solver|].
  set (st := if decide (fb ∖ {[EPSILON]} ⊆ FB) then (G1, c)
             else (with_follow_sets (<[B := FB ∪ fb ∖ {[EPSILON]}]> (follow_sets G1)) G1, true)).
  assert (Hst : inv st.1 ∧ mu G ≤ mu st.1 ∧ (st.2 = true → c = true ∨ mu G < mu st.1)).
  { unfold st. case_decide; simpl; [rewrite Hmu1; auto|].
    split; [done|]. split; [lia|]. intros _. right. rewrite Hmu1. by apply Hlt2. }
  destruct st as [G2 c2]. simpl in Hst. destruct Hst as (Hi2' & Hle2' & Hc2).
  apply (advances_trans inv mu G c G2 c2); [done..|].
  destruct (bool_decide (beta = []) || bool_decide (EPSILON ∈ fb)); [|by apply IH].
  destruct (inv_follow _ _ _ Hi2' A (heads_non_terminals _ HA)) as [FA HFA].
  rewrite (getitem_ok _ _ _ HFA). cbn [mbind res_bind].
  destruct (inv_follow _ _ _ Hi2' B HB) as [FB' HFB']. rewrite (getitem_ok _ _ _ HFB').
  cbn [mbind res_bind].
  case_decide; [by apply IH|].
  destruct (update_follow_advances G2 B FB' FA Hi2' HB HFB') as (Hi3 & Hle3 & Hlt3).
  { eapply inv_follow_sub; [done| |done]. by apply heads_non_terminals. }
  eapply advances_trans; [| |by apply IH]; [done|]. intros _. right. by apply Hlt3.
Qed.

Lemma follow_pass_advances6 depth G :
  inv G → advances inv mu G false (follow_pass (S depth) G).
Proof.
  intros Hi. unfold follow_pass. rewrite (inv_grammar _ _ _ Hi).
  apply for_each_advances; [|done].
  intros [A prods] s c Hin Hs.
  apply for_each_advances; [|done].
  intros prod s' c' Hprod Hs'. apply follow_walk_advances6; [|done].
  by eapply keys_elem.
Qed.

Lemma follow_loop_total6 depth :
  inv G0 →
  ∃ G', inv G' ∧
    ∀ budget, follow_budget6 G0 ≤ budget →
      while_changed budget (follow_pass (S depth)) G0 = Ok G'.
Proof.
  intros Hi0.
  destruct (while_changed_total inv mu (size (non_terminals G0) * size U)) with
    (pass := follow_pass (S depth)) (s := G0) as (G' & Hi & _ & Hrun).
  - intros s Hs. unfold follow_size6. etrans; [apply total_size_bound with (U := U)|].
    + intros k X Hk. apply elem_of_elements in Hk. by eapply inv_follow_sub.
    + done.
  - apply follow_pass_advances6.
  - done.
  - exists G'. split; [done|]. intros b Hb. apply Hrun. unfold follow_budget6 in Hb.
    lia.
Qed.
End Follow6.

Lemma reset_follow_lookup (fs : sets) (l : list string) k :
  foldl (λ fs nt, <[nt := ∅]> fs) fs l !! k = if decide (k ∈ l) then Some ∅ else fs !! k.
Proof.
  revert fs. induction l as [|x l IH]; intros fs; cbn [foldl].
  { rewrite decide_False; [done|]. apply not_elem_of_nil. }
  rewrite IH. destruct (decide (k ∈ l)).
  - rewrite decide_True; [done|by right].
  - destruct (decide (x = k)) as [->|].
    + rewrite lookup_insert_eq. rewrite decide_True; [done|by left].
    + rewrite lookup_insert_ne by done. rewrite decide_False; [done|].
      intros [?|?]%elem_of_cons; congruence.
Qed.

Lemma compute_all_follow_sets_total depth start_symbol G :
  start_symbol ∈ non_terminals G →
  (∀ k, k ∈ keys (grammar G) → k ∈ non_terminals G ∧ is_Some (first_sets G !! k)) →
  ∃ G' X,
    (∀ budget, follow_budget6 G ≤ budget →
       compute_all_follow_sets budget (S depth) start_symbol G = Ok G') ∧
    follow_sets G' !! start_symbol = Some X ∧ END_MARKER ∈ X.
Proof.
  intros Hstart Hheads. unfold compute_all_follow_sets.
  assert (Hreset : ∀ k, k ∈ non_terminals G →
            follow_sets (reset_follow_sets G) !! k = Some ∅).
  { intros k Hk. unfold reset_follow_sets. simpl. rewrite reset_follow_lookup.
    rewrite decide_True; [done|by apply elem_of_elements]. }
  rewrite (getitem_ok _ _ _ (Hreset _ Hstart)). cbn [mbind res_bind].
  set (G0 := with_follow_sets _ _).
  destruct (follow_loop_total6 G0 start_symbol) with (depth := depth) as (G' & Hi & Hrun).
  - intros k Hk. by apply Hheads.
  - split; simpl; try done.
    + intros k Hk. by apply Hheads.
    + intros k X HX. unfold follow_universe6. simpl.
      pose proof (union_values_lookup _ _ _ HX). set_solver.
    + intros k Hk. destruct (decide (start_symbol = k)) as [->|];
        [rewrite lookup_insert_eq; eauto|].
      rewrite lookup_insert_ne by done. rewrite Hreset by done. eauto.
    + intros k X Hk. destruct (decide (start_symbol = k)) as [->|].
      * rewrite lookup_insert_eq. intros [= <-]. unfold follow_universe6. set_solver.
      * rewrite lookup_insert_ne by done. rewrite Hreset by done. intros [= <-]. set_solver.
    + rewrite lookup_insert_eq. eexists; split; [done|]. set_solver.
  - destruct (inv_start _ _ _ Hi) as (X & HX & Hend).
    exists G', X. split; [|done]. intros b Hb. apply Hrun. apply Hb.
Qed.

Lemma bind_inv {A B} (m : res A) (f : A → res B) b :
  m ≫= f = Ok b → ∃ a, m = Ok a ∧ f a = Ok b.
Proof. destruct m; [eauto|done]. Qed.

Lemma for_each_inv_step {A S} (body : A → S → res S) (P : S → Prop) l :
  (∀ x s s', x ∈ l → P s → body x s = Ok s' → P s') →
  ∀ s s', P s → for_each l body s = Ok s' → P s'.
Proof.
  induction l as [|x l IH]; intros Hb s s' Hs; simpl.
  - by intros [= <-].
  - intros (s1 & H1 & H2)%bind_inv. eapply IH; [| |done].
    + intros y t t' Hy. apply Hb. by right.
    + eapply Hb; [left|done..].
Qed.





Lemma compute_first_left_recursive depth G :
  grammar G = grammar left_recursive → terminals G = terminals left_recursive →
  first_sets G !! "A" = None →
  compute_first depth "A" G = Raise RecursionError.
Proof.
  revert G. induction depth as [|d IH]; intros G Hg Ht Hm; [done|].
  cbn [compute_first]. rewrite Hm, Hg, Ht.
  rewrite decide_False by (vm_compute; set_solver).
  rewrite decide_False by done.
  replace (dict_get "A" (grammar left_recursive)) with (Some [["A"; "a"]; ["b"]])
    by (vm_compute; reflexivity).
  assert (first_production (compute_first d) ["A"; "a"] (∅, G) = Raise RecursionError)
    as Hfirst.
  { unfold first_production. destruct (decide (["A"; "a"] = [EPSILON])) as [[=]|_].
    cbn [first_walk fst snd]. by rewrite IH. }
  cbn [for_each]. by rewrite Hfirst.
Qed.

Lemma step_nonterminal G tokens stack X a input_pointer table_row :
  X ∈ non_terminals G → X ∉ terminals G → X ≠ END_MARKER →
  tokens !! input_pointer = Some a → parsing_table G !! X = Some table_row →
  step G tokens (stack ++ [X]) X input_pointer =
    match table_row !! a with
    | Some (Some prod) =>
        Ok (Row (stack ++ [X]) (drop input_pointer tokens) (Apply X prod),
            inr (if decide (prod = [EPSILON]) then stack else stack ++ reverse prod,
                 input_pointer))
    | _ => Ok (Row (stack ++ [X]) (drop input_pointer tokens) (NoTableEntry X a), inl false)
    end.
Proof.
  intros HX HnT HnE Ha Hrow. unfold step. rewrite Ha.
  rewrite (bool_decide_eq_false_2 _ HnT), (bool_decide_eq_false_2 _ HnE). cbn [orb].
  rewrite decide_True by done. rewrite (getitem_ok _ _ _ Hrow). cbn [mbind res_bind].
  rewrite removelast_last. destruct (table_row !! a) as [[prod|]|]; done.
Qed.

Lemma step_shape G tokens stack top ip r next :
  step G tokens stack top ip = Ok (r, next) →
  ip < length tokens ∧
  match next with
  | inl verdict => verdict = true ↔ row_action r = Match END_MARKER
  | inr (_, ip') =>
      row_action r ≠ Match END_MARKER ∧
      (if is_match r then ip' = S ip else ip' = ip)
  end.
Proof.
  unfold step. destruct (tokens !! ip) as [a|] eqn:Ha; [|done].
  split; [by eapply lookup_lt_Some|].
  destruct (bool_decide (top ∈ terminals G) || bool_decide (top = END_MARKER)).
  - case_decide as Heq.
    + destruct (bool_decide (top = END_MARKER) && bool_decide (a = END_MARKER)) eqn:E.
      * injection H as <- <-. simpl. apply andb_true_iff in E as [_ E%bool_decide_eq_true_1].
        by subst.
      * injection H as <- <-. simpl. split; [|done]. intros [= ->]. subst top.
        by rewrite !bool_decide_eq_true_2 in E.
    + injection H as <- <-. simpl. split; done.
  - case_decide.
    + apply bind_inv in H as (trow & _ & H).
      destruct (trow !! a) as [[prod|]|]; injection H as <- <-; simpl; try done.
    + injection H as <- <-. simpl. split; done.
Qed.

Lemma count_matches_cons r rows :
  count_matches (r :: rows) = (if is_match r then 1 else 0) + count_matches rows.
Proof.
  unfold count_matches. rewrite filter_cons. destruct (is_match r); simpl; [|done].
  done.
Qed.


(** On [hash_globals] the stack only grows. *)
Lemma parse_loop_hash budget n printed :
  parse_loop budget hash_globals ["$"] ("$" :: replicate (S n) "#") 0 printed
  = Raise LoopBudget.
Proof.
  revert n printed. induction budget as [|b IH]; intros n printed; [done|].
  cbn [parse_loop].
  replace ("$" :: replicate (S n) "#") with (("$" :: replicate n "#") ++ ["#"]).
  2:{ by rewrite (replicate_S_end n). }
  rewrite last_snoc.
  rewrite (step_nonterminal hash_globals ["$"] ("$" :: replicate n "#") "#" "$" 0
             {["$" := Some ["#"; "#"]]}); [|vm_compute; set_solver|set_solver|done|done|done].
  replace ({["$" := Some ["#"; "#"]]} !! "$") with (Some (Some ["#"; "#"]))
    by (vm_compute; reflexivity).
  cbn [mbind res_bind]. rewrite decide_False by (intros [=]).
  replace (("$" :: replicate n "#") ++ reverse ["#"; "#"]) with ("$" :: replicate (S (S n)) "#").
  2:{ rewrite (replicate_S_end (S n)), (replicate_S_end n), <- !app_assoc. done. }
  apply IH.
Qed.

Lemma starts_upper_ok s : s ≠ "" → starts_upper s = Ok (upper s).
Proof. by destruct s. Qed.

Lemma for_each_app {A S} (l1 l2 : list A) (body : A → S → res S) s :
  for_each (l1 ++ l2) body s = for_each l1 body s ≫= for_each l2 body.
Proof.
  revert s. induction l1 as [|x l1 IH]; intros s; simpl; [done|].
  destruct (body x s); simpl; [apply IH|done].
Qed.

Lemma for_each_concat {A S} (ls : list (list A)) (body : A → S → res S) s :
  for_each (concat ls) body s = for_each ls (λ l, for_each l body) s.
Proof.
  revert s. induction ls as [|l ls IH]; intros s; simpl; [done|].
  rewrite for_each_app. destruct (for_each l body s); simpl; [apply IH|done].
Qed.

Lemma for_each_ext {A S} (l : list A) (f g : A → S → res S) s :
  (∀ x s, x ∈ l → f x s = g x s) → for_each l f s = for_each l g s.
Proof.
  revert s. induction l as [|x l IH]; intros s H; simpl; [done|].
  rewrite H by left. destruct (g x s); simpl; [|done]. apply IH. intros. apply H. by right.
Qed.

(** *** The first pass: heads and terminals *)

Lemma note_terminals_spec symbols G :
  (∀ x, x ∈ symbols → x ≠ "") →
  ∃ G', for_each symbols note_terminal G = Ok G' ∧
    grammar G' = grammar G ∧ non_terminals G' = non_terminals G ∧
    ∀ x, x ∈ terminals G' ↔
         x ∈ terminals G ∨ (x ∈ symbols ∧ x ≠ EPSILON ∧ upper x = false).
Proof.
  revert G. induction symbols as [|s l IH]; intros G Hne.
  { exists G. split_and!; [done..|]. intros x. rewrite elem_of_nil. tauto. }
  cbn [for_each].
  assert (note_terminal s G =
            Ok (if bool_decide (s ≠ EPSILON) && negb (upper s)
                then with_terminals (terminals G ∪ {[s]}) G else G)) as ->.
  { unfold note_terminal. by rewrite starts_upper_ok by (apply Hne; left). }
  cbn [mbind res_bind].
  set (G1 := if bool_decide (s ≠ EPSILON) && negb (upper s)
             then with_terminals (terminals G ∪ {[s]}) G else G).
  destruct (IH G1 (λ x Hx, Hne x (list_elem_of_further _ _ _ Hx))) as (G' & -> & Hg & Hn & Ht).
  exists G'. split; [done|]. unfold G1 in *. clear G1.
  destruct (bool_decide (s ≠ EPSILON) && negb (upper s)) eqn:E; simpl in *.
  - apply andb_true_iff in E as [E1%bool_decide_eq_true_1 E2%negb_true_iff].
    split_and!; [done..|]. intros x. rewrite Ht, elem_of_union, elem_of_singleton, elem_of_cons.
    split; [|naive_solver]. intros [[?| ->]|?]; tauto.
  - split_and!; [done..|]. intros x. rewrite Ht, elem_of_cons.
    split; [tauto|]. intros [?|[[ ->|?] [? ?]]]; [tauto| |tauto].
    apply andb_false_iff in E as [E%bool_decide_eq_false_1|E%negb_false_iff]; [done|congruence].
Qed.

Lemma symbols_dict_set k (v : list production) (g : grammar_dict) (extra : list string) x :
  (∀ y, y ∈ concat v ↔ y ∈ concat (default [] (dict_get k g)) ∨ y ∈ extra) →
  x ∈ concat (concat (dict_set k v g).*2) ↔ x ∈ concat (concat g.*2) ∨ x ∈ extra.
Proof.
  intros Hv. induction g as [|[k' v'] g IH]; simpl in *.
  { rewrite app_nil_r, Hv, !elem_of_nil. tauto. }
  case_decide; simpl.
  - rewrite !concat_app, !elem_of_app, Hv. simpl. tauto.
  - rewrite !concat_app, !elem_of_app. fold (@fmap list _ _ _ (@snd string (list production)) (dict_set k v g)).
    rewrite IH by done. tauto.
Qed.

Lemma keys_dict_set {V} k (v : V) (g : dict V) x :
  x ∈ keys (dict_set k v g) ↔ x ∈ keys g ∨ x = k.
Proof.
  unfold keys. induction g as [|[k' v'] g IH]; simpl.
  { rewrite elem_of_cons, elem_of_nil. tauto. }
  case_decide; simpl; rewrite !elem_of_cons; [subst; tauto|]. rewrite IH. tauto.
Qed.

Lemma dict_get_not_mem {V} k (g : dict V) : dict_mem k g = false → dict_get k g = None.
Proof. intros H. apply dict_get_None. by apply bool_decide_eq_false_1 in H. Qed.

Lemma add_production_spec (head : string) (symbols : production) G :
  (∀ x, x ∈ symbols → x ≠ "") →
  ∃ G', add_production head symbols G = Ok G' ∧
    non_terminals G' = non_terminals G ∧
    (∀ x, x ∈ concat (concat (grammar G').*2) ↔ x ∈ concat (concat (grammar G).*2) ∨ x ∈ symbols) ∧
    (∀ x, x ∈ terminals G' ↔
          x ∈ terminals G ∨ (x ∈ symbols ∧ x ≠ EPSILON ∧ upper x = false)).
Proof.
  intros Hne. unfold add_production.
  edestruct (note_terminals_spec symbols) as (G' & -> & Hg & Hn & Ht); [done|].
  exists G'. split; [done|]. rewrite Hg, Hn. split_and!; [done| |done].
  intros x. simpl. apply symbols_dict_set. intros y.
  rewrite concat_app, elem_of_app. simpl. by rewrite app_nil_r.
Qed.

Lemma add_productions_spec (head : string) (alternatives : list production) G :
  (∀ x, x ∈ concat alternatives → x ≠ "") →
  ∃ G', for_each alternatives (add_production head) G = Ok G' ∧
    non_terminals G' = non_terminals G ∧
    (∀ x, x ∈ concat (concat (grammar G').*2) ↔
          x ∈ concat (concat (grammar G).*2) ∨ x ∈ concat alternatives) ∧
    (∀ x, x ∈ terminals G' ↔
          x ∈ terminals G ∨ (x ∈ concat alternatives ∧ x ≠ EPSILON ∧ upper x = false)).
Proof.
  revert G. induction alternatives as [|symbols l IH]; intros G Hne.
  { exists G. split_and!; [done..| |]; intros x; simpl; rewrite elem_of_nil; tauto. }
  cbn [for_each]. simpl in Hne.
  destruct (add_production_spec head symbols G) as (G1 & -> & Hn1 & Hs1 & Ht1).
  { intros x Hx. apply Hne, elem_of_app. by left. }
  cbn [mbind res_bind].
  destruct (IH G1) as (G2 & -> & Hn2 & Hs2 & Ht2).
  { intros x Hx. apply Hne, elem_of_app. by right. }
  exists G2. split_and!; [done|congruence| |]; intros x; simpl; rewrite elem_of_app.
  - rewrite Hs2, Hs1. tauto.
  - rewrite Ht2, Ht1. tauto.
Qed.

Lemma add_line_spec (head : string) (alternatives : list production) G start_symbol :
  (∀ x, x ∈ concat alternatives → x ≠ "") →
  ∃ G' start', add_line (head, alternatives) (G, start_symbol) = Ok (G', start') ∧
    non_terminals G' = non_terminals G ∪ {[head]} ∧
    (∀ x, x ∈ concat (concat (grammar G').*2) ↔
          x ∈ concat (concat (grammar G).*2) ∨ x ∈ concat alternatives) ∧
    (∀ x, x ∈ terminals G' ↔
          x ∈ terminals G ∨ (x ∈ concat alternatives ∧ x ≠ EPSILON ∧ upper x = false)).
Proof.
  intros Hne.
  set (Ga := with_non_terminals (non_terminals G ∪ {[head]}) G).
  set (Gb := if dict_mem head (grammar Ga) then Ga
             else with_grammar (dict_set head [] (grammar Ga)) Ga).
  change (add_line (head, alternatives) (G, start_symbol)) with
    (for_each alternatives (add_production head) Gb ≫=
       λ G', Ok (G', match start_symbol with None => Some head | s => s end)).
  assert (non_terminals Gb = non_terminals G ∪ {[head]} ∧ terminals Gb = terminals G ∧
          ∀ x, x ∈ concat (concat (grammar Gb).*2) ↔ x ∈ concat (concat (grammar G).*2))
    as (Hnb & Htb & Hsb).
  { unfold Gb. destruct (dict_mem head (grammar Ga)) eqn:E; [done|].
    change (grammar Ga) with (grammar G) in E.
    split_and!; [done..|]. intros x. simpl.
    rewrite (symbols_dict_set head [] (grammar G) [] x); [rewrite elem_of_nil; tauto|].
    intros y. rewrite (dict_get_not_mem _ _ E). simpl. tauto. }
  destruct (add_productions_spec head alternatives Gb Hne) as (G' & -> & Hn & Hs & Ht).
  cbn [mbind res_bind]. eexists _, _. split; [done|].
  split_and!; [congruence| |]; intros x.
  - by rewrite Hs, Hsb.
  - by rewrite Ht, Htb.
Qed.

Lemma add_lines_spec entries G start_symbol :
  (∀ x, x ∈ body_symbols entries → x ≠ "") →
  ∃ G' start', for_each entries add_line (G, start_symbol) = Ok (G', start') ∧
    (∀ x, x ∈ non_terminals G' ↔ x ∈ non_terminals G ∨ x ∈ heads entries) ∧
    (∀ x, x ∈ concat (concat (grammar G').*2) ↔
          x ∈ concat (concat (grammar G).*2) ∨ x ∈ body_symbols entries) ∧
    (∀ x, x ∈ terminals G' ↔
          x ∈ terminals G ∨ (x ∈ body_symbols entries ∧ x ≠ EPSILON ∧ upper x = false)).
Proof.
  revert G start_symbol. unfold body_symbols, heads.
  induction entries as [|[head alternatives] l IH]; intros G start_symbol Hne.
  { eexists _, _. split; [done|]. split_and!; intros x; simpl; rewrite elem_of_nil; tauto. }
  cbn [for_each]. simpl in Hne.
  destruct (add_line_spec head alternatives G start_symbol) as (G1 & st1 & -> & Hn1 & Hs1 & Ht1).
  { intros x Hx. apply Hne. rewrite concat_app, elem_of_app. by left. }
  cbn [mbind res_bind].
  destruct (IH G1 st1) as (G2 & st2 & -> & Hn2 & Hs2 & Ht2).
  { intros x Hx. apply Hne. rewrite concat_app, elem_of_app. by right. }
  eexists _, _. split; [done|]. split_and!; intros x; simpl.
  - rewrite Hn2, Hn1, elem_of_cons, elem_of_union, elem_of_singleton. tauto.
  - rewrite Hs2, Hs1, concat_app, elem_of_app. tauto.
  - rewrite Ht2, Ht1, concat_app, elem_of_app. tauto.
Qed.

(** *** The second pass: capitalised symbols that are not heads *)

Lemma note_non_terminals_spec symbols (nts all : gset string) :
  (∀ x, x ∈ symbols → x ≠ "") →
  ∃ nts' all', for_each symbols note_non_terminal (nts, all) = Ok (nts', all') ∧
    (∀ x, x ∈ nts' ↔ x ∈ nts ∨ (x ∈ symbols ∧ upper x = true ∧ x ∉ all)) ∧
    (∀ x, x ∈ all' ↔ x ∈ all ∨ (x ∈ symbols ∧ upper x = true)).
Proof.
  revert nts all. induction symbols as [|s l IH]; intros nts all Hne.
  { eexists _, _. split; [done|]. split; intros x; rewrite elem_of_nil; tauto. }
  cbn [for_each].
  assert (note_non_terminal s (nts, all) =
            Ok (if upper s && bool_decide (s ∉ all)
                then (nts ∪ {[s]}, all ∪ {[s]}) else (nts, all))) as ->.
  { unfold note_non_terminal. by rewrite starts_upper_ok by (apply Hne; left). }
  cbn [mbind res_bind].
  destruct (upper s && bool_decide (s ∉ all)) eqn:E.
  - apply andb_true_iff in E as [E1 E2%bool_decide_eq_true_1].
    destruct (IH (nts ∪ {[s]}) (all ∪ {[s]})) as (nts' & all' & -> & Hn & Ha).
    { intros x Hx. apply Hne. by right. }
    eexists _, _. split; [done|]. split; intros x.
    + rewrite Hn, elem_of_cons, !elem_of_union, !elem_of_singleton.
      destruct (decide (x = s)) as [->|]; [tauto|]. tauto.
    + rewrite Ha, elem_of_cons, !elem_of_union, !elem_of_singleton.
      destruct (decide (x = s)) as [->|]; [tauto|]. tauto.
  - destruct (IH nts all) as (nts' & all' & -> & Hn & Ha).
    { intros x Hx. apply Hne. by right. }
    eexists _, _. split; [done|].
    assert (upper s = true → s ∈ all).
    { intros Hu. rewrite Hu in E. simpl in E. apply bool_decide_eq_false_1 in E.
      by apply dec_stable. }
    split; intros x.
    + rewrite Hn, elem_of_cons. destruct (decide (x = s)) as [->|]; [tauto|]. tauto.
    + rewrite Ha, elem_of_cons. destruct (decide (x = s)) as [->|]; [tauto|]. tauto.
Qed.

Lemma for_each_fmap {A B S} (f : A → B) (l : list A) (body : B → S → res S) s :
  for_each (f <$> l) body s = for_each l (λ x, body (f x)) s.
Proof.
  revert s. induction l as [|x l IH]; intros s; simpl; [done|].
  destruct (body (f x) s); simpl; [apply IH|done].
Qed.

Lemma classify_rest_spec G :
  (∀ x, x ∈ concat (concat (grammar G).*2) → x ≠ "") →
  ∃ G', classify_rest G = Ok G' ∧ terminals G' = terminals G ∧ grammar G' = grammar G ∧
    ∀ x, x ∈ non_terminals G' ↔
         x ∈ non_terminals G ∨
         (x ∈ concat (concat (grammar G).*2) ∧ upper x = true ∧
          x ∉ terminals G ∪ non_terminals G ∪ {[EPSILON]}).
Proof.
  intros Hne. unfold classify_rest.
  destruct (note_non_terminals_spec (concat (concat (grammar G).*2)) (non_terminals G)
              (terminals G ∪ non_terminals G ∪ {[EPSILON]}) Hne) as (nts & all & Hrun & Hn & _).
  rewrite !for_each_concat, for_each_fmap in Hrun.
  erewrite for_each_ext; [rewrite Hrun|]; [|by intros [? ?]].
  cbn [mbind res_bind]. eexists. split; [done|]. split_and!; [done..|]. apply Hn.
Qed.

Lemma load_spec entries :
  (∀ x, x ∈ body_symbols entries → x ≠ "") →
  ∃ G start_symbol, load entries = Ok (G, start_symbol) ∧
    (∀ x, x ∈ non_terminals G ↔
          x ∈ heads entries ∨ (x ∈ body_symbols entries ∧ upper x = true)) ∧
    (∀ x, x ∈ terminals G ↔
          x ∈ body_symbols entries ∧ x ≠ EPSILON ∧ upper x = false).
Proof.
  intros Hne. unfold load.
  destruct (add_lines_spec entries initial None Hne) as (G1 & st & -> & Hn1 & Hs1 & Ht1).
  cbn [mbind res_bind].
  assert (Hs1' : ∀ x, x ∈ concat (concat (grammar G1).*2) ↔ x ∈ body_symbols entries).
  { intros x. rewrite Hs1. simpl. rewrite elem_of_nil. tauto. }
  destruct (classify_rest_spec G1) as (G2 & -> & Ht2 & _ & Hn2).
  { intros x Hx. apply Hne. by apply Hs1'. }
  cbn [mbind res_bind]. eexists _, _. split; [done|]. split; intros x.
  - rewrite Hn2, Hn1, Hs1', !elem_of_union, elem_of_singleton, Ht1, Hn1.
    change (non_terminals initial) with (∅ : gset string).
    change (terminals initial) with (∅ : gset string).
    rewrite !elem_of_empty.
    split; [tauto|]. intros [?|[Hb Hu]]; [tauto|].
    destruct (decide (x ∈ heads entries)); [tauto|]. right. split_and!; [done..|].
    intros [[[?|(_ & _ & ?)]|[?|?]]| ->]; [done|congruence|done..].
  - rewrite Ht2, Ht1. change (terminals initial) with (∅ : gset string).
    rewrite elem_of_empty. tauto.
Qed.

(** *** Leaving a loop by [return] *)

Lemma for_until_return {A S R} (l : list A) (body : A → S → res (flow S R)) s v s' :
  for_until l body s = Ok (Return v s') →
  ∃ l1 x l2 s1, l = l1 ++ x :: l2 ∧ for_until l1 body s = Ok (Continue s1) ∧
                body x s1 = Ok (Return v s').
Proof.
  revert s. induction l as [|x l IH]; intros s; simpl; [done|].
  intros (r & Hb & H)%bind_inv. destruct r as [s1|v1 s1].
  - destruct (IH _ H) as (l1 & y & l2 & s2 & -> & H1 & H2).
    exists (x :: l1), y, l2, s2. split; [done|]. simpl. rewrite Hb. simpl. done.
  - injection H as -> ->. exists [], x, l, s. done.
Qed.

Lemma place_return nt prod terminal G c G' :
  place nt prod terminal G = Ok (Return c G') →
  G' = G ∧ conflict_nt c = nt ∧ conflict_new c = prod ∧ conflict_terminal c = terminal ∧
  ∃ table_row, parsing_table G !! nt = Some table_row ∧
               table_row !! terminal = Some (Some (conflict_existing c)).
Proof.
  unfold place. intros (table_row & Hr & (cell & Hc & H)%bind_inv)%bind_inv.
  destruct cell as [existing|]; [|done]. injection H as <- <-.
  split_and!; [done..|]. exists table_row.
  unfold getitem in *. destruct (parsing_table G !! nt); [|done]. injection Hr as ->.
  destruct (table_row !! terminal); [|done]. by injection Hc as ->.
Qed.

Lemma places_return nt prod terminals G c G' :
  for_until terminals (place nt prod) G = Ok (Return c G') →
  conflict_nt c = nt ∧ conflict_new c = prod ∧
  ∃ table_row, parsing_table G' !! nt = Some table_row ∧
               table_row !! conflict_terminal c = Some (Some (conflict_existing c)).
Proof.
  intros (l1 & t & l2 & G1 & _ & _ & H)%for_until_return.
  apply place_return in H as (-> & ? & ? & <- & ?). done.
Qed.

Lemma fill_production_return depth nt prod G c G' :
  fill_production depth nt prod G = Ok (Return c G') →
  conflict_nt c = nt ∧ conflict_new c = prod ∧
  ∃ table_row, parsing_table G' !! nt = Some table_row ∧
               table_row !! conflict_terminal c = Some (Some (conflict_existing c)).
Proof.
  unfold fill_production. intros ([fp G1] & _ & (r & Hr & H)%bind_inv)%bind_inv.
  destruct r as [G2|c2 G2].
  - case_decide; [|done]. apply bind_inv in H as (fnt & _ & H).
    by apply places_return in H.
  - injection H as -> ->. by apply places_return in Hr.
Qed.

(** ** The claims *)

(** C1 (amended).  [construct_parsing_table] stops at the first conflict: when
    it returns [False], the productions before the conflicting one were all
    placed without a conflict, the conflict it printed names the nonterminal,
    the lookahead, the production found in the cell and the new one, and the
    table is left as it was at that moment, the cell still holding the
    existing production; what comes after in the grammar is not examined. *)
Theorem construct_parsing_table_stops_at_first_conflict
    (depth : nat) (G : globals) (c : conflict) (G' : globals)
    (H : construct_parsing_table depth G = Ok (Return c G')) :
  ∃ items1 prods1 prods2 items2 G1 G2,
    grammar G = items1 ++ (conflict_nt c, prods1 ++ conflict_new c :: prods2) :: items2 ∧
    for_until items1
      (λ '(nt, productions), for_until productions (fill_production depth nt))
      (reset_parsing_table G) = Ok (Continue G1) ∧
    for_until prods1 (fill_production depth (conflict_nt c)) G1 = Ok (Continue G2) ∧
    fill_production depth (conflict_nt c) (conflict_new c) G2 = Ok (Return c G') ∧
    ∃ table_row, parsing_table G' !! conflict_nt c = Some table_row ∧
                 table_row !! conflict_terminal c = Some (Some (conflict_existing c)).
Proof.
  unfold construct_parsing_table in H.
  apply for_until_return in H as (items1 & [nt prods] & items2 & G1 & Hg & H1 & H).
  apply for_until_return in H as (prods1 & prod & prods2 & G2 & -> & H2 & H).
  destruct (fill_production_return _ _ _ _ _ _ H) as (<- & <- & Hcell).
  exists items1, prods1, prods2, items2, G1, G2. done.
Qed.

Lemma stops_at_first_conflict_witness :
  construct_parsing_table 1000 two_conflicts_analysed
    = Ok (Return (Conflict "A" "a" ["a"] ["a"; "b"]) two_conflicts_left)
  ∧ ∃ items1 prods1 prods2 items2 G1 G2,
      grammar two_conflicts_analysed
        = items1 ++ ("A", prods1 ++ ["a"; "b"] :: prods2) :: items2 ∧
      for_until items1
        (λ '(nt, productions), for_until productions (fill_production 1000 nt))
        (reset_parsing_table two_conflicts_analysed) = Ok (Continue G1) ∧
      for_until prods1 (fill_production 1000 "A") G1 = Ok (Continue G2) ∧
      fill_production 1000 "A" ["a"; "b"] G2
        = Ok (Return (Conflict "A" "a" ["a"] ["a"; "b"]) two_conflicts_left) ∧
      ∃ table_row, parsing_table two_conflicts_left !! "A" = Some table_row ∧
                   table_row !! "a" = Some (Some ["a"]).
Proof.
  split; [vm_compute; reflexivity|].
  apply (construct_parsing_table_stops_at_first_conflict 1000 two_conflicts_analysed
           (Conflict "A" "a" ["a"] ["a"; "b"]) two_conflicts_left).
  vm_compute; reflexivity.
Defined.

(** C1 (counterexample).  In [A -> a | a b | c | c d] two cells are claimed
    twice, [M[A, a]] and [M[A, c]] (the second shows when the alternatives
    are reordered).  The run reports the conflict at [M[A, a]] alone and
    stops: the cell [M[A, c]] of the table it leaves is still empty, so the
    productions [c] and [c d] were never looked at. *)
Lemma second_conflict_not_collected :
  main 1000 100 two_conflicts "a" = Ok (NotLL1 (Conflict "A" "a" ["a"] ["a"; "b"]))
  ∧ main 1000 100 ["A -> c | c d | a | a b"] "a"
    = Ok (NotLL1 (Conflict "A" "c" ["c"] ["c"; "d"]))
  ∧ construct_parsing_table 1000 two_conflicts_analysed
    = Ok (Return (Conflict "A" "a" ["a"] ["a"; "b"]) two_conflicts_left)
  ∧ ((parsing_table two_conflicts_left !! "A") ≫= (λ table_row, table_row !! "c"))
    = Some None.
Proof. split_and!; vm_compute; reflexivity. Qed.

(** C2 (amended).  The loop of [parse_input_string] has no bound on its
    apply-actions and no verdict for a derivation that does not terminate.
    When it ends, the rows it printed hold at most one match per token that
    was left, and the verdict is [True] exactly when the last row is the match
    of the end marker; every other end is a rejection (mismatch, no table
    entry, unknown symbol, or an emptied stack). *)
Theorem parse_loop_ends_by_verdict
    (budget : nat) (G : globals) (tokens stack : list string) (input_pointer : nat)
    (printed : list row) (verdict : bool) (trace : list row)
    (H : parse_loop budget G tokens stack input_pointer printed = Ok (verdict, trace)) :
  ∃ rows, trace = reverse printed ++ rows ∧ length rows ≤ budget ∧
    count_matches rows ≤ length tokens - input_pointer ∧
    (verdict = true ↔ ∃ r, last rows = Some r ∧ row_action r = Match END_MARKER).
Proof.
  revert stack input_pointer printed H.
  induction budget as [|b IH]; intros stack ip printed; [done|].
  cbn [parse_loop]. destruct (last stack) as [top|].
  2:{ intros [= <- <-]. exists []. rewrite app_nil_r.
      split_and!; [done|simpl; lia|unfold count_matches; simpl; lia|].
      split; [done|]. by intros (r & [=] & _). }
  intros ([r next] & Hs & H)%bind_inv.
  apply step_shape in Hs as [Hip Hs]. destruct next as [v|[stack' ip']].
  - injection H as <- <-. exists [r]. rewrite reverse_cons. split_and!; [done|simpl; lia| |].
    + rewrite count_matches_cons. unfold count_matches. simpl. destruct (is_match r); lia.
    + rewrite Hs. simpl. split; [eauto|]. by intros (? & [= <-] & ?).
  - destruct Hs as [Hne Hip']. apply IH in H as (rows & -> & Hlen & Hcount & Hv).
    exists (r :: rows). rewrite reverse_cons, <- app_assoc. split_and!; [done|simpl; lia| |].
    + rewrite count_matches_cons. destruct (is_match r); subst ip'; lia.
    + rewrite Hv. destruct rows as [|r' rows]; [|done].
      simpl. split; [by intros (? & [=] & _)|]. intros (? & [= <-] & ?). done.
Qed.

Lemma parse_loop_ends_by_verdict_witness :
  ∃ trace,
    parse_loop 100 expression_table ["id"; "+"; "$"] ["$"; "E"] 0 [] = Ok (false, trace)
    ∧ ∃ rows, trace = reverse [] ++ rows ∧ length rows ≤ 100 ∧
        count_matches rows ≤ length ["id"; "+"; "$"] - 0 ∧
        (false = true ↔ ∃ r, last rows = Some r ∧ row_action r = Match END_MARKER).
Proof.
  eexists. split; [vm_compute; reflexivity|].
  apply (parse_loop_ends_by_verdict 100 expression_table ["id"; "+"; "$"] ["$"; "E"] 0 []).
  vm_compute; reflexivity.
Defined.

(** C2 (counterexample).  The grammar file [# -> # #] goes through every
    stage of [main]: FIRST and FOLLOW are computed and the table is built
    without a conflict, with [M[#, $] = # -> # #].  The parser then replaces
    the [#] on top of the stack by two, for ever: whatever the budget of
    iterations, the run never returns, and it ends with no verdict. *)
Lemma hash_grammar_never_returns :
  ¬ ∃ budget out, main 1000 budget hash_grammar "" = Ok out.
Proof.
  intros (budget & out & H). unfold main, analyse in H.
  replace (load (omap parse_line hash_grammar)) with (Ok (hash_loaded, Some "#")) in H
    by (vm_compute; reflexivity).
  cbn [mbind res_bind] in H.
  replace (for_each (elements (non_terminals hash_loaded))
             (λ nt G, snd <$> compute_first 1000 nt G) hash_loaded)
    with (Ok (with_first_sets {["#" := {["#"]}]} hash_loaded)) in H
    by (vm_compute; reflexivity).
  cbn [mbind res_bind] in H.
  destruct budget as [|b]; [done|].
  replace (compute_all_follow_sets (S b) 1000 "#" (with_first_sets {["#" := {["#"]}]} hash_loaded))
    with (Ok hash_analysed) in H by (vm_compute; reflexivity).
  cbn [mbind res_bind] in H.
  replace (construct_parsing_table 1000 hash_analysed) with
    (Ok (Continue hash_globals) : res (flow globals conflict)) in H
    by (vm_compute; reflexivity).
  cbn [mbind res_bind] in H. unfold parse_input_string in H.
  change (split (strip "") ++ [END_MARKER]) with ["$"] in H.
  change [END_MARKER; "#"] with ("$" :: replicate 1 "#") in H.
  by rewrite parse_loop_hash in H.
Qed.

(** C3 (amended).  [compute_first_sets], the iterative solver of
    [expt 4/main.py], is total: for every grammar, cyclic or not, it returns
    its FIRST sets within [first_budget] passes of the [while] loop, and with
    any larger budget it returns the same sets. *)
Theorem compute_first_sets_total (g : grammar_dict) :
  ∃ fs, first_inv g fs ∧
    ∀ budget, first_budget g ≤ budget → Expt4.compute_first_sets budget g = Ok fs.
Proof. apply compute_first_sets_total_aux. Qed.

(** C3 (counterexample).  On the grammar file [A -> A a | b], [main] of
    [expt 6/6a.py] calls [compute_first("A")], which calls itself on the first
    symbol of [A -> A a] before anything is memoised: whatever the recursion
    limit and the budget, the run returns nothing. *)
Lemma left_recursive_first_never_returns :
  ¬ ∃ depth budget out, main depth budget ["A -> A a | b"] "b" = Ok out.
Proof.
  intros (depth & budget & out & H). unfold main, analyse in H.
  replace (load (omap parse_line ["A -> A a | b"])) with (Ok (left_recursive, Some "A")) in H
    by (vm_compute; reflexivity).
  cbn [mbind res_bind] in H.
  replace (elements (non_terminals left_recursive)) with ["A"] in H
    by (vm_compute; reflexivity).
  cbn [for_each mbind res_bind] in H.
  by rewrite compute_first_left_recursive in H.
Qed.

(** C4 (amended).  [is_nonterminal] of [expt 4/main.py] holds exactly of the
    keys of the grammar, whatever the case of the symbol.  The loader of
    [expt 6/6a.py] classifies by the left-hand sides and by the case of the
    first letter: the nonterminals are the heads together with the
    capitalised symbols of the bodies, and the terminals are the symbols of
    the bodies that are neither the epsilon symbol nor capitalised. *)
Theorem symbols_classified
    (entries : list (string * list production)) (g : grammar_dict) (s : string)
    (Hne : Forall (λ x, x ≠ "") (body_symbols entries)) :
  (Expt4.is_nonterminal s g = true ↔ s ∈ keys g)
  ∧ ∃ G start_symbol, load entries = Ok (G, start_symbol) ∧
      (s ∈ non_terminals G ↔
         s ∈ heads entries ∨ (s ∈ body_symbols entries ∧ upper s = true)) ∧
      (s ∈ terminals G ↔
         s ∈ body_symbols entries ∧ s ≠ EPSILON ∧ upper s = false).
Proof.
  split.
  - unfold Expt4.is_nonterminal, dict_mem. apply bool_decide_eq_true.
  - destruct (load_spec entries) as (G & start_symbol & Hl & Hn & Ht).
    { by apply Forall_forall. }
    exists G, start_symbol. done.
Qed.

Lemma symbols_classified_witness :
  Forall (λ x, x ≠ "") (body_symbols (omap parse_line expression_grammar))
  ∧ (Expt4.is_nonterminal "E'" Expt4Rec.mutual_grammar = true
     ↔ "E'" ∈ keys Expt4Rec.mutual_grammar)
  ∧ ∃ G start_symbol, load (omap parse_line expression_grammar) = Ok (G, start_symbol) ∧
      ("E'" ∈ non_terminals G ↔
         "E'" ∈ heads (omap parse_line expression_grammar)
         ∨ ("E'" ∈ body_symbols (omap parse_line expression_grammar) ∧ upper "E'" = true)) ∧
      ("E'" ∈ terminals G ↔
         "E'" ∈ body_symbols (omap parse_line expression_grammar)
         ∧ "E'" ≠ EPSILON ∧ upper "E'" = false).
Proof.
  assert (Forall (λ x, x ≠ "") (body_symbols (omap parse_line expression_grammar))) as Hne.
  { apply (bool_decide_unpack _). vm_compute. exact I. }
  split; [exact Hne|].
  apply (symbols_classified (omap parse_line expression_grammar) Expt4Rec.mutual_grammar
           "E'" Hne).
Defined.

(** C4 (counterexample).  Loaded by [expt 6/6a.py], the line [S -> a B] makes
    [B] a nonterminal although [B] is the left-hand side of no production, and
    the line [s -> a s] makes [s], a left-hand side, a terminal as well: the
    class of a symbol follows the case of its first letter. *)
Lemma load_classifies_by_case :
  (∃ G start_symbol, load (omap parse_line ["S -> a B"]) = Ok (G, start_symbol) ∧
     "B" ∈ non_terminals G ∧ "B" ∉ keys (grammar G))
  ∧ (∃ G start_symbol, load (omap parse_line ["s -> a s"]) = Ok (G, start_symbol) ∧
       "s" ∈ keys (grammar G) ∧ "s" ∈ terminals G).
Proof.
  split; eexists _, _; (split; [vm_compute; reflexivity|]);
    split; apply (bool_decide_unpack _); vm_compute; exact I.
Qed.

(** C5 (amended).  The parser tests [top_of_stack in terminals or top_of_stack
    == END_MARKER] before [top_of_stack in non_terminals], so the table is
    consulted only for a top [X] that is in [non_terminals], not in [terminals]
    and not the end marker.  For one iteration on such a top, with the current
    token [a]: without a production in [M[X, a]] the parse returns [False]
    after the row "no table entry for [M[X, a]]".  With the production
    [X -> Y1 ... Yk] the row shows its application, [X] is popped and, unless
    the production is the epsilon production, [Yk, ..., Y1] are pushed, so
    that [Y1] is the new top; the input pointer stays where it is. *)
Theorem nonterminal_step (G : globals) (tokens stack : list string) (X a : string)
    (input_pointer budget : nat) (printed : list row)
    (table_row : gmap string (option production))
    (HX : X ∈ non_terminals G) (HnT : X ∉ terminals G) (HnE : X ≠ END_MARKER)
    (Ha : tokens !! input_pointer = Some a)
    (Hrow : parsing_table G !! X = Some table_row) :
  let shown := Row (stack ++ [X]) (drop input_pointer tokens) in
  match table_row !! a with
  | Some (Some prod) =>
      (prod = [EPSILON] →
         parse_loop (S budget) G tokens (stack ++ [X]) input_pointer printed
         = parse_loop budget G tokens stack input_pointer (shown (Apply X prod) :: printed))
      ∧ (prod ≠ [EPSILON] →
         parse_loop (S budget) G tokens (stack ++ [X]) input_pointer printed
         = parse_loop budget G tokens (stack ++ reverse prod) input_pointer
             (shown (Apply X prod) :: printed)
         ∧ ∀ Y1 rest, prod = Y1 :: rest → last (stack ++ reverse prod) = Some Y1)
  | _ =>
      parse_loop (S budget) G tokens (stack ++ [X]) input_pointer printed
      = Ok (false, reverse (shown (NoTableEntry X a) :: printed))
  end.
Proof.
  intros shown. cbn [parse_loop]. rewrite last_snoc.
  rewrite (step_nonterminal G tokens stack X a input_pointer table_row) by done.
  destruct (table_row !! a) as [[prod|]|]; [|done..]. cbn [mbind res_bind]. split.
  - intros ->. by rewrite decide_True.
  - intros Hne. rewrite decide_False by done. split; [done|].
    intros Y1 rest ->. rewrite reverse_cons, app_assoc. apply last_snoc.
Qed.

Lemma nonterminal_step_witness :
  ∃ table_row,
    ("T" ∈ non_terminals expression_table ∧ ("T" ∉ terminals expression_table)
     ∧ "T" ≠ END_MARKER ∧ ["id"; "+"; "$"] !! 2 = Some "$"
     ∧ parsing_table expression_table !! "T" = Some table_row)
    ∧ let shown := Row (["$"; "E'"] ++ ["T"]) (drop 2 ["id"; "+"; "$"]) in
      match table_row !! "$" with
      | Some (Some prod) =>
          (prod = [EPSILON] →
             parse_loop 1 expression_table ["id"; "+"; "$"] (["$"; "E'"] ++ ["T"]) 2 []
             = parse_loop 0 expression_table ["id"; "+"; "$"] ["$"; "E'"] 2
                 [shown (Apply "T" prod)])
          ∧ (prod ≠ [EPSILON] →
             parse_loop 1 expression_table ["id"; "+"; "$"] (["$"; "E'"] ++ ["T"]) 2 []
             = parse_loop 0 expression_table ["id"; "+"; "$"] (["$"; "E'"] ++ reverse prod) 2
                 [shown (Apply "T" prod)]
             ∧ ∀ Y1 rest, prod = Y1 :: rest → last (["$"; "E'"] ++ reverse prod) = Some Y1)
      | _ =>
          parse_loop 1 expression_table ["id"; "+"; "$"] (["$"; "E'"] ++ ["T"]) 2 []
          = Ok (false, reverse [shown (NoTableEntry "T" "$")])
      end.
Proof.
  eexists.
  assert ("T" ∈ non_terminals expression_table) as HX
    by (apply (bool_decide_unpack _); vm_compute; exact I).
  assert ("T" ∉ terminals expression_table) as HnT
    by (apply (bool_decide_unpack _); vm_compute; exact I).
  assert ("T" ≠ END_MARKER) as HnE by discriminate.
  assert (["id"; "+"; "$"] !! 2 = Some "$") as Ha by reflexivity.
  split; [split_and!; [exact HX|exact HnT|exact HnE|exact Ha|vm_compute; reflexivity]|].
  apply (nonterminal_step expression_table ["id"; "+"; "$"] ["$"; "E'"] "T" "$" 2 0 []
           _ HX HnT HnE Ha).
  vm_compute; reflexivity.
Defined.

(** C5 (counterexample).  Loaded by [expt 6/6a.py], the grammar file
    [s -> a s | b] makes its head [s] a nonterminal and, because its first
    letter is not a capital, a terminal as well.  The table is built without a
    conflict and [M[s, b]] holds [s -> b].  On the input [b] the first
    iteration has the nonterminal [s] on top of the stack and the token [b]:
    the production is not applied; the parser takes the branch of the
    terminals, compares [s] with [b] and returns [False] after the row of the
    mismatch.  Popping [s] and pushing [b], as the claim has it, would have
    led to the acceptance of the input. *)
Lemma lowercase_head_is_matched_as_terminal :
  ∃ G0 G,
    analyse 1000 100 ["s -> a s | b"] = Ok (G0, "s")
    ∧ construct_parsing_table 1000 G0 = Ok (Continue G)
    ∧ "s" ∈ non_terminals G ∧ "s" ∈ terminals G
    ∧ ((parsing_table G !! "s") ≫= (λ table_row, table_row !! "b")) = Some (Some ["b"])
    ∧ parse_loop 3 G ["b"; "$"] (["$"] ++ ["s"]) 0 []
      = Ok (false, [Row ["$"; "s"] ["b"; "$"] (Mismatch "s" "b")])
    ∧ parse_loop 2 G ["b"; "$"] (["$"] ++ reverse ["b"]) 0
        [Row ["$"; "s"] ["b"; "$"] (Apply "s" ["b"])]
      = Ok (true, [Row ["$"; "s"] ["b"; "$"] (Apply "s" ["b"]);
                   Row ["$"; "b"] ["b"; "$"] (Match "b");
                   Row ["$"] ["$"] (Match "$")])
    ∧ main 1000 100 ["s -> a s | b"] "b"
      = Ok (Parsed false [Row ["$"; "s"] ["b"; "$"] (Mismatch "s" "b")]).
Proof.
  eexists _, _.
  split; [vm_compute; reflexivity|].
  split; [vm_compute; reflexivity|].
  split; [apply (bool_decide_unpack _); vm_compute; exact I|].
  split; [apply (bool_decide_unpack _); vm_compute; exact I|].
  split_and!; vm_compute; reflexivity.
Qed.

(** C6.  On the mutually recursive grammar [A -> B x | a], [B -> A y | b], the
    recursive, memoised [cal_first] run over the keys as [main] does returns
    [FIRST(B) = {b}], a proper subset of the [{a, b}] that the iterative
    solver [compute_first_sets] returns for [B]. *)
Theorem cal_first_under_populated :
  ∃ (g : grammar_dict) (s : string) (memoised solved : sets) (X Y : gset string),
    Expt4Rec.first_table 1000 g = Ok memoised ∧
    (∀ budget, first_budget g ≤ budget → Expt4.compute_first_sets budget g = Ok solved) ∧
    memoised !! s = Some X ∧ solved !! s = Some Y ∧ X ⊂ Y.
Proof.
  destruct (compute_first_sets_total_aux Expt4Rec.mutual_grammar) as (solved & _ & Hrun).
  exists Expt4Rec.mutual_grammar, "B", {["A" := {["a"; "b"]}; "B" := {["b"]}]}, solved,
    {["b"]}, {["a"; "b"]}.
  assert (solved = {["A" := {["a"; "b"]}; "B" := {["a"; "b"]}]}) as Hsolved.
  { specialize (Hrun (first_budget Expt4Rec.mutual_grammar) (le_n _)).
    assert (Expt4.compute_first_sets (first_budget Expt4Rec.mutual_grammar)
              Expt4Rec.mutual_grammar = Ok {["A" := {["a"; "b"]}; "B" := {["a"; "b"]}]})
      as Hrun' by (vm_compute; reflexivity).
    congruence. }
  split_and!; [vm_compute; reflexivity|exact Hrun|vm_compute; reflexivity| |].
  - rewrite Hsolved. vm_compute; reflexivity.
  - apply (bool_decide_unpack _). vm_compute. exact I.
Qed.

(** C7.  For the expression grammar the table is built without a conflict,
    and the parse of the tokens [id + $] returns [False]: the last row of its
    trace is "no table entry for [M[T, $]]", printed with [T] on top of the
    stack and the end marker as the input that remains. *)
Theorem missing_operand_rejected :
  construct_parsing_table 1000 expression_analysed = Ok (Continue expression_table)
  ∧ ∃ trace,
      main 1000 100 expression_grammar "id +" = Ok (Parsed false trace)
      ∧ last trace = Some (Row ["$"; "E'"; "T"] ["$"] (NoTableEntry "T" "$")).
Proof.
  split; [vm_compute; reflexivity|].
  eexists. split; vm_compute; reflexivity.
Qed.

(** C8.  FOLLOW of the start symbol holds the end marker.  For [expt 4/main.py]:
    with the start symbol a key of the grammar, both solvers return, the
    FOLLOW set returned for the start symbol holds ["$"], and every pass of the
    loop keeps it there.  For [expt 6/6a.py]: with the start symbol among the
    nonterminals and every head a nonterminal whose FIRST set is memoised (the
    state [main] is in when FIRST has returned), [compute_all_follow_sets]
    returns and the FOLLOW set of the start symbol holds the end marker. *)
Theorem follow_of_start_has_end_marker
    (g : grammar_dict) (start_symbol : string)
    (G : globals) (start6 : string) (depth : nat)
    (Hstart : start_symbol ∈ keys g)
    (Hstart6 : start6 ∈ non_terminals G)
    (Hheads : Forall (λ k, k ∈ non_terminals G ∧ is_Some (first_sets G !! k))
                (keys (grammar G))) :
  (∃ first follow X,
     (∀ budget, first_budget g ≤ budget → Expt4.compute_first_sets budget g = Ok first) ∧
     (∀ budget, follow_budget g first ≤ budget →
        Expt4.compute_follow_sets budget g first start_symbol = Ok follow) ∧
     follow !! start_symbol = Some X ∧ "$" ∈ X ∧
     (∀ fs, follow_inv g first start_symbol fs →
        ∃ fs' changed, Expt4.follow_pass g first fs = Ok (fs', changed) ∧
                       follow_inv g first start_symbol fs'))
  ∧ (∃ G' X,
       (∀ budget, follow_budget6 G ≤ budget →
          compute_all_follow_sets budget (S depth) start6 G = Ok G') ∧
       follow_sets G' !! start6 = Some X ∧ END_MARKER ∈ X).
Proof.
  split.
  - destruct (compute_first_sets_total_aux g) as (first & [Hcov _] & Hfirst).
    destruct (compute_follow_sets_total_aux g first start_symbol Hcov Hstart)
      as (follow & (_ & _ & X & HX & Hend) & Hfollow).
    exists first, follow, X. split_and!; [done..|].
    intros fs Hfs.
    destruct (follow_pass_advances g first start_symbol Hcov fs Hfs)
      as (fs' & changed & Hrun & Hfs' & _).
    by exists fs', changed.
  - apply compute_all_follow_sets_total; [done|].
    intros k Hk. by apply (proj1 (Forall_forall _ _) Hheads).
Qed.

Lemma follow_of_start_has_end_marker_witness :
  ("A" ∈ keys Expt4Rec.mutual_grammar ∧ "E" ∈ non_terminals expression_analysed
   ∧ Forall (λ k, k ∈ non_terminals expression_analysed
                  ∧ is_Some (first_sets expression_analysed !! k))
       (keys (grammar expression_analysed)))
  ∧ (∃ first follow X,
       (∀ budget, first_budget Expt4Rec.mutual_grammar ≤ budget →
          Expt4.compute_first_sets budget Expt4Rec.mutual_grammar = Ok first) ∧
       (∀ budget, follow_budget Expt4Rec.mutual_grammar first ≤ budget →
          Expt4.compute_follow_sets budget Expt4Rec.mutual_grammar first "A" = Ok follow) ∧
       follow !! "A" = Some X ∧ "$" ∈ X ∧
       (∀ fs, follow_inv Expt4Rec.mutual_grammar first "A" fs →
          ∃ fs' changed, Expt4.follow_pass Expt4Rec.mutual_grammar first fs = Ok (fs', changed) ∧
                         follow_inv Expt4Rec.mutual_grammar first "A" fs'))
    ∧ (∃ G' X,
         (∀ budget, follow_budget6 expression_analysed ≤ budget →
            compute_all_follow_sets budget 1 "E" expression_analysed = Ok G') ∧
         follow_sets G' !! "E" = Some X ∧ END_MARKER ∈ X).
Proof.
  assert ("A" ∈ keys Expt4Rec.mutual_grammar) as H1
    by (apply (bool_decide_unpack _); vm_compute; exact I).
  assert ("E" ∈ non_terminals expression_analysed) as H2
    by (apply (bool_decide_unpack _); vm_compute; exact I).
  assert (Forall (λ k, k ∈ non_terminals expression_analysed
                       ∧ is_Some (first_sets expression_analysed !! k))
            (keys (grammar expression_analysed))) as H3
    by (apply (bool_decide_unpack _); vm_compute; exact I).
  split; [split_and!; [exact H1|exact H2|exact H3]|].
  apply (follow_of_start_has_end_marker Expt4Rec.mutual_grammar "A"
           expression_analysed "E" 0 H1 H2 H3).
Defined.



(** C10 (the code departs from the claim).  On the grammar [A -> A], whose only
    alternative is immediately left recursive with an empty tail, the function
    returns [A -> A'] and [A' -> A' | ε]: the production [A' -> A'] of the
    returned grammar starts with its own left-hand side. *)
Theorem eliminate_left_recursion_unit_cycle :
  Expt5.eliminate_left_recursion [("A", [["A"]])]
    = [("A", [["A'"]]); ("A'", [["A'"]; ["ε"]])]
  ∧ Expt5.immediately_left_recursive
      (Expt5.eliminate_left_recursion [("A", [["A"]])]) = true.
Proof. split; vm_compute; reflexivity. Qed.

(** * Further properties of the code *)

(** ** expt 6/6a.py: the parser on a terminal, and what a trace matches *)

Lemma step_terminal G tokens stack X a input_pointer :
  X ∈ terminals G ∨ X = END_MARKER → tokens !! input_pointer = Some a →
  step G tokens (stack ++ [X]) X input_pointer =
    let shown := Row (stack ++ [X]) (drop input_pointer tokens) in
    if decide (X = a) then
      if decide (X = END_MARKER) then Ok (shown (Match a), inl true)
      else Ok (shown (Match a), inr (stack, S input_pointer))
    else Ok (shown (Mismatch X a), inl false).
Proof.
  intros HX Ha. unfold step. rewrite Ha.
  assert (bool_decide (X ∈ terminals G) || bool_decide (X = END_MARKER) = true) as ->.
  { apply orb_true_iff. destruct HX; [left|right]; by apply bool_decide_eq_true_2. }
  cbn zeta. destruct (decide (X = a)) as [<-|Hne]; [|done].
  destruct (decide (X = END_MARKER)) as [->|HnE].
  - by rewrite !bool_decide_eq_true_2.
  - rewrite (bool_decide_eq_false_2 _ HnE). cbn [andb]. by rewrite removelast_last.
Qed.

(** X1.  One iteration of the parser on a stack whose top [X] is a terminal or
    the end marker, with the current token [a].  When [X] differs from [a] the
    parse returns [False] after the row that shows the mismatch.  When both are
    the end marker it returns [True] after the row of the match.  Otherwise
    the row shows the match, [X] is popped and the input pointer moves on by
    one. *)
Theorem terminal_step (G : globals) (tokens stack : list string) (X a : string)
    (input_pointer budget : nat) (printed : list row)
    (HX : X ∈ terminals G ∨ X = END_MARKER)
    (Ha : tokens !! input_pointer = Some a) :
  let shown := Row (stack ++ [X]) (drop input_pointer tokens) in
  (X ≠ a →
     parse_loop (S budget) G tokens (stack ++ [X]) input_pointer printed
     = Ok (false, reverse (shown (Mismatch X a) :: printed)))
  ∧ (X = a → X = END_MARKER →
     parse_loop (S budget) G tokens (stack ++ [X]) input_pointer printed
     = Ok (true, reverse (shown (Match a) :: printed)))
  ∧ (X = a → X ≠ END_MARKER →
     parse_loop (S budget) G tokens (stack ++ [X]) input_pointer printed
     = parse_loop budget G tokens stack (S input_pointer) (shown (Match a) :: printed)).
Proof.
  intros shown. cbn [parse_loop]. rewrite last_snoc.
  rewrite (step_terminal G tokens stack X a input_pointer HX Ha). cbn zeta.
  split_and!.
  - intros Hne. by rewrite decide_False.
  - intros Heq HE. by rewrite !decide_True.
  - intros Heq HnE. rewrite decide_True by done. by rewrite decide_False.
Qed.

Lemma terminal_step_witness :
  ("id" ∈ terminals expression_table ∨ "id" = END_MARKER)
  ∧ ["id"; "+"; "$"] !! 0 = Some "id"
  ∧ let shown := Row (["$"; "E'"; "T'"] ++ ["id"]) (drop 0 ["id"; "+"; "$"]) in
    ("id" ≠ "id" →
       parse_loop 1 expression_table ["id"; "+"; "$"] (["$"; "E'"; "T'"] ++ ["id"]) 0 []
       = Ok (false, reverse [shown (Mismatch "id" "id")]))
    ∧ ("id" = "id" → "id" = END_MARKER →
       parse_loop 1 expression_table ["id"; "+"; "$"] (["$"; "E'"; "T'"] ++ ["id"]) 0 []
       = Ok (true, reverse [shown (Match "id")]))
    ∧ ("id" = "id" → "id" ≠ END_MARKER →
       parse_loop 1 expression_table ["id"; "+"; "$"] (["$"; "E'"; "T'"] ++ ["id"]) 0 []
       = parse_loop 0 expression_table ["id"; "+"; "$"] ["$"; "E'"; "T'"] 1
           [shown (Match "id")]).
Proof.
  assert ("id" ∈ terminals expression_table ∨ "id" = END_MARKER) as HX
    by (left; apply (bool_decide_unpack _); vm_compute; exact I).
  assert (["id"; "+"; "$"] !! 0 = Some "id") as Ha by reflexivity.
  split_and!; [exact HX|exact Ha|].
  apply (terminal_step expression_table ["id"; "+"; "$"] ["$"; "E'"; "T'"] "id" "id"
           0 0 [] HX Ha).
Defined.

Lemma step_matched G tokens stack top ip r next :
  step G tokens stack top ip = Ok (r, next) →
  match next with
  | inl _ => matched [r] = [] ∨ matched [r] = take 1 (drop ip tokens)
  | inr (_, ip') =>
      (matched [r] = [] ∧ ip' = ip) ∨
      (matched [r] = take 1 (drop ip tokens) ∧ ip' = S ip ∧ ip < length tokens)
  end.
Proof.
  unfold step. destruct (tokens !! ip) as [a|] eqn:Ha; [|done].
  assert (take 1 (drop ip tokens) = [a]) as Htake.
  { rewrite <- (take_drop_middle _ _ _ Ha) at 1.
    rewrite drop_app_length'; [done|]. rewrite length_take.
    apply lookup_lt_Some in Ha. lia. }
  pose proof (lookup_lt_Some _ _ _ Ha) as Hlt.
  destruct (bool_decide (top ∈ terminals G) || bool_decide (top = END_MARKER)).
  - case_decide as Heq.
    + destruct (bool_decide (top = END_MARKER) && bool_decide (a = END_MARKER)).
      * intros [= <- <-]. right. by rewrite Htake.
      * intros [= <- <-]. right. by rewrite Htake.
    + intros [= <- <-]. by left.
  - case_decide.
    + intros (trow & _ & Hrow)%bind_inv.
      destruct (trow !! a) as [[prod|]|]; injection Hrow as <- <-; by left.
    + intros [= <- <-]. by left.
Qed.

Lemma matched_app (l1 l2 : list row) : matched (l1 ++ l2) = matched l1 ++ matched l2.
Proof. unfold matched. apply omap_app. Qed.

Lemma step_accepts G tokens stack top ip r :
  step G tokens stack top ip = Ok (r, inl true) → matched [r] = [END_MARKER].
Proof.
  unfold step. destruct (tokens !! ip) as [a|]; [|done].
  destruct (bool_decide (top ∈ terminals G) || bool_decide (top = END_MARKER)).
  - case_decide as Heq; [|done].
    destruct (bool_decide (top = END_MARKER) && bool_decide (a = END_MARKER)) eqn:E; [|done].
    apply andb_true_iff in E as [_ ->%bool_decide_eq_true_1]. by intros [= <-].
  - case_decide; [|done].
    intros (trow & _ & Hrow)%bind_inv. by destruct (trow !! a) as [[prod|]|].
Qed.

Lemma parse_loop_matched budget G tokens stack input_pointer printed verdict trace :
  parse_loop budget G tokens stack input_pointer printed = Ok (verdict, trace) →
  ∃ rows, trace = reverse printed ++ rows ∧
    matched rows = take (length (matched rows)) (drop input_pointer tokens) ∧
    (verdict = true → last (matched rows) = Some END_MARKER).
Proof.
  revert stack input_pointer printed.
  induction budget as [|b IH]; intros stack ip printed; [done|].
  cbn [parse_loop]. destruct (last stack) as [top|].
  2:{ intros [= <- <-]. exists []. by rewrite app_nil_r. }
  intros ([r next] & Hs & H)%bind_inv.
  pose proof (step_matched _ _ _ _ _ _ _ Hs) as Hm. destruct next as [v|[stack' ip']].
  - injection H as <- <-. exists [r]. rewrite reverse_cons. split_and!; [done| |].
    + destruct Hm as [->| ->]; [done|]. rewrite length_take.
      destruct (drop ip tokens); [done|]. simpl. by rewrite take_0.
    + intros ->. by rewrite (step_accepts _ _ _ _ _ _ Hs).
  - apply IH in H as (rows & -> & Hrows & Hv).
    exists (r :: rows). rewrite reverse_cons, <- app_assoc. split_and!; [done| |].
    + change (r :: rows) with ([r] ++ rows). rewrite matched_app.
      destruct Hm as [[-> ->]|(-> & -> & Hlt)]; [done|].
      rewrite Hrows at 1.
      destruct (drop ip tokens) as [|a rest] eqn:Hd.
      { apply (f_equal length) in Hd. rewrite length_drop in Hd. simpl in Hd. lia. }
      assert (drop (S ip) tokens = rest) as ->.
      { replace (S ip) with (ip + 1) by lia. by rewrite <- drop_drop, Hd. }
      done.
    + intros Hv'. specialize (Hv Hv').
      change (r :: rows) with ([r] ++ rows). rewrite matched_app, last_app. by rewrite Hv.
Qed.

(** X2.  Whenever the loop of [parse_input_string] returns, the tokens that the
    rows it printed show as matched are, in the order of the rows, the tokens
    of the input from the input pointer on: the parser matches a prefix of the
    input that is left, token by token, and skips none. *)
Theorem parse_loop_matches_in_order
    (budget : nat) (G : globals) (tokens stack : list string) (input_pointer : nat)
    (printed : list row) (verdict : bool) (trace : list row)
    (H : parse_loop budget G tokens stack input_pointer printed = Ok (verdict, trace)) :
  ∃ rows, trace = reverse printed ++ rows ∧
    matched rows = take (length (matched rows)) (drop input_pointer tokens).
Proof.
  apply parse_loop_matched in H as (rows & ? & ? & _). by exists rows.
Qed.

(** X3.  When [parse_input_string] returns [True] on an input none of whose
    tokens is the end marker, the matches of its trace are the tokens of the
    input, all of them and in order, followed by the end marker.  (A token
    [$] inside the input ends the parse there: what comes after it is never
    read.) *)
Theorem accepted_input_is_consumed
    (budget : nat) (input_str start_symbol : string) (G : globals) (trace : list row)
    (H : parse_input_string budget input_str start_symbol G = Ok (true, trace))
    (Hend : END_MARKER ∉ split input_str) :
  matched trace = split input_str ++ [END_MARKER].
Proof.
  unfold parse_input_string in H.
  apply parse_loop_matched in H as (rows & -> & Hm & Hlast).
  specialize (Hlast eq_refl). rewrite drop_0 in Hm. simpl.
  destruct (decide (length (matched rows) ≤ length (split input_str))) as [Hle|Hgt].
  - rewrite take_app_le in Hm by done.
    assert (END_MARKER ∈ matched rows) as Hin.
    { apply last_Some in Hlast as (l' & ->). set_solver. }
    rewrite Hm in Hin. apply elem_of_take in Hin as (i & Hi & _).
    exfalso. apply Hend. by eapply list_elem_of_lookup_2.
  - rewrite Hm. apply take_ge. rewrite length_app. simpl. lia.
Qed.

Lemma parse_loop_matches_in_order_witness :
  ∃ trace,
    parse_loop 100 expression_table ["id"; "+"; "id"; "$"] ["$"; "E"] 0 [] = Ok (true, trace)
    ∧ ∃ rows, trace = reverse [] ++ rows ∧
        matched rows = take (length (matched rows)) (drop 0 ["id"; "+"; "id"; "$"]).
Proof.
  eexists. split; [vm_compute; reflexivity|].
  apply (parse_loop_matches_in_order 100 expression_table ["id"; "+"; "id"; "$"]
           ["$"; "E"] 0 [] true).
  vm_compute; reflexivity.
Defined.

Lemma accepted_input_is_consumed_witness :
  ∃ trace,
    (parse_input_string 100 "id + id" "E" expression_table = Ok (true, trace)
     ∧ END_MARKER ∉ split "id + id")
    ∧ matched trace = split "id + id" ++ [END_MARKER].
Proof.
  eexists.
  assert (END_MARKER ∉ split "id + id") as Hend
    by (apply (bool_decide_unpack _); vm_compute; exact I).
  split; [split; [vm_compute; reflexivity|exact Hend]|].
  apply (accepted_input_is_consumed 100 "id + id" "E" expression_table); [|exact Hend].
  vm_compute; reflexivity.
Defined.

(** ** expt 6/6a.py: the memo of FIRST and the entries of the table *)

Lemma memo_extended_refl G : memo_extended G G.
Proof. by split_and!. Qed.

Lemma memo_extended_trans G1 G2 G3 :
  memo_extended G1 G2 → memo_extended G2 G3 → memo_extended G1 G3.
Proof.
  intros (? & ? & ? & ? & ? & ?) (? & ? & ? & ? & ? & ?).
  split_and!; [congruence..|]. by etrans.
Qed.

Lemma first_walk_memo_extended rec prod first G X G' :
  (∀ sym G X G', rec sym G = Ok (X, G') → memo_extended G G') →
  first_walk rec prod first G = Ok (X, G') → memo_extended G G'.
Proof.
  intros Hrec. revert first G. induction prod as [|x l IH]; intros first G; simpl.
  { intros [= _ <-]. apply memo_extended_refl. }
  intros ([sf G1] & H1 & H2)%bind_inv.
  apply Hrec in H1. case_decide.
  - eapply memo_extended_trans; [done|]. by eapply IH.
  - by injection H2 as _ <-.
Qed.

Lemma compute_first_memo_extended depth sym G X G' :
  compute_first depth sym G = Ok (X, G') →
  memo_extended G G' ∧ first_sets G' !! sym = Some X.
Proof.
  revert sym G X G'. induction depth as [|d IH]; intros sym G X G'; [done|].
  cbn [compute_first]. destruct (first_sets G !! sym) eqn:E.
  { intros [= <- <-]. split; [apply memo_extended_refl|done]. }
  intros ([first G1] & H1 & [= <- <-])%bind_inv.
  assert (memo_extended G G1) as (Hg & Ht & Hn & Hf & Hp & Hm).
  { case_decide; [injection H1 as _ <-; apply memo_extended_refl|].
    case_decide; [injection H1 as _ <-; apply memo_extended_refl|].
    destruct (dict_get sym (grammar G)); [|injection H1 as _ <-; apply memo_extended_refl].
    apply (for_each_inv_step _ (λ acc, memo_extended G acc.2) _)
      with (s := (∅, G)) (s' := (first, G1)) in H1;
      [exact H1| |simpl; apply memo_extended_refl].
    intros prod [f0 Ga] [f1 Gb] _ Ha. unfold first_production. simpl.
    case_decide; [by intros [= _ <-]|].
    intros Hw. eapply memo_extended_trans; [exact Ha|].
    eapply first_walk_memo_extended; [|exact Hw].
    intros ???? Hr. by apply IH in Hr as [? _]. }
  split; [|by simpl; rewrite lookup_insert_eq].
  split_and!; [done..|]. simpl.
  by apply insert_subseteq_r.
Qed.

(** X4.  A call of [compute_first] that returns leaves the grammar, the symbol
    classes, FOLLOW and the table as they were and only adds entries to the
    memo [first_sets]; the set it returns is then memoised for the symbol, and
    every later call on the symbol returns this set and changes nothing,
    whatever is left of the recursion limit. *)
Theorem compute_first_memoises (depth : nat) (sym : string) (G : globals)
    (X : gset string) (G' : globals)
    (H : compute_first depth sym G = Ok (X, G')) :
  memo_extended G G' ∧ first_sets G' !! sym = Some X ∧
  ∀ depth', compute_first (S depth') sym G' = Ok (X, G').
Proof.
  destruct (compute_first_memo_extended _ _ _ _ _ H) as [He Hl].
  split_and!; [done..|]. intros depth'. cbn [compute_first]. by rewrite Hl.
Qed.

Lemma sequence_walk_memo_extended depth sequence result G X G' :
  sequence_walk depth sequence result G = Ok (X, G') → memo_extended G G'.
Proof.
  revert result G. induction sequence as [|x l IH]; intros result G; simpl.
  { intros [= _ <-]. apply memo_extended_refl. }
  intros ([sf G1] & H1 & H2)%bind_inv.
  apply compute_first_memo_extended in H1 as [H1 _]. case_decide.
  - eapply memo_extended_trans; [done|]. by eapply IH.
  - by injection H2 as _ <-.
Qed.

Lemma compute_first_of_sequence_memo_extended depth sequence G X G' :
  compute_first_of_sequence depth sequence G = Ok (X, G') → memo_extended G G'.
Proof.
  destruct sequence; [intros [= _ <-]; apply memo_extended_refl|].
  apply sequence_walk_memo_extended.
Qed.

Lemma for_until_inv {A S R} (P : S → Prop) (l : list A)
    (body : A → S → res (flow S R)) :
  (∀ x s r, x ∈ l → P s → body x s = Ok r → P (flow_state r)) →
  ∀ s r, P s → for_until l body s = Ok r → P (flow_state r).
Proof.
  induction l as [|x l IH]; intros Hb s r Hs; simpl.
  { by intros [= <-]. }
  intros (r1 & H1 & H2)%bind_inv.
  pose proof (Hb x s r1 ltac:(left) Hs H1) as Hr1.
  destruct r1 as [s1|v s1].
  - eapply IH; [|exact Hr1|exact H2]. intros y t u Hy. apply Hb. by right.
  - by injection H2 as <-.
Qed.

Lemma table_sound_memo_extended G G' : memo_extended G G' → table_sound G → table_sound G'.
Proof.
  intros (Hg & _ & Hn & _ & Hp & _) Hs nt table_row t prod.
  rewrite Hg, Hn, Hp. apply Hs.
Qed.

Lemma place_sound nt prods prod t G r :
  (nt, prods) ∈ grammar G → prod ∈ prods → table_sound G →
  place nt prod t G = Ok r →
  table_sound (flow_state r) ∧ grammar (flow_state r) = grammar G ∧
  non_terminals (flow_state r) = non_terminals G.
Proof.
  intros Hnt Hprod Hs. unfold place.
  intros (table_row & Hrow & (cell & Hcell & H)%bind_inv)%bind_inv.
  destruct cell as [existing|]; injection H as <-; simpl; [done|].
  split; [|done]. intros nt' row' t' prod' Hn'. simpl.
  destruct (decide (nt = nt')) as [<-|Hne].
  - rewrite lookup_insert_eq. intros [= <-].
    destruct (decide (t = t')) as [<-|Hnet].
    + rewrite lookup_insert_eq. intros [= <-]. eauto.
    + rewrite lookup_insert_ne by done. intros Hl. eapply Hs; [done| |done].
      unfold getitem in Hrow. destruct (parsing_table G !! nt); [|done]. by injection Hrow as ->.
  - rewrite lookup_insert_ne by done. by apply Hs.
Qed.

Lemma places_sound nt prods prod ts G r :
  (nt, prods) ∈ grammar G → prod ∈ prods → table_sound G →
  for_until ts (place nt prod) G = Ok r →
  table_sound (flow_state r) ∧ grammar (flow_state r) = grammar G ∧
  non_terminals (flow_state r) = non_terminals G.
Proof.
  intros Hnt Hprod Hs.
  apply (for_until_inv (λ Ga, table_sound Ga ∧ grammar Ga = grammar G ∧
                              non_terminals Ga = non_terminals G)); [|done].
  intros t Ga rb _ (Hsa & Hga & Hna) Hrun.
  destruct (place_sound nt prods prod t Ga rb) as (? & ? & ?); [by rewrite Hga|done..|].
  split_and!; [done|congruence..].
Qed.

Lemma fill_production_sound depth nt prods prod G r :
  (nt, prods) ∈ grammar G → prod ∈ prods → table_sound G →
  fill_production depth nt prod G = Ok r →
  table_sound (flow_state r) ∧ grammar (flow_state r) = grammar G ∧
  non_terminals (flow_state r) = non_terminals G.
Proof.
  intros Hnt Hprod Hs. unfold fill_production.
  intros ([fp G1] & Hf & (r1 & Hr1 & H)%bind_inv)%bind_inv.
  apply compute_first_of_sequence_memo_extended in Hf.
  pose proof (table_sound_memo_extended _ _ Hf Hs) as Hs1.
  destruct Hf as (Hg1 & _ & Hn1 & _).
  destruct (places_sound nt prods prod _ G1 r1 ltac:(by rewrite Hg1) Hprod Hs1 Hr1)
    as (Hs2 & Hg2 & Hn2).
  destruct r1 as [G2|c G2]; simpl in *.
  - case_decide.
    + apply bind_inv in H as (fnt & _ & H).
      destruct (places_sound nt prods prod _ G2 r ltac:(by rewrite Hg2, Hg1) Hprod Hs2 H)
        as (Hs3 & Hg3 & Hn3).
      split_and!; [done|congruence..].
    + injection H as <-. simpl. split_and!; [done|congruence..].
  - injection H as <-. simpl. split_and!; [done|congruence..].
Qed.

Lemma reset_table_lookup (tbl : table) (v : gmap string (option production))
    (l : list string) k :
  foldl (λ tbl nt, <[nt := v]> tbl) tbl l !! k = if decide (k ∈ l) then Some v else tbl !! k.
Proof.
  revert tbl. induction l as [|x l IH]; intros tbl; cbn [foldl].
  { rewrite decide_False; [done|]. apply not_elem_of_nil. }
  rewrite IH. destruct (decide (k ∈ l)).
  - rewrite decide_True; [done|by right].
  - destruct (decide (x = k)) as [->|].
    + rewrite lookup_insert_eq. rewrite decide_True; [done|by left].
    + rewrite lookup_insert_ne by done. rewrite decide_False; [done|].
      intros [?|?]%elem_of_cons; congruence.
Qed.

Lemma empty_row_lookup G t : empty_row G !! t = None ∨ empty_row G !! t = Some None.
Proof.
  unfold empty_row. generalize (all_terminals G). intros l.
  assert (∀ (row : gmap string (option production)),
            (row !! t = None ∨ row !! t = Some None) →
            foldl (λ row t, <[t := None]> row) row l !! t = None ∨
            foldl (λ row t, <[t := None]> row) row l !! t = Some None) as Hgen.
  { induction l as [|x l IH]; intros row Hrow; cbn [foldl]; [done|].
    apply IH. destruct (decide (x = t)) as [->|].
    - rewrite lookup_insert_eq. by right.
    - by rewrite lookup_insert_ne. }
  apply Hgen. left. apply lookup_empty.
Qed.

(** X5.  However [construct_parsing_table] returns, with or without a
    conflict, a production found in the row of a nonterminal is one of the
    productions the grammar has for this nonterminal. *)
Theorem construct_parsing_table_sound (depth : nat) (G : globals)
    (r : flow globals conflict)
    (H : construct_parsing_table depth G = Ok r) :
  table_sound (flow_state r).
Proof.
  unfold construct_parsing_table in H.
  assert (table_sound (flow_state r) ∧ grammar (flow_state r) = grammar G ∧
          non_terminals (flow_state r) = non_terminals G) as [Hs _]; [|done].
  revert H. apply (for_until_inv (λ Ga, table_sound Ga ∧ grammar Ga = grammar G ∧
                                       non_terminals Ga = non_terminals G)).
  - intros [nt prods] Ga ra Hin (Hsa & Hga & Hna).
    apply (for_until_inv (λ Gb, table_sound Gb ∧ grammar Gb = grammar G ∧
                                non_terminals Gb = non_terminals G)); [|done].
    intros prod Gb rb Hprod (Hsb & Hgb & Hnb) Hrun.
    destruct (fill_production_sound depth nt prods prod Gb rb) as (? & ? & ?);
      [by rewrite Hgb|done..|].
    split_and!; [done|congruence..].
  - split; [|done]. intros nt table_row t prod Hn. unfold reset_parsing_table. simpl.
    rewrite reset_table_lookup. rewrite decide_True by (by apply elem_of_elements).
    intros [= <-] Hl. destruct (empty_row_lookup G t); congruence.
Qed.


Lemma table_grows_refl G : table_grows G G.
Proof. by split_and!. Qed.

Lemma table_grows_trans G1 G2 G3 : table_grows G1 G2 → table_grows G2 G3 → table_grows G1 G3.
Proof.
  intros (? & ? & ? & ? & ? & H12) (? & ? & ? & ? & ? & H23).
  split_and!; [congruence..|by etrans|]. intros nt t p Hc. by apply H23, H12.
Qed.

Lemma memo_extended_grows G G' : memo_extended G G' → table_grows G G'.
Proof.
  intros (? & ? & ? & ? & Hp & ?). split_and!; [done..|].
  intros nt t p. unfold cell_holds. by rewrite Hp.
Qed.

Lemma for_until_continue {A S R} (rel : S → S → Prop) (P : A → S → Prop) (l : list A)
    (body : A → S → res (flow S R)) :
  (∀ s, rel s s) → (∀ s1 s2 s3, rel s1 s2 → rel s2 s3 → rel s1 s3) →
  (∀ x s s', P x s → rel s s' → P x s') →
  (∀ x s s', x ∈ l → body x s = Ok (Continue s') → rel s s' ∧ P x s') →
  ∀ s s', for_until l body s = Ok (Continue s') → rel s s' ∧ ∀ x, x ∈ l → P x s'.
Proof.
  intros Hrefl Htrans Hstable. induction l as [|x l IH]; intros Hb s s'; simpl.
  { intros [= <-]. split; [done|]. by intros x ?%elem_of_nil. }
  intros ([s1|v s1] & H1 & H2)%bind_inv; [|done].
  apply Hb in H1 as [Hr1 Hx]; [|left].
  apply IH in H2 as [Hr2 Hl]; [|intros y t t' Hy; apply Hb; by right].
  split; [by eapply Htrans|]. intros y [->|Hy]%elem_of_cons; [by eapply Hstable|by apply Hl].
Qed.

Lemma place_continue nt prod t G G' :
  place nt prod t G = Ok (Continue G') → table_grows G G' ∧ cell_holds G' nt t prod.
Proof.
  unfold place. intros (table_row & Hrow & (cell & Hcell & H)%bind_inv)%bind_inv.
  destruct cell as [existing|]; [done|]. injection H as <-.
  unfold getitem in Hrow, Hcell.
  destruct (parsing_table G !! nt) as [row0|] eqn:Erow; [|done]. injection Hrow as ->.
  destruct (table_row !! t) as [c|] eqn:Ecell; [|done]. injection Hcell as ->.
  split.
  - split_and!; [done..|]. intros nt' t' p (row' & Hr' & Hc'). unfold cell_holds. simpl.
    destruct (decide (nt = nt')) as [<-|].
    + rewrite lookup_insert_eq. eexists; split; [done|].
      assert (row' = table_row) as -> by congruence.
      destruct (decide (t = t')) as [<-|]; [congruence|by rewrite lookup_insert_ne].
    + rewrite lookup_insert_ne by done. eauto.
  - unfold cell_holds. simpl. rewrite lookup_insert_eq. eexists; split; [done|].
    by rewrite lookup_insert_eq.
Qed.

Lemma places_continue nt prod ts G G' :
  for_until ts (place nt prod) G = Ok (Continue G') →
  table_grows G G' ∧ ∀ t, t ∈ ts → cell_holds G' nt t prod.
Proof.
  apply (for_until_continue table_grows (λ t Ga, cell_holds Ga nt t prod)).
  - apply table_grows_refl.
  - apply table_grows_trans.
  - intros t s s' Hc (_ & _ & _ & _ & _ & Hg). by apply Hg.
  - intros t s s' _. apply place_continue.
Qed.

Lemma sequence_walk_stable depth sequence result G X G1 :
  sequence_walk depth sequence result G = Ok (X, G1) →
  ∀ G2 depth', first_sets G1 ⊆ first_sets G2 →
    sequence_walk (S depth') sequence result G2 = Ok (X, G2).
Proof.
  revert result G. induction sequence as [|x l IH]; intros result G.
  { simpl. by intros [= <- <-]. }
  cbn [sequence_walk]. intros ([sf Ga] & H1 & H2)%bind_inv G2 depth' Hsub.
  apply compute_first_memo_extended in H1 as [_ Hl].
  assert (memo_extended Ga G1) as (_ & _ & _ & _ & _ & Hsub1).
  { destruct (decide (EPSILON ∈ sf)); [by eapply sequence_walk_memo_extended|].
    injection H2 as _ <-. apply memo_extended_refl. }
  assert (compute_first (S depth') x G2 = Ok (sf, G2)) as ->.
  { cbn [compute_first]. erewrite lookup_weaken; [done|done|]. by etrans. }
  cbn [mbind res_bind]. case_decide.
  - by eapply IH.
  - by injection H2 as <- _.
Qed.

Lemma compute_first_of_sequence_stable depth sequence G X G1 :
  compute_first_of_sequence depth sequence G = Ok (X, G1) →
  ∀ G2 depth', first_sets G1 ⊆ first_sets G2 →
    compute_first_of_sequence (S depth') sequence G2 = Ok (X, G2).
Proof.
  destruct sequence; [by intros [= <- _]|]. apply sequence_walk_stable.
Qed.

Lemma production_placed_stable nt prod G G' :
  production_placed G nt prod → table_grows G G' → production_placed G' nt prod.
Proof.
  intros (X & HX & Hfirst & Hfollow) (? & ? & ? & Hf & Hsub & Hcells).
  exists X. split_and!.
  - intros depth. eapply compute_first_of_sequence_stable; [apply (HX 0)|done].
  - intros t Ht Hne. by apply Hcells, Hfirst.
  - intros He. destruct (Hfollow He) as (F & HF & Hc). exists F. rewrite Hf.
    split; [done|]. intros t Ht. by apply Hcells, Hc.
Qed.

Lemma fill_production_continue depth nt prod G G' :
  fill_production depth nt prod G = Ok (Continue G') →
  table_grows G G' ∧ production_placed G' nt prod.
Proof.
  unfold fill_production.
  intros ([X G1] & Hf & ([G2|? ?] & H1 & H)%bind_inv)%bind_inv; [|done].
  pose proof (compute_first_of_sequence_memo_extended _ _ _ _ _ Hf) as He.
  apply memo_extended_grows in He.
  apply places_continue in H1 as [Hg1 Hc1].
  assert (∀ t, t ∈ X → t ≠ EPSILON → cell_holds G2 nt t prod) as Hfirst.
  { intros t Ht Hne. apply Hc1. apply elem_of_elements. set_solver. }
  destruct (decide (EPSILON ∈ X)) as [Heps|Heps].
  - apply bind_inv in H as (F & HF & H). apply places_continue in H as [Hg2 Hc2].
    split; [by repeat (eapply table_grows_trans; [done|])|].
    exists X. split_and!.
    + intros d. eapply compute_first_of_sequence_stable; [done|].
      destruct Hg1 as (_ & _ & _ & _ & ? & _), Hg2 as (_ & _ & _ & _ & ? & _). by etrans.
    + intros t Ht Hne. destruct Hg2 as (_ & _ & _ & _ & _ & Hcells). by apply Hcells, Hfirst.
    + intros _. exists F. destruct Hg2 as (_ & _ & _ & -> & _ & _).
      unfold getitem in HF. destruct (follow_sets G2 !! nt); [|done]. injection HF as ->.
      split; [done|]. intros t Ht. apply Hc2. by apply elem_of_elements.
  - injection H as <-. split; [by eapply table_grows_trans|].
    exists X. split_and!; [|done..].
    intros d. eapply compute_first_of_sequence_stable; [done|].
    by destruct Hg1 as (_ & _ & _ & _ & ? & _).
Qed.

(** X6.  When [construct_parsing_table] returns [True], every production
    [nt -> prod] of the grammar sits in [M[nt, t]] for every terminal [t] of
    FIRST of [prod] and, when FIRST of [prod] holds the epsilon symbol, for
    every [t] of FOLLOW of [nt]; FIRST of [prod] is what
    [compute_first_of_sequence] returns in the globals that are left, with any
    recursion limit and without changing them. *)
Theorem construct_parsing_table_complete (depth : nat) (G G' : globals)
    (nt : string) (prods : list production) (prod : production)
    (H : construct_parsing_table depth G = Ok (Continue G'))
    (Hnt : (nt, prods) ∈ grammar G) (Hprod : prod ∈ prods) :
  ∃ first_of_prod,
    (∀ depth', compute_first_of_sequence (S depth') prod G' = Ok (first_of_prod, G')) ∧
    (∀ terminal, terminal ∈ first_of_prod → terminal ≠ EPSILON →
       ∃ table_row, parsing_table G' !! nt = Some table_row ∧
                    table_row !! terminal = Some (Some prod)) ∧
    (EPSILON ∈ first_of_prod →
       ∃ follow_nt, follow_sets G' !! nt = Some follow_nt ∧
         ∀ terminal, terminal ∈ follow_nt →
           ∃ table_row, parsing_table G' !! nt = Some table_row ∧
                        table_row !! terminal = Some (Some prod)).
Proof.
  unfold construct_parsing_table in H.
  apply (for_until_continue table_grows
           (λ '(nt, prods) Ga, ∀ prod, prod ∈ prods → production_placed Ga nt prod))
    in H as [_ Hall].
  - by apply (Hall (nt, prods) Hnt prod Hprod).
  - apply table_grows_refl.
  - apply table_grows_trans.
  - intros [nt' prods'] s s' Hp Hg p Hin. eapply production_placed_stable; [|done]. by apply Hp.
  - intros [nt' prods'] s s' _.
    apply (for_until_continue table_grows (λ p Ga, production_placed Ga nt' p)).
    + apply table_grows_refl.
    + apply table_grows_trans.
    + intros p t t' Hp Hg. by eapply production_placed_stable.
    + intros p t t' _. apply fill_production_continue.
Qed.

Lemma compute_first_memoises_witness :
  ∃ X G',
    compute_first 3 "A" (Globals [("A", [["a"; "A"]; ["#"]])] ∅ ∅ {["a"]} {["A"]} ∅)
      = Ok (X, G')
    ∧ memo_extended (Globals [("A", [["a"; "A"]; ["#"]])] ∅ ∅ {["a"]} {["A"]} ∅) G'
    ∧ first_sets G' !! "A" = Some X
    ∧ ∀ depth', compute_first (S depth') "A" G' = Ok (X, G').
Proof.
  eexists _, _. split; [vm_compute; reflexivity|].
  apply (compute_first_memoises 3 "A"
           (Globals [("A", [["a"; "A"]; ["#"]])] ∅ ∅ {["a"]} {["A"]} ∅)).
  vm_compute; reflexivity.
Defined.

Lemma construct_parsing_table_sound_witness :
  construct_parsing_table 1000 expression_analysed = Ok (Continue expression_table)
  ∧ table_sound (flow_state (Continue expression_table : flow globals conflict)).
Proof.
  split; [vm_compute; reflexivity|].
  apply (construct_parsing_table_sound 1000 expression_analysed (Continue expression_table)).
  vm_compute; reflexivity.
Defined.

Lemma construct_parsing_table_complete_witness :
  ∃ prods,
    (construct_parsing_table 1000 expression_analysed = Ok (Continue expression_table)
     ∧ ("E'", prods) ∈ grammar expression_analysed ∧ ["+"; "T"; "E'"] ∈ prods)
    ∧ ∃ first_of_prod,
        (∀ depth', compute_first_of_sequence (S depth') ["+"; "T"; "E'"] expression_table
                   = Ok (first_of_prod, expression_table)) ∧
        (∀ terminal, terminal ∈ first_of_prod → terminal ≠ EPSILON →
           ∃ table_row, parsing_table expression_table !! "E'" = Some table_row ∧
                        table_row !! terminal = Some (Some ["+"; "T"; "E'"])) ∧
        (EPSILON ∈ first_of_prod →
           ∃ follow_nt, follow_sets expression_table !! "E'" = Some follow_nt ∧
             ∀ terminal, terminal ∈ follow_nt →
               ∃ table_row, parsing_table expression_table !! "E'" = Some table_row ∧
                            table_row !! terminal = Some (Some ["+"; "T"; "E'"])).
Proof.
  exists [["+"; "T"; "E'"]; ["#"]].
  assert (construct_parsing_table 1000 expression_analysed = Ok (Continue expression_table))
    as H by (vm_compute; reflexivity).
  assert (("E'", [["+"; "T"; "E'"]; ["#"]]) ∈ grammar expression_analysed) as Hnt
    by (apply (bool_decide_unpack _); vm_compute; exact I).
  assert (["+"; "T"; "E'"] ∈ [["+"; "T"; "E'"]; ["#"]]) as Hprod
    by (apply (bool_decide_unpack _); vm_compute; exact I).
  split; [split_and!; [exact H|exact Hnt|exact Hprod]|].
  apply (construct_parsing_table_complete 1000 expression_analysed expression_table "E'"
           [["+"; "T"; "E'"]; ["#"]] ["+"; "T"; "E'"] H Hnt Hprod).
Defined.

(** ** expt 6/6a.py: loading a grammar file *)

Lemma string_of_rev_nonempty (cur : list ascii) :
  cur ≠ [] → string_of_list_ascii (rev cur) ≠ "".
Proof.
  intros Hne. destruct (rev cur) as [|a l] eqn:E; [|done].
  apply (f_equal (@rev ascii)) in E. rewrite rev_involutive in E. done.
Qed.

Lemma split_from_nonempty cur s x : x ∈ split_from cur s → x ≠ "".
Proof.
  revert cur. induction s as [|c s IH]; intros cur; simpl.
  - destruct cur as [|a cur]; [by intros ?%elem_of_nil|].
    intros ->%list_elem_of_singleton. by apply string_of_rev_nonempty.
  - destruct (is_space c); [|apply IH].
    destruct cur as [|a cur]; [apply IH|].
    intros [->|?]%elem_of_cons; [by apply string_of_rev_nonempty|by eapply IH].
Qed.

Lemma parse_line_symbols line head alternatives x :
  parse_line line = Some (head, alternatives) → x ∈ concat alternatives → x ≠ "".
Proof.
  unfold parse_line. case_decide; [done|].
  destruct (split_arrow (strip line)) as [[h body]|]; [|done].
  intros [= _ <-] (symbols & Hx & Hs)%elem_of_concat.
  apply list_elem_of_fmap in Hs as (p & -> & _).
  destruct (decide (strip p = "")) as [Hp|Hp].
  - apply list_elem_of_singleton in Hx as ->. done.
  - destruct (split (strip p)) as [|y l] eqn:E.
    + apply list_elem_of_singleton in Hx as ->. done.
    + rewrite <- E in Hx. by eapply split_from_nonempty.
Qed.

Lemma parsed_symbols_nonempty lines x :
  x ∈ body_symbols (omap parse_line lines) → x ≠ "".
Proof.
  unfold body_symbols. intros (symbols & Hx & (alts & Hs & Ha)%elem_of_concat)%elem_of_concat.
  apply list_elem_of_fmap in Ha as ([head alts'] & -> & Hin).
  apply list_elem_of_omap in Hin as (line & _ & Hline).
  eapply parse_line_symbols; [exact Hline|]. apply elem_of_concat. eauto.
Qed.

Lemma note_terminal_same symbols G G' :
  for_each symbols note_terminal G = Ok G' →
  grammar G' = grammar G ∧ non_terminals G' = non_terminals G.
Proof.
  apply (for_each_inv_step _
           (λ Ga, grammar Ga = grammar G ∧ non_terminals Ga = non_terminals G)); [|done].
  intros x Ga Gb _ [? ?]. unfold note_terminal.
  intros (u & _ & [= <-])%bind_inv. by destruct (_ && _).
Qed.

Lemma add_line_keys (entry : string * list production) st st' :
  add_line entry st = Ok st' →
  (∀ k, k ∈ keys (grammar st'.1) ↔ k ∈ keys (grammar st.1) ∨ k = entry.1) ∧
  non_terminals st'.1 = non_terminals st.1 ∪ {[entry.1]} ∧
  st'.2 = match st.2 with Some s => Some s | None => Some entry.1 end.
Proof.
  destruct entry as [head alternatives], st as [G start_symbol]. unfold add_line.
  intros (G' & Hrun & [= <-])%bind_inv. cbn [fst snd].
  set (Ga := with_non_terminals (non_terminals G ∪ {[head]}) G) in *.
  set (Gb := if dict_mem head (grammar Ga) then Ga
             else with_grammar (dict_set head [] (grammar Ga)) Ga) in *.
  assert (non_terminals Gb = non_terminals G ∪ {[head]} ∧
          ∀ k, k ∈ keys (grammar Gb) ↔ k ∈ keys (grammar G) ∨ k = head) as Hb.
  { unfold Gb. destruct (dict_mem head (grammar Ga)) eqn:E; simpl.
    - split; [done|]. apply dict_mem_true in E. simpl in E.
      intros k. split; [tauto|]. intros [?| ->]; done.
    - split; [done|]. intros k. apply keys_dict_set. }
  assert (head ∈ keys (grammar Gb)) as Hhead by (apply Hb; by right).
  assert (non_terminals G' = non_terminals G ∪ {[head]} ∧
          ∀ k, k ∈ keys (grammar G') ↔ k ∈ keys (grammar G) ∨ k = head) as [Hn' Hk'].
  { revert Hrun. apply (for_each_inv_step _
      (λ Gc, non_terminals Gc = non_terminals G ∪ {[head]} ∧
             ∀ k, k ∈ keys (grammar Gc) ↔ k ∈ keys (grammar G) ∨ k = head)); [|done].
    intros symbols Gc Gd _ [Hnc Hkc]. unfold add_production.
    intros [Hg Hn]%note_terminal_same. simpl in *. rewrite Hn, Hg. split; [done|].
    intros k. rewrite keys_dict_set, Hkc. tauto. }
  split_and!; [done..|]. by destruct start_symbol.
Qed.

Lemma add_lines_keys (entries : list (string * list production)) st st' :
  for_each entries add_line st = Ok st' →
  (∀ k, k ∈ keys (grammar st'.1) ↔ k ∈ keys (grammar st.1) ∨ k ∈ heads entries) ∧
  (∀ k, k ∈ non_terminals st'.1 ↔ k ∈ non_terminals st.1 ∨ k ∈ heads entries) ∧
  st'.2 = match st.2 with Some s => Some s | None => head (heads entries) end.
Proof.
  revert st. unfold heads. induction entries as [|entry l IH]; intros st; simpl.
  { intros [= <-]. split_and!; [intros k; rewrite elem_of_nil; tauto..|by destruct (st.2)]. }
  intros (st1 & H1 & H2)%bind_inv.
  apply add_line_keys in H1 as (Hk1 & Hn1 & Hs1). apply IH in H2 as (Hk2 & Hn2 & Hs2).
  split_and!.
  - intros k. rewrite Hk2, Hk1, elem_of_cons. tauto.
  - intros k. rewrite Hn2, Hn1, elem_of_cons, elem_of_union, elem_of_singleton. tauto.
  - rewrite Hs2, Hs1. by destruct (st.2).
Qed.

Lemma classify_rest_grows G G' :
  classify_rest G = Ok G' →
  grammar G' = grammar G ∧ non_terminals G ⊆ non_terminals G'.
Proof.
  unfold classify_rest. intros ([nts all] & Hrun & [= <-])%bind_inv. split; [done|]. simpl.
  change nts with ((nts, all).1). revert Hrun.
  apply (for_each_inv_step _ (λ acc, non_terminals G ⊆ acc.1)); [|done].
  intros [? prods] acc acc' _ Hacc.
  apply (for_each_inv_step _ (λ acc, non_terminals G ⊆ acc.1)); [|done].
  intros prod acc1 acc1' _ Hacc1.
  apply (for_each_inv_step _ (λ acc, non_terminals G ⊆ acc.1)); [|done].
  intros x acc2 acc2' _ Hacc2. unfold note_non_terminal.
  intros (u & _ & [= <-])%bind_inv. destruct (_ && _); simpl; set_solver.
Qed.

Lemma load_keys entries G start_symbol :
  load entries = Ok (G, start_symbol) →
  (∀ k, k ∈ keys (grammar G) ↔ k ∈ heads entries) ∧
  (∀ k, k ∈ heads entries → k ∈ non_terminals G) ∧
  start_symbol = head (heads entries).
Proof.
  unfold load. intros ([G1 st] & Hrun & (G2 & Hc & [= <- <-])%bind_inv)%bind_inv.
  apply add_lines_keys in Hrun as (Hk & Hn & Hs). simpl in *.
  apply classify_rest_grows in Hc as [Hg Hsub]. split_and!; [| |done].
  - intros k. rewrite Hg, Hk, elem_of_nil. tauto.
  - intros k Hin. apply Hsub, Hn. by right.
Qed.

(** X7.  The loop of [main] over the lines of a grammar file never raises: a
    symbol obtained by splitting a line is never empty, so [symbol[0]] is
    always defined.  The start symbol is the head of the first line that
    holds an arrow ([None] when there is none), the keys of the grammar are
    the heads of these lines, and each of them is a nonterminal. *)
Theorem load_total_on_text (lines : list string) :
  ∃ G start_symbol,
    load (omap parse_line lines) = Ok (G, start_symbol) ∧
    start_symbol = head (heads (omap parse_line lines)) ∧
    (∀ k, k ∈ keys (grammar G) ↔ k ∈ heads (omap parse_line lines)) ∧
    (∀ k, k ∈ keys (grammar G) → k ∈ non_terminals G).
Proof.
  destruct (load_spec (omap parse_line lines)) as (G & st & Hl & _).
  { apply parsed_symbols_nonempty. }
  destruct (load_keys _ _ _ Hl) as (Hk & Hn & Hs).
  exists G, st. split_and!; [done..|].
  intros k Hin. by apply Hn, Hk.
Qed.

(** ** expt 6/6a.py: from the grammar file to FOLLOW *)

Lemma first_phase_covers depth (l : list string) G G1 :
  for_each l (λ nt G, snd <$> compute_first depth nt G) G = Ok G1 →
  memo_extended G G1 ∧ ∀ nt, nt ∈ l → is_Some (first_sets G1 !! nt).
Proof.
  revert G. induction l as [|x l IH]; intros G; simpl.
  { intros [= <-]. split; [apply memo_extended_refl|]. intros nt Hnt. by apply elem_of_nil in Hnt. }
  intros (G2 & H1 & H2)%bind_inv.
  destruct (compute_first depth x G) as [[X Gx]|] eqn:E; [|done].
  injection H1 as <-. simpl in H2.
  apply compute_first_memo_extended in E as [He Hx]. apply IH in H2 as [He2 Hl].
  split; [by eapply memo_extended_trans|].
  intros nt [->|?]%elem_of_cons; [|by apply Hl].
  destruct He2 as (_ & _ & _ & _ & _ & Hsub). exists X.
  by eapply lookup_weaken.
Qed.

(** X8.  From a grammar file to FOLLOW.  When the file is loaded with a start
    symbol and the loop of [main] that calls [compute_first] on every
    nonterminal returns, [compute_all_follow_sets] returns as well, within
    [follow_budget6] passes of its [while] loop: it leaves the grammar and the
    symbol classes as loaded and a FOLLOW set for every nonterminal. *)
Theorem analyse_returns (depth : nat) (lines : list string) (G0 : globals)
    (start_symbol : string) (G : globals)
    (Hload : load (omap parse_line lines) = Ok (G0, Some start_symbol))
    (Hfirst : for_each (elements (non_terminals G0))
                (λ nt G, snd <$> compute_first (S depth) nt G) G0 = Ok G) :
  ∃ G',
    (∀ budget, follow_budget6 G ≤ budget →
       analyse (S depth) budget lines = Ok (G', start_symbol)) ∧
    grammar G' = grammar G0 ∧ terminals G' = terminals G0 ∧
    non_terminals G' = non_terminals G0 ∧
    (∀ nt, nt ∈ non_terminals G0 → is_Some (follow_sets G' !! nt)).
Proof.
  destruct (load_keys _ _ _ Hload) as (Hk & Hn & Hs).
  destruct (first_phase_covers _ _ _ _ Hfirst) as [(Hg & Ht & Hnt & _) Hcov].
  assert (start_symbol ∈ non_terminals G) as Hstart.
  { rewrite Hnt. apply Hn. destruct (heads (omap parse_line lines)); [done|].
    injection Hs as ->. left. }
  assert (∀ k, k ∈ keys (grammar G) → k ∈ non_terminals G ∧ is_Some (first_sets G !! k))
    as Hheads.
  { intros k Hin. rewrite Hg in Hin. apply Hk, Hn in Hin. rewrite Hnt. split; [done|].
    apply Hcov. by apply elem_of_elements. }
  unfold analyse. rewrite Hload. cbn [mbind res_bind]. rewrite Hfirst. cbn [mbind res_bind].
  unfold compute_all_follow_sets.
  assert (Hreset : ∀ k, k ∈ non_terminals G →
            follow_sets (reset_follow_sets G) !! k = Some ∅).
  { intros k Hin. unfold reset_follow_sets. simpl. rewrite reset_follow_lookup.
    rewrite decide_True; [done|by apply elem_of_elements]. }
  rewrite (getitem_ok _ _ _ (Hreset _ Hstart)). cbn [mbind res_bind].
  set (Gs := with_follow_sets _ _).
  destruct (follow_loop_total6 Gs start_symbol) with (depth := depth) as (G' & Hi & Hrun).
  - intros k Hin. by apply Hheads.
  - split; simpl; try done.
    + intros k Hin. by apply Hheads.
    + intros k X HX. unfold follow_universe6. simpl.
      pose proof (union_values_lookup _ _ _ HX). set_solver.
    + intros k Hin. destruct (decide (start_symbol = k)) as [->|];
        [rewrite lookup_insert_eq; eauto|].
      rewrite lookup_insert_ne by done. rewrite Hreset by done. eauto.
    + intros k X Hin. destruct (decide (start_symbol = k)) as [->|].
      * rewrite lookup_insert_eq. intros [= <-]. unfold follow_universe6. set_solver.
      * rewrite lookup_insert_ne by done. rewrite Hreset by done. intros [= <-]. set_solver.
    + rewrite lookup_insert_eq. eexists; split; [done|]. set_solver.
  - exists G'. split_and!.
    + intros budget Hb. by rewrite (Hrun budget Hb).
    + rewrite (inv_grammar _ _ _ Hi). simpl. done.
    + rewrite (inv_terminals _ _ _ Hi). simpl. done.
    + rewrite (inv_non_terminals _ _ _ Hi). simpl. done.
    + intros nt Hin. apply (inv_follow _ _ _ Hi). simpl. by rewrite Hnt.
Qed.

Lemma analyse_returns_witness :
  ∃ G0 G,
    (load (omap parse_line expression_grammar) = Ok (G0, Some "E")
     ∧ for_each (elements (non_terminals G0))
         (λ nt G, snd <$> compute_first 1000 nt G) G0 = Ok G)
    ∧ ∃ G',
        (∀ budget, follow_budget6 G ≤ budget →
           analyse 1000 budget expression_grammar = Ok (G', "E")) ∧
        grammar G' = grammar G0 ∧ terminals G' = terminals G0 ∧
        non_terminals G' = non_terminals G0 ∧
        (∀ nt, nt ∈ non_terminals G0 → is_Some (follow_sets G' !! nt)).
Proof.
  eexists _, _. split; [split; [vm_compute; reflexivity..]|].
  apply (analyse_returns 999 expression_grammar); [vm_compute; reflexivity..].
Defined.

(** ** expt 4/main.py: the sets the solvers return *)

Lemma while_changed_last {S} budget (pass : S → res (S * bool)) s s' :
  while_changed budget pass s = Ok s' → ∃ s0, pass s0 = Ok (s', false).
Proof.
  revert s. induction budget as [|b IH]; intros s; [done|]. simpl.
  intros ([s1 c] & Hp & H)%bind_inv. destruct c; [by eapply IH|].
  injection H as <-. eauto.
Qed.

Lemma for_each_steady {A S} (l : list A) (body : A → S * bool → res (S * bool)) :
  steady body → ∀ s c s', for_each l body (s, c) = Ok (s', false) →
    c = false ∧ s' = s ∧ ∀ x, x ∈ l → body x (s, false) = Ok (s, false).
Proof.
  intros Hb. induction l as [|x l IH]; intros s c s'; simpl.
  { intros [= <- <-]. split_and!; [done..|]. intros x Hx. by apply elem_of_nil in Hx. }
  intros ([s1 c1] & H1 & H2)%bind_inv.
  apply IH in H2 as (-> & -> & Hl).
  pose proof H1 as H1'. apply Hb in H1' as [-> ->]. split_and!; [done..|].
  intros y [->|Hy]%elem_of_cons; [done|by apply Hl].
Qed.

Lemma same_size_union (X add : gset string) : size (X ∪ add) = size X → X ∪ add = X ∧ add ⊆ X.
Proof.
  intros Hs. assert (X = X ∪ add) as Heq.
  { apply set_subseteq_size_eq; [set_solver|lia]. }
  split; [done|]. set_solver.
Qed.

Lemma getitem_inv {V} (d : gmap string V) k v : getitem d k = Ok v → d !! k = Some v.
Proof. unfold getitem. destruct (d !! k); [by intros [= ->]|done]. Qed.

Section FirstFixed.
Variable g : grammar_dict.

Lemma first_walk_steady nt prod fs c fs' d :
  Expt4.first_walk g nt prod fs c = Ok (fs', false, d) → c = false ∧ fs' = fs.
Proof.
  revert fs c. induction prod as [|x prod IH]; intros fs c; simpl.
  { by intros [= <- <- <-]. }
  intros (sf & Hsf & (before & Hb & H)%bind_inv)%bind_inv. apply getitem_inv in Hb.
  assert (Expt4.size_changed before (before ∪ sf ∖ {[Expt4.EPSILON]}) c = false →
          c = false ∧ <[nt := before ∪ sf ∖ {[Expt4.EPSILON]}]> fs = fs) as Hstep.
  { clear H. unfold Expt4.size_changed. case_decide as Hs; [|done]. intros ->.
    apply same_size_union in Hs as [-> _]. split; [done|]. by apply insert_id. }
  case_decide.
  - apply IH in H as [Hc ->]. by apply Hstep in Hc as [-> ->].
  - injection H as <- Hc <-. by apply Hstep in Hc as [-> ->].
Qed.

Lemma add_epsilon_steady nt fs c fs' :
  Expt4.add_epsilon nt (fs, c) = Ok (fs', false) → c = false ∧ fs' = fs.
Proof.
  unfold Expt4.add_epsilon. intros (cur & _ & H)%bind_inv.
  case_decide; [by injection H as <- <-|done].
Qed.

Lemma first_production_steady nt : steady (Expt4.first_production g nt).
Proof.
  intros prod fs c fs'. unfold Expt4.first_production. case_decide.
  { apply add_epsilon_steady. }
  cbn [fst snd]. intros ([[fs1 c1] d] & Hw & Hr)%bind_inv. destruct d.
  - apply add_epsilon_steady in Hr as [-> ->]. by apply first_walk_steady in Hw.
  - injection Hr as <- ->. by apply first_walk_steady in Hw.
Qed.

Lemma first_pass_steady :
  steady (λ '(non_terminal, production_list),
            for_each production_list (Expt4.first_production g non_terminal)).
Proof.
  intros [nt prods] fs c fs' H.
  apply for_each_steady in H as (? & ? & _); [done|apply first_production_steady].
Qed.

Lemma first_pass_fixed fs fs' :
  Expt4.first_pass g fs = Ok (fs', false) →
  fs' = fs ∧ ∀ nt prods prod, (nt, prods) ∈ g → prod ∈ prods →
    Expt4.first_production g nt prod (fs, false) = Ok (fs, false).
Proof.
  unfold Expt4.first_pass. intros H.
  apply for_each_steady in H as (_ & -> & Hl); [|apply first_pass_steady].
  split; [done|]. intros nt prods prod Hnt Hprod.
  specialize (Hl _ Hnt). simpl in Hl.
  apply for_each_steady in Hl as (_ & _ & Hp); [|apply first_production_steady].
  by apply Hp.
Qed.

Lemma compute_first_sets_fixed budget fs :
  Expt4.compute_first_sets budget g = Ok fs →
  Expt4.first_pass g fs = Ok (fs, false) ∧
  ∀ nt prods prod, (nt, prods) ∈ g → prod ∈ prods →
    Expt4.first_production g nt prod (fs, false) = Ok (fs, false).
Proof.
  unfold Expt4.compute_first_sets. intros (s0 & H)%while_changed_last.
  pose proof H as H'. apply first_pass_fixed in H' as [-> Hp]. done.
Qed.

(** The walk of [compute_first_sets] over a production without the epsilon
    symbol, once nothing changes any more, against [first_of_sequence]. *)
Lemma first_walk_sequence nt prod fs F d result :
  Expt4.EPSILON ∉ prod → fs !! nt = Some F →
  Expt4.first_walk g nt prod fs false = Ok (fs, false, d) →
  result ⊆ F → Expt4.EPSILON ∉ result →
  ∃ X, Expt4.sequence_walk g fs prod result = Ok X ∧
       X ∖ {[Expt4.EPSILON]} ⊆ F ∧ (Expt4.EPSILON ∈ X → d = true).
Proof.
  intros Hne HF. revert result. induction prod as [|x prod IH]; intros result; simpl.
  { intros [= <-] Hr Hre. eexists. split; [done|]. split; [set_solver|done]. }
  intros (sf & Hsf & (before & Hb & H)%bind_inv)%bind_inv Hr Hre.
  apply getitem_inv in Hb. rewrite HF in Hb. injection Hb as <-.
  apply not_elem_of_cons in Hne as [Hx Hne].
  rewrite decide_False by done.
  unfold Expt4.symbol_first_of in Hsf. rewrite decide_False in Hsf by done.
  rewrite Hsf. cbn [mbind res_bind].
  assert (Expt4.size_changed F (F ∪ sf ∖ {[Expt4.EPSILON]}) false = false) as Hc.
  { destruct (decide (Expt4.EPSILON ∈ sf)).
    - by apply first_walk_steady in H as [? _].
    - by injection H as _ ? _. }
  assert (sf ∖ {[Expt4.EPSILON]} ⊆ F ∧ <[nt := F ∪ sf ∖ {[Expt4.EPSILON]}]> fs = fs)
    as [Hsub Hfs].
  { clear H. revert Hc. unfold Expt4.size_changed.
    destruct (decide (size (F ∪ sf ∖ {[Expt4.EPSILON]}) = size F)) as [Hs|]; [|done].
    intros _. apply same_size_union in Hs as [Hs1 Hs2]. split; [done|].
    rewrite Hs1. by apply insert_id. }
  rewrite Hfs, Hc in H. case_decide.
  - apply IH; [done..|set_solver|set_solver].
  - assert (d = false) as -> by congruence. clear H Hsf Hc Hfs IH.
    eexists. split; [done|]. split; set_solver.
Qed.
End FirstFixed.

(** X9.  The sets that [compute_first_sets] returns are a fixed point of its
    loop body: one more pass changes nothing and leaves [changed] false.  They
    satisfy the FIRST equations as [first_of_sequence] reads them: for a
    production [nt -> prod] that is [ε] alone or holds no [ε], FIRST of the
    sequence [prod] lies within FIRST of [nt]. *)
Theorem first_sets_solve_productions
    (budget : nat) (g : grammar_dict) (fs : sets)
    (nt : string) (prods : list production) (prod : production)
    (H : Expt4.compute_first_sets budget g = Ok fs)
    (Hnt : (nt, prods) ∈ g) (Hprod : prod ∈ prods)
    (Heps : Expt4.EPSILON ∉ prod ∨ prod = [Expt4.EPSILON]) :
  Expt4.first_pass g fs = Ok (fs, false) ∧
  ∃ X F, Expt4.first_of_sequence prod fs g = Ok X ∧ fs !! nt = Some F ∧ X ⊆ F.
Proof.
  destruct (compute_first_sets_fixed g budget fs H) as [Hpass Hp]. split; [done|].
  specialize (Hp nt prods prod Hnt Hprod). unfold Expt4.first_production in Hp.
  destruct (decide (prod = [Expt4.EPSILON])) as [->|Hne].
  - unfold Expt4.add_epsilon in Hp. apply bind_inv in Hp as (F & HF & Hp).
    apply getitem_inv in HF. case_decide; [|done].
    exists {[Expt4.EPSILON]}, F. split_and!; [|done|set_solver].
    cbn. rewrite ?decide_True by done. f_equal; set_solver.
  - destruct Heps as [Heps|?]; [|done]. cbn [fst snd] in Hp.
    apply bind_inv in Hp as ([[fs1 c1] d] & Hw & Hp).
    assert (fs1 = fs ∧ c1 = false) as [-> ->].
    { destruct d; [apply add_epsilon_steady in Hp as [-> ->]|injection Hp as -> ->]; done. }
    assert (∃ F, fs !! nt = Some F ∧ (d = true → Expt4.EPSILON ∈ F)) as (F & HF & HdF).
    { destruct d.
      - unfold Expt4.add_epsilon in Hp. apply bind_inv in Hp as (F & HF & Hp).
        apply getitem_inv in HF. exists F. split; [done|]. intros _. by case_decide.
      - destruct prod as [|x prod]; [done|]. simpl in Hw.
        apply bind_inv in Hw as (sf & _ & (F & HF & _)%bind_inv).
        apply getitem_inv in HF. by exists F. }
    destruct (first_walk_sequence g nt prod fs F d ∅ Heps HF Hw) as (X & HX & Hsub & Hd);
      [set_solver..|].
    exists X, F. split_and!; [|done|].
    + destruct prod; [|done]. simpl in HX. injection HX as <-.
      f_equal; set_solver.
    + intros x Hx. destruct (decide (x = Expt4.EPSILON)) as [->|]; [auto|set_solver].
Qed.

Lemma update_set_quiet fs key additions fs' :
  Expt4.update_set fs key additions = Ok (fs', false) →
  fs' = fs ∧ ∃ target, fs !! key = Some target ∧ additions ⊆ target.
Proof.
  unfold Expt4.update_set. intros (target & Ht & [= <- Hg])%bind_inv.
  apply getitem_inv in Ht. apply bool_decide_eq_false_1 in Hg.
  apply dec_stable in Hg. apply same_size_union in Hg as [-> ?].
  split; [by apply insert_id|eauto].
Qed.

Section FollowFixed.
Variables (g : grammar_dict) (first_sets : sets).

Lemma follow_walk_solved head prod fs0 c0 fs :
  Expt4.follow_walk g first_sets head prod (fs0, c0) = Ok (fs, false) →
  (c0 = false ∧ fs0 = fs) ∧
  ∀ alpha B beta, prod = alpha ++ B :: beta → Expt4.is_nonterminal B g = true →
    ∃ lookahead_first follow_B,
      Expt4.first_of_sequence beta first_sets g = Ok lookahead_first ∧
      fs !! B = Some follow_B ∧
      lookahead_first ∖ {[Expt4.EPSILON]} ⊆ follow_B ∧
      (beta = [] ∨ Expt4.EPSILON ∈ lookahead_first →
       ∃ follow_head, fs !! head = Some follow_head ∧ follow_head ⊆ follow_B).
Proof.
  revert fs0 c0. induction prod as [|x rest IH]; intros fs0 c0.
  { intros [= <- <-]. split; [done|]. intros alpha B beta Heq. by destruct alpha. }
  cbn [Expt4.follow_walk]. destruct (Expt4.is_nonterminal x g) eqn:Ex.
  2:{ intros H. apply IH in H as [Hs Hrest]. split; [done|].
      intros [|y alpha] B beta [= -> ->] HB; [congruence|]. by eapply Hrest. }
  intros (L & HL & ([fs1 grew] & Hu1 & H)%bind_inv)%bind_inv.
  destruct (bool_decide (rest = []) || bool_decide (Expt4.EPSILON ∈ L)) eqn:Econd.
  - apply bind_inv in H as (FH & HFH & ([fs2 grew2] & Hu2 & H)%bind_inv).
    apply IH in H as [[Hc ->] Hrest].
    destruct grew2; [done|]. destruct grew; [done|]. subst c0.
    apply update_set_quiet in Hu2 as (-> & T2 & HT2 & Hsub2).
    apply update_set_quiet in Hu1 as (-> & T1 & HT1 & Hsub1).
    apply getitem_inv in HFH. split; [done|].
    intros [|y alpha] B beta [= -> ->] HB; [|by eapply Hrest].
    exists L, T1. split_and!; [done..|]. intros _. exists FH. split; [done|].
    by assert (T2 = T1) as <- by congruence.
  - apply IH in H as [[Hc ->] Hrest].
    destruct grew; [done|]. subst c0.
    apply update_set_quiet in Hu1 as (-> & T1 & HT1 & Hsub1). split; [done|].
    intros [|y alpha] B beta [= -> ->] HB; [|by eapply Hrest].
    exists L, T1. split_and!; [done..|]. intros Hor. exfalso.
    apply orb_false_iff in Econd as [E1 E2].
    apply bool_decide_eq_false_1 in E1. apply bool_decide_eq_false_1 in E2. tauto.
Qed.

Lemma follow_walk_steady head : steady (Expt4.follow_walk g first_sets head).
Proof. intros prod fs c fs' H. by apply follow_walk_solved in H as [[-> ->] _]. Qed.

Lemma follow_pass_fixed fs fs' :
  Expt4.follow_pass g first_sets fs = Ok (fs', false) →
  fs' = fs ∧ ∀ head prods prod, (head, prods) ∈ g → prod ∈ prods →
    Expt4.follow_walk g first_sets head prod (fs, false) = Ok (fs, false).
Proof.
  unfold Expt4.follow_pass. intros H.
  apply for_each_steady in H as (_ & -> & Hl).
  2:{ intros [head prods] s c s' Hr.
      apply for_each_steady in Hr as (? & ? & _); [done|apply follow_walk_steady]. }
  split; [done|]. intros head prods prod Hhead Hprod.
  specialize (Hl _ Hhead). simpl in Hl.
  apply for_each_steady in Hl as (_ & _ & Hp); [|apply follow_walk_steady].
  by apply Hp.
Qed.
End FollowFixed.

(** X10.  The sets that [compute_follow_sets] returns are a fixed point of its
    loop body, and they satisfy the FOLLOW equations: for an occurrence of a
    nonterminal [B] in a production [head -> alpha B beta], FIRST of [beta]
    without [ε] lies within FOLLOW of [B], and when [beta] is empty or its
    FIRST holds [ε], FOLLOW of [head] lies within FOLLOW of [B]. *)
Theorem follow_sets_solve_productions
    (budget : nat) (g : grammar_dict) (first_sets : sets) (start_symbol : string)
    (fs : sets) (head : string) (prods : list production)
    (alpha : list string) (B : string) (beta : list string)
    (H : Expt4.compute_follow_sets budget g first_sets start_symbol = Ok fs)
    (Hhead : (head, prods) ∈ g) (Hprod : alpha ++ B :: beta ∈ prods)
    (HB : B ∈ keys g) :
  Expt4.follow_pass g first_sets fs = Ok (fs, false) ∧
  ∃ lookahead_first follow_B,
    Expt4.first_of_sequence beta first_sets g = Ok lookahead_first ∧
    fs !! B = Some follow_B ∧
    lookahead_first ∖ {[Expt4.EPSILON]} ⊆ follow_B ∧
    (beta = [] ∨ Expt4.EPSILON ∈ lookahead_first →
     ∃ follow_head, fs !! head = Some follow_head ∧ follow_head ⊆ follow_B).
Proof.
  unfold Expt4.compute_follow_sets in H.
  apply bind_inv in H as (start_follow & _ & (s0 & H)%while_changed_last).
  pose proof H as H'. apply follow_pass_fixed in H' as [-> Hp]. split; [done|].
  specialize (Hp head prods _ Hhead Hprod).
  apply follow_walk_solved in Hp as [_ Hp]. apply (Hp alpha B beta eq_refl).
  unfold Expt4.is_nonterminal, dict_mem. by apply bool_decide_eq_true_2.
Qed.


Lemma while_changed_inv {S} (P : S → Prop) budget (pass : S → res (S * bool)) :
  (∀ s s' c, P s → pass s = Ok (s', c) → P s') →
  ∀ s s', P s → while_changed budget pass s = Ok s' → P s'.
Proof.
  intros Hp. induction budget as [|b IH]; intros s s' Hs; [done|]. simpl.
  intros ([s1 c] & H1 & H)%bind_inv. apply Hp in H1; [|done].
  destruct c; [by eapply IH|]. by injection H as <-.
Qed.

Lemma first_of_terminals_insert g fs k X Y :
  first_of_terminals g fs → fs !! k = Some X →
  (∀ x, x ∈ Y → x ∈ X ∨ x = Expt4.EPSILON ∨ (x ∈ symbols_of g ∧ x ∉ keys g)) →
  first_of_terminals g (<[k := Y]> fs).
Proof.
  intros Hfs Hk HY j Z. destruct (decide (k = j)) as [<-|Hne].
  - rewrite lookup_insert_eq. intros [= <-]. destruct (Hfs _ _ Hk) as [Hkey HX].
    split; [done|]. intros x [?|?]%HY; auto.
  - rewrite lookup_insert_ne by done. apply Hfs.
Qed.

Lemma first_walk_terminals g nt prod fs c fs' c' d :
  (∀ x, x ∈ prod → x ∈ symbols_of g) →
  first_of_terminals g fs →
  Expt4.first_walk g nt prod fs c = Ok (fs', c', d) → first_of_terminals g fs'.
Proof.
  revert fs c. induction prod as [|x prod IH]; intros fs c Hsym Hfs; simpl.
  { by intros [= <- _ _]. }
  intros (sf & Hsf & (before & Hb & H)%bind_inv)%bind_inv. apply getitem_inv in Hb.
  assert (∀ y, y ∈ sf → y = Expt4.EPSILON ∨ (y ∈ symbols_of g ∧ y ∉ keys g)) as Hsf'.
  { clear H. intros y Hy. unfold Expt4.symbol_first_of in Hsf.
    destruct (decide (x = Expt4.EPSILON)); [injection Hsf as <-; set_solver|].
    unfold Expt4.is_nonterminal, dict_mem in Hsf.
    destruct (decide (x ∈ keys g)) as [Hkey|Hkey].
    - rewrite bool_decide_eq_true_2 in Hsf by done.
      apply getitem_inv in Hsf. apply Hfs in Hsf as [_ Hsf]. by apply Hsf.
    - rewrite bool_decide_eq_false_2 in Hsf by done.
      injection Hsf as <-. apply elem_of_singleton in Hy as ->. right. split; [|done].
      apply Hsym. left. }
  assert (first_of_terminals g (<[nt := before ∪ sf ∖ {[Expt4.EPSILON]}]> fs)) as Hfs1.
  { eapply first_of_terminals_insert; [done..|].
    intros y [?|[Hy Hne]%elem_of_difference]%elem_of_union; [by left|]. right.
    by apply Hsf'. }
  case_decide.
  - eapply IH; [|done..]. intros y Hy. apply Hsym. by right.
  - by injection H as <- _ _.
Qed.

Lemma add_epsilon_terminals g nt fs c fs' c' :
  first_of_terminals g fs → Expt4.add_epsilon nt (fs, c) = Ok (fs', c') →
  first_of_terminals g fs'.
Proof.
  intros Hfs. unfold Expt4.add_epsilon. intros (cur & Hc & H)%bind_inv.
  apply getitem_inv in Hc. case_decide; [by injection H as <- _|]. injection H as <- _.
  eapply first_of_terminals_insert; [done..|]. set_solver.
Qed.

Lemma compute_first_sets_terminals budget g fs :
  Expt4.compute_first_sets budget g = Ok fs →
  first_of_terminals g fs ∧ ∀ k, k ∈ keys g → is_Some (fs !! k).
Proof.
  unfold Expt4.compute_first_sets.
  apply (while_changed_inv
           (λ fs, first_of_terminals g fs ∧ ∀ k, k ∈ keys g → is_Some (fs !! k))).
  - intros s s' c [Hs Hd] Hpass. split.
    + revert Hpass. unfold Expt4.first_pass.
      change s' with ((s', c).1).
      apply (for_each_inv_step _ (λ st, first_of_terminals g st.1)); [|done].
      intros [nt prods] st st' Hnt Hst.
      apply (for_each_inv_step _ (λ st, first_of_terminals g st.1)); [|done].
      intros prod [fs1 c1] [fs2 c2] Hprod Hst1. cbn [fst] in *.
      unfold Expt4.first_production. case_decide.
      { by apply add_epsilon_terminals. }
      cbn [fst snd]. intros ([[fs3 c3] d] & Hw & Hr)%bind_inv.
      eapply first_walk_terminals in Hw; [| |done].
      2:{ intros x Hx. by eapply symbols_of_elem. }
      destruct d; [by eapply add_epsilon_terminals|].
      change (Ok (fs3, c3) = Ok (fs2, c2)) in Hr. by injection Hr as <- _.
    + destruct (first_pass_advances g s) as (s1 & c1 & Hr & [Hk _] & _).
      { split; [done|]. intros k X Hk x Hx.
        destruct (Hs _ _ Hk) as [_ HX]. unfold first_universe.
        destruct (HX _ Hx) as [->|[? _]]; set_solver. }
      rewrite Hr in Hpass. by injection Hpass as <- _.
  - split; [|apply empty_sets_inv]. intros k X Hk. unfold Expt4.empty_sets in Hk.
    apply elem_of_list_to_map_2 in Hk.
    apply list_elem_of_fmap in Hk as (? & [= <- ->] & ?). split; [done|set_solver].
Qed.


Lemma first_sets_solve_productions_witness :
  ∃ fs,
    (Expt4.compute_first_sets 10 Expt4Rec.mutual_grammar = Ok fs
     ∧ ("A", [["B"; "x"]; ["a"]]) ∈ Expt4Rec.mutual_grammar
     ∧ ["B"; "x"] ∈ [["B"; "x"]; ["a"]]
     ∧ ((Expt4.EPSILON ∉ ["B"; "x"]) ∨ ["B"; "x"] = [Expt4.EPSILON]))
    ∧ Expt4.first_pass Expt4Rec.mutual_grammar fs = Ok (fs, false)
    ∧ ∃ X F, Expt4.first_of_sequence ["B"; "x"] fs Expt4Rec.mutual_grammar = Ok X
             ∧ fs !! "A" = Some F ∧ X ⊆ F.
Proof.
  eexists.
  assert (("A", [["B"; "x"]; ["a"]]) ∈ Expt4Rec.mutual_grammar) as Hnt
    by (apply (bool_decide_unpack _); vm_compute; exact I).
  assert (["B"; "x"] ∈ [["B"; "x"]; ["a"]]) as Hprod
    by (apply (bool_decide_unpack _); vm_compute; exact I).
  assert ((Expt4.EPSILON ∉ ["B"; "x"]) ∨ ["B"; "x"] = [Expt4.EPSILON]) as Heps
    by (left; apply (bool_decide_unpack _); vm_compute; exact I).
  split; [split_and!; [vm_compute; reflexivity|exact Hnt|exact Hprod|exact Heps]|].
  apply (first_sets_solve_productions 10 Expt4Rec.mutual_grammar _ "A"
           [["B"; "x"]; ["a"]] ["B"; "x"]); [|exact Hnt|exact Hprod|exact Heps].
  vm_compute; reflexivity.
Defined.

Lemma follow_sets_solve_productions_witness :
  ∃ fs,
    (Expt4.compute_follow_sets 10 Expt4Rec.mutual_grammar
       {["A" := {["a"; "b"]}; "B" := {["a"; "b"]}]} "A" = Ok fs
     ∧ ("A", [["B"; "x"]; ["a"]]) ∈ Expt4Rec.mutual_grammar
     ∧ [] ++ "B" :: ["x"] ∈ [["B"; "x"]; ["a"]]
     ∧ "B" ∈ keys Expt4Rec.mutual_grammar)
    ∧ Expt4.follow_pass Expt4Rec.mutual_grammar
        {["A" := {["a"; "b"]}; "B" := {["a"; "b"]}]} fs = Ok (fs, false)
    ∧ ∃ lookahead_first follow_B,
        Expt4.first_of_sequence ["x"] {["A" := {["a"; "b"]}; "B" := {["a"; "b"]}]}
          Expt4Rec.mutual_grammar = Ok lookahead_first ∧
        fs !! "B" = Some follow_B ∧
        lookahead_first ∖ {[Expt4.EPSILON]} ⊆ follow_B ∧
        (["x"] = [] ∨ Expt4.EPSILON ∈ lookahead_first →
         ∃ follow_head, fs !! "A" = Some follow_head ∧ follow_head ⊆ follow_B).
Proof.
  eexists.
  assert (("A", [["B"; "x"]; ["a"]]) ∈ Expt4Rec.mutual_grammar) as Hhead
    by (apply (bool_decide_unpack _); vm_compute; exact I).
  assert ([] ++ "B" :: ["x"] ∈ [["B"; "x"]; ["a"]]) as Hprod
    by (apply (bool_decide_unpack _); vm_compute; exact I).
  assert ("B" ∈ keys Expt4Rec.mutual_grammar) as HB
    by (apply (bool_decide_unpack _); vm_compute; exact I).
  split; [split_and!; [vm_compute; reflexivity|exact Hhead|exact Hprod|exact HB]|].
  apply (follow_sets_solve_productions 10 Expt4Rec.mutual_grammar
           {["A" := {["a"; "b"]}; "B" := {["a"; "b"]}]} "A" _ "A"
           [["B"; "x"]; ["a"]] [] "B" ["x"]); [|exact Hhead|exact Hprod|exact HB].
  vm_compute; reflexivity.
Defined.


(** ** expt 6/6a.py: what FIRST holds, and the FOLLOW sets as a solution *)

Lemma first_walk_within rec prod first G X G' :
  (∀ sym G X G', rec sym G = Ok (X, G') → first_within_terminals G →
     X ⊆ terminals G ∪ {[EPSILON]} ∧ first_within_terminals G' ∧
     terminals G' = terminals G) →
  first_walk rec prod first G = Ok (X, G') →
  first ⊆ terminals G ∪ {[EPSILON]} → first_within_terminals G →
  X ⊆ terminals G ∪ {[EPSILON]} ∧ first_within_terminals G' ∧ terminals G' = terminals G.
Proof.
  intros Hrec. revert first G. induction prod as [|x l IH]; intros first G; simpl.
  { intros [= <- <-] Hf HG. split_and!; [set_solver|done..]. }
  intros ([sf G1] & H1 & H2)%bind_inv Hf HG.
  destruct (Hrec _ _ _ _ H1 HG) as (Hsf & HG1 & Ht1). case_decide.
  - destruct (IH _ _ H2) as (HX & HG' & Ht'); [rewrite Ht1; set_solver|done|].
    rewrite Ht1 in *. split_and!; [done..|congruence].
  - injection H2 as <- <-. split_and!; [set_solver|done..].
Qed.

Lemma compute_first_within depth sym G X G' :
  compute_first depth sym G = Ok (X, G') → first_within_terminals G →
  X ⊆ terminals G ∪ {[EPSILON]} ∧ first_within_terminals G' ∧ terminals G' = terminals G.
Proof.
  revert sym G X G'. induction depth as [|d IH]; intros sym G X G'; [done|].
  cbn [compute_first]. destruct (first_sets G !! sym) eqn:E.
  { intros [= <- <-] HG. split_and!; [by eapply HG|done..]. }
  intros ([first G1] & H1 & [= <- <-])%bind_inv HG.
  assert (first ⊆ terminals G ∪ {[EPSILON]} ∧ first_within_terminals G1 ∧
          terminals G1 = terminals G) as (Hf & HG1 & Ht1).
  { case_decide; [injection H1 as <- <-; split_and!; [set_solver|done..]|].
    case_decide; [injection H1 as <- <-; split_and!; [set_solver|done..]|].
    destruct (dict_get sym (grammar G)); [|injection H1 as <- <-; split_and!; [set_solver|done..]].
    apply (for_each_inv_step _
             (λ acc, acc.1 ⊆ terminals G ∪ {[EPSILON]} ∧ first_within_terminals acc.2 ∧
                     terminals acc.2 = terminals G) _)
      with (s := (∅, G)) (s' := (first, G1)) in H1;
      [exact H1| |split_and!; [set_solver|done..]].
    intros prod [f0 Ga] [f1 Gb] _ (Hf0 & HGa & Hta). unfold first_production.
    cbn [fst snd] in *.
    case_decide; [intros [= <- <-]; split_and!; [set_solver|done..]|].
    intros Hw. eapply first_walk_within in Hw as (? & ? & ?); [| |by rewrite Hta|done].
    - rewrite Hta in *. split_and!; [done..|congruence].
    - intros. by eapply IH. }
  split_and!; [done| |done]. intros k Y. cbn.
  destruct (decide (sym = k)) as [->|].
  - rewrite lookup_insert_eq. intros [= <-]. by rewrite Ht1.
  - rewrite lookup_insert_ne by done. apply HG1.
Qed.

(** X12.  [compute_first] returns members of [terminals] and the epsilon
    symbol only, and memoises nothing else: when every memoised FIRST set lies
    within [terminals] and the epsilon symbol (an empty memo does), so does
    the set returned, and so does every memoised set afterwards.  A symbol
    that is neither in [terminals] nor a key of the grammar thus adds nothing.
    A member of [terminals] may be in [non_terminals] as well (a head whose
    first letter is not a capital), and such a symbol can be in a FIRST set:
    see [first_of_lowercase_head] below. *)
Theorem compute_first_holds_terminals (depth : nat) (sym : string) (G : globals)
    (X : gset string) (G' : globals)
    (HG : first_within_terminals G)
    (H : compute_first depth sym G = Ok (X, G')) :
  X ⊆ terminals G ∪ {[EPSILON]} ∧ first_within_terminals G'.
Proof. by destruct (compute_first_within _ _ _ _ _ H HG) as (? & ? & _). Qed.

Lemma compute_first_holds_terminals_witness :
  ∃ X G',
    (first_within_terminals (Globals [("A", [["a"; "A"]; ["#"]])] ∅ ∅ {["a"]} {["A"]} ∅)
     ∧ compute_first 3 "A" (Globals [("A", [["a"; "A"]; ["#"]])] ∅ ∅ {["a"]} {["A"]} ∅)
       = Ok (X, G'))
    ∧ X ⊆ terminals (Globals [("A", [["a"; "A"]; ["#"]])] ∅ ∅ {["a"]} {["A"]} ∅)
          ∪ {[EPSILON]}
    ∧ first_within_terminals G'.
Proof.
  eexists _, _.
  assert (first_within_terminals
            (Globals [("A", [["a"; "A"]; ["#"]])] ∅ ∅ {["a"]} {["A"]} ∅)) as HG.
  { intros k X HX. cbn in HX. by rewrite lookup_empty in HX. }
  split; [split; [exact HG|vm_compute; reflexivity]|].
  apply (compute_first_holds_terminals 3 "A" _ _ _ HG).
  vm_compute; reflexivity.
Defined.

(** The bound of [compute_first] is the set [terminals], not the complement of
    [non_terminals]: for the grammar file [s -> a s | b] the head [s] is in
    both, and [compute_first] returns [{s}] for it from the branch of the
    terminals. *)
Lemma first_of_lowercase_head :
  ∃ G X G',
    load (omap parse_line ["s -> a s | b"]) = Ok (G, Some "s")
    ∧ compute_first 1000 "s" G = Ok (X, G')
    ∧ X = {["s"]} ∧ "s" ∈ terminals G ∧ "s" ∈ non_terminals G.
Proof.
  eexists _, _, _.
  split; [vm_compute; reflexivity|].
  split; [vm_compute; reflexivity|].
  split; [vm_compute; reflexivity|].
  split; apply (bool_decide_unpack _); vm_compute; exact I.
Qed.

Lemma for_each_flag {A S} (l : list A) (body : A → S * bool → res (S * bool)) :
  (∀ x s c s', body x (s, c) = Ok (s', false) → c = false) →
  ∀ s c s', for_each l body (s, c) = Ok (s', false) → c = false.
Proof.
  intros Hb. induction l as [|x l IH]; intros s c s'; simpl.
  { by intros [= _ ->]. }
  intros ([s1 c1] & H1 & H2)%bind_inv. apply IH in H2 as ->. by eapply Hb.
Qed.

Lemma for_each_quiet {A S} (R : S → S → Prop) (I : S → Prop) (P : A → S → Prop)
    (l : list A) (body : A → S * bool → res (S * bool)) :
  (∀ s, R s s) → (∀ s1 s2 s3, R s1 s2 → R s2 s3 → R s1 s3) →
  (∀ s s', I s → R s s' → I s') →
  (∀ x s s', P x s → R s s' → P x s') →
  (∀ x s c s', body x (s, c) = Ok (s', false) → c = false) →
  (∀ x s s', x ∈ l → I s → body x (s, false) = Ok (s', false) → R s s' ∧ P x s') →
  ∀ s s', I s → for_each l body (s, false) = Ok (s', false) →
    R s s' ∧ ∀ x, x ∈ l → P x s'.
Proof.
  intros Hrefl Htrans Hinv Hstable Hflag.
  induction l as [|x l IH]; intros Hb s s' Hs; simpl.
  { intros [= <-]. split; [done|]. by intros x ?%elem_of_nil. }
  intros ([s1 c1] & H1 & H2)%bind_inv.
  pose proof (for_each_flag _ _ Hflag _ _ _ H2) as ->.
  apply Hb in H1 as [Hr1 Hx]; [|left|done].
  apply IH in H2 as [Hr2 Hl]; [|intros y t t' Hy; apply Hb; by right|by eapply Hinv].
  split; [by eapply Htrans|].
  intros y [->|Hy]%elem_of_cons; [by eapply Hstable|by apply Hl].
Qed.

Lemma follow_solved_stable G G' A B beta :
  follow_solved G A B beta → memo_extended G G' → follow_solved G' A B beta.
Proof.
  intros (X & F & HX & HF & Hsub & Hnull) (_ & _ & _ & Hf & _ & Hmemo).
  exists X, F. rewrite Hf. split_and!; [|done..].
  intros depth. eapply compute_first_of_sequence_stable; [apply (HX 0)|done].
Qed.

Lemma follow_walk_quiet depth A prod G c G' :
  follow_walk depth A prod (G, c) = Ok (G', false) →
  c = false ∧ memo_extended G G' ∧
  ∀ alpha B beta, prod = alpha ++ B :: beta → B ∈ non_terminals G →
    follow_solved G' A B beta.
Proof.
  revert G c. induction prod as [|B beta IH]; intros G c.
  { intros [= <- <-]. split_and!; [done|apply memo_extended_refl|].
    intros alpha B beta Heq. by destruct alpha. }
  cbn [follow_walk]. destruct (decide (B ∈ non_terminals G)) as [HB|HB].
  2:{ intros H. apply IH in H as (-> & He & Hrest). split_and!; [done..|].
      intros [|y alpha] B' beta' [= -> ->] HB'; [done|]. by eapply Hrest. }
  intros ([first_beta G1] & Hseq & (follow_B & HfB & H)%bind_inv)%bind_inv.
  pose proof (compute_first_of_sequence_memo_extended _ _ _ _ _ Hseq) as He1.
  apply getitem_inv in HfB.
  destruct (decide (first_beta ∖ {[EPSILON]} ⊆ follow_B)) as [Hsub|Hsub].
  2:{ exfalso. destruct (bool_decide (beta = []) || bool_decide (EPSILON ∈ first_beta)).
      - apply bind_inv in H as (fA & _ & (fB & _ & H)%bind_inv).
        case_decide; by apply IH in H as [? _].
      - by apply IH in H as [? _]. }
  assert (∀ G2, memo_extended G1 G2 → non_terminals G2 = non_terminals G1 →
            (∀ alpha B' beta', beta = alpha ++ B' :: beta' → B' ∈ non_terminals G1 →
               follow_solved G2 A B' beta') →
            (beta = [] ∨ EPSILON ∈ first_beta →
               ∃ follow_A, follow_sets G1 !! A = Some follow_A ∧ follow_A ⊆ follow_B) →
            memo_extended G G2 ∧
            ∀ alpha B' beta', B :: beta = alpha ++ B' :: beta' → B' ∈ non_terminals G →
              follow_solved G2 A B' beta') as Hfinish.
  { intros G2 He2 Hn2 Hrest Hnull. split; [by eapply memo_extended_trans|].
    destruct He1 as (_ & _ & Hn1 & _).
    intros [|y alpha] B' beta' [= -> ->] HB';
      [|apply (Hrest alpha B' beta' eq_refl); by rewrite Hn1].
    destruct He2 as (_ & _ & _ & Hf2 & _ & Hm2).
    exists first_beta, follow_B. rewrite Hf2. split_and!; [|done..].
    intros d. by eapply compute_first_of_sequence_stable. }
  destruct (bool_decide (beta = []) || bool_decide (EPSILON ∈ first_beta)) eqn:Enull.
  - apply bind_inv in H as (follow_A & HfA & (follow_B' & HfB' & H)%bind_inv).
    apply getitem_inv in HfA. apply getitem_inv in HfB'.
    assert (follow_B' = follow_B) as -> by congruence.
    destruct (decide (follow_A ⊆ follow_B)); [|by apply IH in H as [? _]].
    apply IH in H as (-> & He2 & Hrest). split; [done|].
    apply Hfinish; [done|by destruct He2 as (_ & _ & ? & _)|done|eauto].
  - apply IH in H as (-> & He2 & Hrest). split; [done|].
    apply Hfinish; [done|by destruct He2 as (_ & _ & ? & _)|done|].
    intros Hor. exfalso. apply orb_false_iff in Enull as [E1 E2].
    apply bool_decide_eq_false_1 in E1. apply bool_decide_eq_false_1 in E2. tauto.
Qed.

Lemma follow_pass_quiet depth G G' :
  follow_pass depth G = Ok (G', false) →
  memo_extended G G' ∧
  ∀ A prods alpha B beta, (A, prods) ∈ grammar G → alpha ++ B :: beta ∈ prods →
    B ∈ non_terminals G → follow_solved G' A B beta.
Proof.
  unfold follow_pass. intros H.
  assert (∀ A, ∀ (prod : production) s c s',
            follow_walk depth A prod (s, c) = Ok (s', false) → c = false) as Hwalk.
  { intros A prod s c s' Hw. by apply follow_walk_quiet in Hw as [? _]. }
  apply (for_each_quiet memo_extended (λ Ga, non_terminals Ga = non_terminals G)
           (λ '(A, prods) Ga, ∀ alpha B beta, alpha ++ B :: beta ∈ prods →
                                B ∈ non_terminals G → follow_solved Ga A B beta))
    in H as [He Hall].
  - split; [done|]. intros A prods alpha B beta HA. by apply (Hall (A, prods) HA).
  - apply memo_extended_refl.
  - apply memo_extended_trans.
  - intros s s' Hs (_ & _ & Hn & _). congruence.
  - intros [A prods] s s' Hp Hr alpha B beta Hin HB. eapply follow_solved_stable; [|done].
    by apply (Hp alpha).
  - intros [A prods] s c s' Hrun. eapply for_each_flag; [|exact Hrun]. apply Hwalk.
  - intros [A prods] s s' _ Hs Hrun.
    apply (for_each_quiet memo_extended (λ Ga, non_terminals Ga = non_terminals G)
             (λ prod Ga, ∀ alpha B beta, prod = alpha ++ B :: beta →
                           B ∈ non_terminals G → follow_solved Ga A B beta))
      in Hrun as [He Hall].
    + split; [done|]. intros alpha B beta Hin HB.
      exact (Hall _ Hin alpha B beta eq_refl HB).
    + apply memo_extended_refl.
    + apply memo_extended_trans.
    + intros t t' Ht (_ & _ & Hn & _). congruence.
    + intros prod t t' Hp Hr alpha B beta Heq HB. eapply follow_solved_stable; [|done].
      by apply (Hp alpha).
    + apply Hwalk.
    + intros prod t t' _ Ht Hw. apply follow_walk_quiet in Hw as (_ & He & Hsolved).
      split; [done|]. intros alpha B beta Heq HB. eapply Hsolved; [done|]. by rewrite Ht.
    + done.
  - done.
Qed.

Lemma follow_walk_same depth A prod st st' :
  follow_walk depth A prod st = Ok st' →
  grammar st'.1 = grammar st.1 ∧ non_terminals st'.1 = non_terminals st.1.
Proof.
  revert st. induction prod as [|B beta IH]; intros [G c]; cbn [follow_walk].
  { by intros [= <-]. }
  destruct (decide (B ∈ non_terminals G)); [|apply IH].
  intros ([first_beta G1] & Hseq & (follow_B & _ & Hr)%bind_inv)%bind_inv.
  apply compute_first_of_sequence_memo_extended in Hseq as (Hg & _ & Hn & _).
  cbn [fst]. rewrite <- Hg, <- Hn.
  destruct (decide (first_beta ∖ {[EPSILON]} ⊆ follow_B));
    destruct (bool_decide (beta = []) || bool_decide (EPSILON ∈ first_beta)).
  all: try (apply bind_inv in Hr as (fA & _ & (fB & _ & Hr)%bind_inv);
            destruct (decide (fA ⊆ fB))).
  all: by apply IH in Hr.
Qed.

Lemma follow_pass_same depth G G' c :
  follow_pass depth G = Ok (G', c) →
  grammar G' = grammar G ∧ non_terminals G' = non_terminals G.
Proof.
  unfold follow_pass. intros H.
  apply (for_each_inv_step _
           (λ st, grammar st.1 = grammar G ∧ non_terminals st.1 = non_terminals G))
    in H; [done| |done].
  intros [A prods] st st' _ Hst.
  apply (for_each_inv_step _
           (λ st, grammar st.1 = grammar G ∧ non_terminals st.1 = non_terminals G)); [|done].
  intros prod t t' _ [Hg Hn] Hw. apply follow_walk_same in Hw as [? ?]. split; congruence.
Qed.

Lemma while_changed_last_inv {S} (P : S → Prop) budget (pass : S → res (S * bool)) :
  (∀ s s' c, P s → pass s = Ok (s', c) → P s') →
  ∀ s s', P s → while_changed budget pass s = Ok s' →
    ∃ s0, P s0 ∧ pass s0 = Ok (s', false).
Proof.
  intros Hp. induction budget as [|b IH]; intros s s' Hs; [done|]. simpl.
  intros ([s1 c] & H1 & H)%bind_inv. destruct c.
  - eapply IH; [|done]. by eapply Hp.
  - injection H as <-. eauto.
Qed.

(** X13.  When [compute_all_follow_sets] returns, the FOLLOW sets it leaves
    satisfy the FOLLOW equations: for an occurrence of a nonterminal [B] in a
    production [A -> alpha B beta], FIRST of [beta] without the epsilon
    symbol lies within FOLLOW of [B], and when [beta] is empty or its FIRST
    holds the epsilon symbol, FOLLOW of [A] lies within FOLLOW of [B].  FIRST
    of [beta] is what [compute_first_of_sequence] returns in the globals that
    are left, with any recursion limit and without changing them. *)
Theorem follow_sets_solve_productions6
    (budget depth : nat) (start_symbol : string) (G G' : globals)
    (A : string) (prods : list production)
    (alpha : list string) (B : string) (beta : list string)
    (H : compute_all_follow_sets budget depth start_symbol G = Ok G')
    (HA : (A, prods) ∈ grammar G) (Hprod : alpha ++ B :: beta ∈ prods)
    (HB : B ∈ non_terminals G) :
  ∃ first_beta follow_B,
    (∀ depth', compute_first_of_sequence (S depth') beta G' = Ok (first_beta, G')) ∧
    follow_sets G' !! B = Some follow_B ∧
    first_beta ∖ {[EPSILON]} ⊆ follow_B ∧
    (beta = [] ∨ EPSILON ∈ first_beta →
     ∃ follow_A, follow_sets G' !! A = Some follow_A ∧ follow_A ⊆ follow_B).
Proof.
  unfold compute_all_follow_sets in H.
  apply bind_inv in H as (start_follow & _ & H).
  apply (while_changed_last_inv
           (λ Ga, grammar Ga = grammar G ∧ non_terminals Ga = non_terminals G))
    in H as (G0 & [Hg0 Hn0] & Hlast); [| |done].
  2:{ intros s s' c [Hg Hn] Hp. apply follow_pass_same in Hp as [? ?]. split; congruence. }
  apply follow_pass_quiet in Hlast as [_ Hsolved].
  apply (Hsolved A prods alpha B beta); [by rewrite Hg0|done|by rewrite Hn0].
Qed.

Lemma follow_sets_solve_productions6_witness :
  ∃ G' prods,
    (compute_all_follow_sets 100 1000 "E" expression_analysed = Ok G'
     ∧ ("E", prods) ∈ grammar expression_analysed
     ∧ ["T"] ++ "E'" :: [] ∈ prods
     ∧ "E'" ∈ non_terminals expression_analysed)
    ∧ ∃ first_beta follow_B,
        (∀ depth', compute_first_of_sequence (S depth') [] G' = Ok (first_beta, G')) ∧
        follow_sets G' !! "E'" = Some follow_B ∧
        first_beta ∖ {[EPSILON]} ⊆ follow_B ∧
        ((@nil string) = [] ∨ EPSILON ∈ first_beta →
         ∃ follow_A, follow_sets G' !! "E" = Some follow_A ∧ follow_A ⊆ follow_B).
Proof.
  eexists _, [["T"; "E'"]].
  assert (("E", [["T"; "E'"]]) ∈ grammar expression_analysed) as HA
    by (apply (bool_decide_unpack _); vm_compute; exact I).
  assert (["T"] ++ "E'" :: [] ∈ [["T"; "E'"]]) as Hprod
    by (apply (bool_decide_unpack _); vm_compute; exact I).
  assert ("E'" ∈ non_terminals expression_analysed) as HB
    by (apply (bool_decide_unpack _); vm_compute; exact I).
  split; [split_and!; [vm_compute; reflexivity|exact HA|exact Hprod|exact HB]|].
  apply (follow_sets_solve_productions6 100 1000 "E" expression_analysed _ "E"
           [["T"; "E'"]] ["T"] "E'" []); [|exact HA|exact Hprod|exact HB].
  vm_compute; reflexivity.
Defined.

(** ** expt 5/main.py: what the elimination keeps and removes *)

Import Expt5.


Lemma dict_set_elem {V} k (v : V) (d : dict V) k' v' :
  (k', v') ∈ dict_set k v d → (k', v') ∈ d ∨ (k', v') = (k, v).
Proof.
  induction d as [|[j w] d IH]; simpl.
  { intros ->%list_elem_of_singleton. by right. }
  case_decide.
  - intros [->|?]%elem_of_cons; [by right|left; by right].
  - intros [->|[?|?]%IH]%elem_of_cons; [left; left|left; by right|by right].
Qed.

Lemma dict_set_fresh {V} k (v : V) (d : dict V) : k ∉ keys d → dict_set k v d = d ++ [(k, v)].
Proof.
  induction d as [|[j w] d IH]; simpl; [done|]. intros [Hne Hk]%not_elem_of_cons.
  rewrite decide_False by done. by rewrite IH.
Qed.

Lemma dict_get_elem {V} k (v : V) (d : dict V) :
  NoDup (keys d) → (k, v) ∈ d → dict_get k d = Some v.
Proof.
  induction d as [|[j w] d IH]; simpl; [by intros _ ?%elem_of_nil|].
  intros [Hj Hd]%NoDup_cons [[= -> ->]|Hin]%elem_of_cons.
  - by rewrite decide_True.
  - rewrite decide_False; [by apply IH|]. intros ->. apply Hj. by eapply keys_elem.
Qed.

Lemma existsb_false {A} (f : A → bool) (l : list A) :
  existsb f l = false ↔ ∀ x, x ∈ l → f x = false.
Proof.
  induction l as [|y l IH]; simpl.
  - split; [by intros _ x ?%elem_of_nil|done].
  - rewrite orb_false_iff, IH. split.
    + intros [? Hl] x [->|?]%elem_of_cons; auto.
    + intros H. split; [apply H; left|]. intros x Hx. apply H. by right.
Qed.

Lemma filter_starts_nil nt (prods : list production) :
  existsb (starts_with nt) prods = false →
  filter (λ p, starts_with nt p = true) prods = [].
Proof.
  rewrite existsb_false. intros H. induction prods as [|p prods IH]; [done|].
  rewrite filter_cons. rewrite decide_False.
  - apply IH. intros x Hx. apply H. by right.
  - rewrite (H p); [done|left].
Qed.

Lemma rewrite_plain g new_grammar nt :
  left_recursive_in g nt = false →
  rewrite_nonterminal g new_grammar nt = dict_set nt (productions_of nt g) new_grammar.
Proof.
  unfold left_recursive_in, rewrite_nonterminal. intros H.
  by rewrite (filter_starts_nil _ _ H).
Qed.

Lemma not_recursive_elem g nt prods :
  NoDup (keys g) → immediately_left_recursive g = false → (nt, prods) ∈ g →
  productions_of nt g = prods ∧ left_recursive_in g nt = false.
Proof.
  intros Hnd Hg Hin. unfold immediately_left_recursive in Hg.
  assert (productions_of nt g = prods) as Hp.
  { unfold productions_of. by rewrite (dict_get_elem _ _ _ Hnd Hin). }
  split; [done|]. unfold left_recursive_in. rewrite Hp.
  rewrite existsb_false in Hg. apply (Hg (nt, prods) Hin).
Qed.

(** X14.  A grammar none of whose productions starts with its own left-hand side
    is returned as it is by [eliminate_left_recursion]: the same keys in the
    same order, each with the same productions.  (The keys of a [dict] are
    distinct.) *)
Theorem eliminate_left_recursion_keeps_plain (g : grammar_dict)
    (Hkeys : NoDup (keys g))
    (Hplain : immediately_left_recursive g = false) :
  eliminate_left_recursion g = g.
Proof.
  unfold eliminate_left_recursion.
  assert (∀ g1 g2, g = g1 ++ g2 → foldl (rewrite_nonterminal g) g1 (keys g2) = g) as Hgen.
  { intros g1 g2. revert g1. induction g2 as [|[nt prods] g2 IH]; intros g1 Heq.
    { by rewrite app_nil_r in Heq. }
    cbn [keys fmap list_fmap foldl fst].
    destruct (not_recursive_elem g nt prods Hkeys Hplain) as [Hp Hn].
    { rewrite Heq. apply elem_of_app. right. left. }
    rewrite (rewrite_plain _ _ _ Hn), Hp. rewrite dict_set_fresh.
    - apply IH. by rewrite <- app_assoc.
    - rewrite Heq in Hkeys. unfold keys in Hkeys. rewrite fmap_app in Hkeys.
      apply NoDup_app in Hkeys as (_ & Hdis & _). intros Hin.
      apply (Hdis nt Hin). left. }
  by apply (Hgen [] g).
Qed.

Lemma primed_ne nt : nt +:+ "'" ≠ nt.
Proof.
  induction nt as [|a nt IH]; simpl; [done|]. by intros [= ?].
Qed.

Lemma primed_not_epsilon nt : "ε" ≠ nt +:+ "'".
Proof. destruct nt as [|a [|b [|c nt]]]; intros H; discriminate H. Qed.

Lemma foldl_inv {A B} (P : B → Prop) (f : B → A → B) (l : list A) b :
  (∀ x b, x ∈ l → P b → P (f b x)) → P b → P (foldl f b l).
Proof.
  revert b. induction l as [|x l IH]; intros b Hf Hb; [done|]. simpl.
  apply IH; [|apply Hf; [left|done]]. intros y b' Hy. apply Hf. by right.
Qed.

(** X15.  When every production [nt -> nt x ...] that starts with its own left-hand
    side goes on with a symbol [x], and [x] is not the primed name [nt'], no
    production of the grammar that [eliminate_left_recursion] returns starts
    with its own left-hand side.  (The unit production [nt -> nt] is what the
    hypothesis rules out, with a tail that starts with [nt'].) *)
Theorem eliminate_left_recursion_sound (g : grammar_dict)
    (Hguard : Forall (λ nt, Forall (λ p, tail_guarded nt p = true) (productions_of nt g))
                (keys g)) :
  immediately_left_recursive (eliminate_left_recursion g) = false.
Proof.
  assert (∀ nt rest, nt ∈ keys g → nt :: rest ∈ productions_of nt g →
            ∃ x, head rest = Some x ∧ x ≠ nt +:+ "'") as Htail.
  { intros nt rest Hnt Hin. rewrite Forall_forall in Hguard.
    specialize (Hguard nt Hnt). rewrite Forall_forall in Hguard.
    specialize (Hguard _ Hin). simpl in Hguard.
    rewrite bool_decide_eq_false_2 in Hguard by (by intros ?).
    destruct rest as [|y rest]; [done|]. exists y. split; [done|].
    by apply bool_decide_eq_true_1 in Hguard. }
  clear Hguard.
  unfold immediately_left_recursive. apply existsb_false.
  unfold eliminate_left_recursion.
  apply (foldl_inv (λ acc, ∀ e, e ∈ acc →
                      (let '(nt, prods) := e in existsb (starts_with nt) prods) = false)).
  2:{ by intros e ?%elem_of_nil. }
  intros nt acc Hnt Hacc. unfold rewrite_nonterminal.
  destruct (filter (λ p, starts_with nt p = true) (productions_of nt g))
    as [|p0 recursive] eqn:Hrec.
  - cbn [fmap list_fmap]. intros [k v] [?| [= -> ->]]%dict_set_elem; [by apply (Hacc (k, v))|].
    apply existsb_false. intros p Hp.
    destruct (starts_with nt p) eqn:E; [|done].
    assert (p ∈ filter (λ p, starts_with nt p = true) (productions_of nt g)) as Hin
      by by apply list_elem_of_filter.
    rewrite Hrec in Hin. by apply elem_of_nil in Hin.
  - rewrite <- Hrec. clear p0 recursive Hrec.
    destruct (drop 1 <$> filter (λ p, starts_with nt p = true) (productions_of nt g))
      as [|a0 alpha] eqn:Ha.
    { intros [k v] [?| [= -> ->]]%dict_set_elem; [by apply (Hacc (k, v))|].
      apply existsb_false. intros p Hp.
      destruct (starts_with nt p) eqn:E; [|done].
      assert (drop 1 p ∈ drop 1 <$> filter (λ p, starts_with nt p = true)
                (productions_of nt g)) as Hin.
      { apply list_elem_of_fmap. exists p. split; [done|]. by apply list_elem_of_filter. }
      rewrite Ha in Hin. by apply elem_of_nil in Hin. }
    rewrite <- Ha. clear a0 alpha Ha.
    intros [k v] [[?| [= -> ->]]%dict_set_elem| [= -> ->]]%dict_set_elem; [by apply (Hacc (k, v))| |].
    + apply existsb_false.
      destruct (filter (λ p, starts_otherwise nt p = true) (productions_of nt g))
        as [|b0 beta] eqn:Hb.
      * intros p ->%list_elem_of_singleton. simpl.
        apply bool_decide_eq_false_2, primed_ne.
      * rewrite <- Hb. intros p (q & -> & [Hq _]%list_elem_of_filter)%list_elem_of_fmap.
        destruct q as [|x q]; [done|]. simpl in *.
        apply bool_decide_eq_true_1 in Hq. by apply bool_decide_eq_false_2.
    + apply existsb_false. intros p [Hp| ->%list_elem_of_singleton]%elem_of_app.
      * apply list_elem_of_fmap in Hp as (q & -> & Hq).
        apply list_elem_of_fmap in Hq as (p0 & -> & [Hs Hin]%list_elem_of_filter).
        destruct p0 as [|x rest]; [done|]. simpl in Hs. apply bool_decide_eq_true_1 in Hs.
        subst x. destruct (Htail nt rest Hnt Hin) as (y & Hy & Hne).
        simpl. rewrite drop_0. destruct rest as [|z rest]; [done|].
        injection Hy as ->. simpl. by apply bool_decide_eq_false_2.
      * simpl. apply bool_decide_eq_false_2, primed_not_epsilon.
Qed.

Lemma rewrite_nonterminal_keys g acc nt k :
  k ∈ keys (rewrite_nonterminal g acc nt) ↔
  k ∈ keys acc ∨ k = nt ∨ (left_recursive_in g nt = true ∧ k = nt +:+ "'").
Proof.
  destruct (left_recursive_in g nt) eqn:E.
  - unfold left_recursive_in in E. apply existsb_exists in E as (p & Hp & Hs).
    unfold rewrite_nonterminal.
    destruct (drop 1 <$> filter (λ p, starts_with nt p = true) (productions_of nt g))
      as [|a0 alpha] eqn:Ha.
    { apply fmap_nil_inv in Ha.
      assert (p ∈ filter (λ p, starts_with nt p = true) (productions_of nt g)) as Hin.
      { apply list_elem_of_filter. split; [done|]. by apply list_elem_of_In. }
      rewrite Ha in Hin. by apply elem_of_nil in Hin. }
    rewrite !keys_dict_set. tauto.
  - rewrite (rewrite_plain _ _ _ E), keys_dict_set. split; [tauto|].
    intros [?|[?|[? _]]]; [tauto|tauto|done].
Qed.

(** X16.  The keys of the grammar that [eliminate_left_recursion] returns are the
    keys of the grammar it is given together with the primed name [nt'] of
    every key [nt] one of whose productions starts with [nt]: no nonterminal
    is lost, and a new one appears only for a left-recursive one. *)
Theorem eliminate_left_recursion_heads (g : grammar_dict) (k : string) :
  k ∈ keys (eliminate_left_recursion g) ↔
  k ∈ keys g ∨ ∃ nt, nt ∈ keys g ∧ left_recursive_in g nt = true ∧ k = nt +:+ "'".
Proof.
  unfold eliminate_left_recursion.
  assert (∀ l acc, k ∈ keys (foldl (rewrite_nonterminal g) acc l) ↔
            k ∈ keys acc ∨ k ∈ l ∨
            ∃ nt, nt ∈ l ∧ left_recursive_in g nt = true ∧ k = nt +:+ "'") as Hgen.
  { induction l as [|nt l IH]; intros acc; cbn [foldl].
    - split; [by left|]. intros [?|[?%elem_of_nil|(? & ?%elem_of_nil & _)]]; done.
    - rewrite IH, rewrite_nonterminal_keys. split.
      + intros [[?|[->|[? ->]]]|[?|(nt' & ? & ? & ->)]].
        * by left.
        * right. left. left.
        * right. right. exists nt. split; [left|done].
        * right. left. by right.
        * right. right. exists nt'. split; [by right|done].
      + intros [?|[[->|?]%elem_of_cons|(nt' & [->|?]%elem_of_cons & ? & ->)]].
        * left. by left.
        * left. right. by left.
        * right. by left.
        * left. right. right. done.
        * right. right. exists nt'. done. }
  rewrite Hgen. split.
  - intros [?%elem_of_nil|[?|?]]; [done|by left|by right].
  - intros [?|?]; right; [by left|by right].
Qed.

Lemma eliminate_left_recursion_keeps_plain_witness :
  (NoDup (keys Expt4Rec.mutual_grammar)
   ∧ immediately_left_recursive Expt4Rec.mutual_grammar = false)
  ∧ eliminate_left_recursion Expt4Rec.mutual_grammar = Expt4Rec.mutual_grammar.
Proof.
  assert (NoDup (keys Expt4Rec.mutual_grammar)) as H1
    by (apply (bool_decide_unpack _); vm_compute; exact I).
  assert (immediately_left_recursive Expt4Rec.mutual_grammar = false) as H2
    by (vm_compute; reflexivity).
  split; [split; [exact H1|exact H2]|].
  apply (eliminate_left_recursion_keeps_plain Expt4Rec.mutual_grammar H1 H2).
Defined.

Lemma eliminate_left_recursion_sound_witness :
  Forall (λ nt, Forall (λ p, tail_guarded nt p = true)
                  (productions_of nt expression_left_recursive))
    (keys expression_left_recursive)
  ∧ immediately_left_recursive (eliminate_left_recursion expression_left_recursive) = false.
Proof.
  assert (Forall (λ nt, Forall (λ p, tail_guarded nt p = true)
                          (productions_of nt expression_left_recursive))
            (keys expression_left_recursive)) as H
    by (apply (bool_decide_unpack _); vm_compute; exact I).
  split; [exact H|].
  apply (eliminate_left_recursion_sound expression_left_recursive H).
Defined.

(** ** expt 4/first_n_follow.py: the recursive FIRST returns, within the iterative one *)

Import Expt4Rec.


Lemma cal_walk_returns rec productions visiting prod first memo :
  returns_balanced rec visiting →
  ∃ X memo' e, cal_walk rec productions prod first (memo, visiting)
               = Ok (X, (memo', visiting), e) ∧ memo ⊆ memo'.
Proof.
  intros Hrec. revert first memo. induction prod as [|x prod IH]; intros first memo; simpl.
  { by eexists _, _, _. }
  case_decide; [apply IH|].
  destruct (dict_mem x productions); [|by eexists _, _, _].
  destruct (Hrec x memo) as (X & memo1 & -> & Hsub). cbn [mbind res_bind].
  case_decide; [|by eexists _, _, _].
  destruct (IH (first ∪ X ∖ {[EPSILON]}) memo1) as (X' & memo2 & e & -> & Hsub2).
  eexists _, _, _. split; [done|]. by etrans.
Qed.

Lemma cal_production_returns rec productions visiting prod first memo :
  returns_balanced rec visiting →
  ∃ X memo', cal_production rec productions prod (first, (memo, visiting))
             = Ok (X, (memo', visiting)) ∧ memo ⊆ memo'.
Proof.
  intros Hrec. unfold cal_production. destruct prod as [|x prod]; [by eexists _, _|].
  destruct (cal_walk_returns rec productions visiting (x :: prod) first memo Hrec)
    as (X & memo' & e & -> & Hsub).
  cbn [mbind res_bind]. by eexists _, _.
Qed.

Lemma cal_productions_return rec productions visiting alternatives first memo :
  returns_balanced rec visiting →
  ∃ X memo', for_each alternatives (cal_production rec productions) (first, (memo, visiting))
             = Ok (X, (memo', visiting)) ∧ memo ⊆ memo'.
Proof.
  intros Hrec. revert first memo.
  induction alternatives as [|prod l IH]; intros first memo; cbn [for_each].
  { by eexists _, _. }
  destruct (cal_production_returns rec productions visiting prod first memo Hrec)
    as (X & memo1 & -> & Hsub).
  cbn [mbind res_bind]. destruct (IH X memo1) as (X' & memo2 & -> & Hsub2).
  eexists _, _. split; [done|]. by etrans.
Qed.

Lemma dict_get_Some_key {V} (d : dict V) k v : dict_get k d = Some v → k ∈ keys d.
Proof.
  induction d as [|[j w] d IH]; simpl; [done|]. case_decide.
  - intros _. subst. left.
  - intros ?%IH. by right.
Qed.

Lemma cal_first_balanced productions depth visiting :
  unvisited productions visiting < depth →
  returns_balanced (cal_first depth productions) visiting.
Proof.
  revert visiting. induction depth as [|d IH]; intros visiting Hd s memo; [lia|].
  cbn [cal_first]. destruct (memo !! s) as [known|] eqn:Hmemo; [by eexists _, _|].
  destruct (dict_get s productions) as [alternatives|] eqn:Hget; [|by eexists _, _].
  case_decide as Hvis; [by eexists _, _|].
  apply dict_get_Some_key in Hget.
  assert (unvisited productions (visiting ∪ {[s]}) < d) as Hd'.
  { unfold unvisited in *.
    assert (list_to_set (keys productions) ∖ (visiting ∪ {[s]})
            ⊂ (list_to_set (keys productions) ∖ visiting : gset string)) as Hsub.
    { assert (s ∈ (list_to_set (keys productions) : gset string))
        by by apply elem_of_list_to_set.
      split; [set_solver|]. intros Hsub. specialize (Hsub s). set_solver. }
    apply subset_size in Hsub. lia. }
  destruct (cal_productions_return (cal_first d productions) productions (visiting ∪ {[s]})
              alternatives ∅ memo (IH _ Hd')) as (X & memo' & -> & Hsub).
  cbn [mbind res_bind]. exists X, (<[s := X]> memo').
  replace ((visiting ∪ {[s]}) ∖ {[s]}) with visiting by set_solver.
  split; [done|]. by apply insert_subseteq_r.
Qed.

(** X17.  [cal_first] returns on every grammar, left-recursive and cyclic ones
    included, as soon as the nested calls allowed exceed the number of keys
    that are not being visited.  It hands [visiting] back as it got it, and
    what was memoised stays memoised. *)
Theorem cal_first_returns (productions : grammar_dict) (depth : nat) (s : string)
    (memo : sets) (visiting : gset string)
    (Hdepth : unvisited productions visiting < depth) :
  ∃ X memo', cal_first depth productions s (memo, visiting) = Ok (X, (memo', visiting)) ∧
             memo ⊆ memo'.
Proof. by apply cal_first_balanced. Qed.


Section Under.
Variables (g : grammar_dict) (solved : sets).
Hypothesis solved_fixed :
  ∀ nt prods prod, (nt, prods) ∈ g → prod ∈ prods →
    Expt4.first_production g nt prod (solved, false) = Ok (solved, false).
Hypothesis solved_covers : ∀ k, k ∈ keys g → is_Some (solved !! k).

(** A call of [cal_first] on a key whose result lies within [solved]. *)
Local Abbreviation rec_under rec :=
  (∀ sym st X st', rec sym st = Ok (X, st') → sym ∈ keys g → memo_under solved st.1 →
     memo_under solved st'.1 ∧ ∃ Y, solved !! sym = Some Y ∧ X ⊆ Y).

Lemma cal_walk_under rec nt F prod d first st X st' e :
  rec_under rec → solved !! nt = Some F →
  Expt4.first_walk g nt prod solved false = Ok (solved, false, d) →
  cal_walk rec g prod first st = Ok (X, st', e) →
  first ⊆ F → memo_under solved st.1 →
  X ⊆ F ∧ memo_under solved st'.1 ∧ (e = true → d = true).
Proof.
  intros Hrec HF. revert first st. induction prod as [|x prod IH]; intros first st.
  { simpl. by intros [= <-] [= <- <- <-]. }
  cbn [Expt4.first_walk cal_walk].
  intros (sf & Hsf & (before & Hb & Hw)%bind_inv)%bind_inv.
  apply getitem_inv in Hb. rewrite HF in Hb. injection Hb as <-.
  assert (Expt4.size_changed F (F ∪ sf ∖ {[Expt4.EPSILON]}) false = false) as Hc.
  { destruct (decide (Expt4.EPSILON ∈ sf)).
    - by apply first_walk_steady in Hw as [? _].
    - by injection Hw as _ ? _. }
  assert (sf ∖ {[Expt4.EPSILON]} ⊆ F ∧ <[nt := F ∪ sf ∖ {[Expt4.EPSILON]}]> solved = solved)
    as [Hsub Hfs].
  { clear Hw. revert Hc. unfold Expt4.size_changed.
    destruct (decide (size (F ∪ sf ∖ {[Expt4.EPSILON]}) = size F)) as [Hs|]; [|done].
    intros _. apply same_size_union in Hs as [Hs1 Hs2]. split; [done|].
    rewrite Hs1. by apply insert_id. }
  rewrite Hfs, Hc in Hw. unfold Expt4.symbol_first_of in Hsf.
  change Expt4.EPSILON with EPSILON in *.
  destruct (decide (x = EPSILON)) as [->|Hx].
  { injection Hsf as <-. rewrite decide_True in Hw by set_solver. by apply IH. }
  unfold Expt4.is_nonterminal in Hsf. destruct (dict_mem x g) eqn:Ex.
  - apply getitem_inv in Hsf.
    intros ([sub_first st1] & Hr & Hcal)%bind_inv Hfirst Hst.
    apply Hrec in Hr as (Hst1 & Y & HY & Hsubf); [|by apply dict_mem_true|done].
    rewrite Hsf in HY. injection HY as <-.
    destruct (decide (EPSILON ∈ sub_first)).
    + rewrite decide_True in Hw by set_solver.
      eapply IH; [done..|set_solver|done].
    + injection Hcal as <- <- <-. split_and!; [set_solver|done..].
  - injection Hsf as <-. intros [= <- <- <-] Hfirst Hst. split_and!; [set_solver|done..].
Qed.

Lemma cal_production_under rec nt prods F prod acc X st' :
  rec_under rec → (nt, prods) ∈ g → prod ∈ prods → solved !! nt = Some F →
  cal_production rec g prod acc = Ok (X, st') →
  acc.1 ⊆ F → memo_under solved acc.2.1 →
  X ⊆ F ∧ memo_under solved st'.1.
Proof.
  intros Hrec Hnt Hprod HF. destruct acc as [first st]. cbn [fst snd].
  pose proof (solved_fixed nt prods prod Hnt Hprod) as Hfix.
  unfold Expt4.first_production in Hfix. unfold cal_production.
  intros Hcal Hfirst Hst.
  assert (Expt4.add_epsilon nt (solved, false) = Ok (solved, false) →
          Expt4.EPSILON ∈ F) as Hadd.
  { unfold Expt4.add_epsilon. rewrite (getitem_ok _ _ _ HF). cbn [mbind res_bind].
    by destruct (decide (Expt4.EPSILON ∈ F)). }
  destruct (decide (prod = [Expt4.EPSILON])) as [->|Hne].
  - apply Hadd in Hfix. cbn in Hcal. rewrite decide_True in Hcal by done.
    injection Hcal as <- <-. split; [|done].
    change Expt4.EPSILON with EPSILON in *. set_solver.
  - cbn [fst snd] in Hfix. apply bind_inv in Hfix as ([[fs1 c1] d] & Hw & Hfix).
    assert (fs1 = solved ∧ c1 = false ∧ (d = true → Expt4.EPSILON ∈ F)) as (-> & -> & Hd).
    { destruct d.
      - pose proof Hfix as Hfix'. apply add_epsilon_steady in Hfix' as [-> ->].
        split_and!; [done..|]. intros _. by apply Hadd.
      - by injection Hfix as -> ->. }
    destruct prod as [|x prod].
    { injection Hcal as <- <-. split; [|done].
      injection Hw as <-. change Expt4.EPSILON with EPSILON in *.
      specialize (Hd eq_refl). set_solver. }
    apply bind_inv in Hcal as ([[first' st1] e] & Hcal & [= <- <-]).
    eapply cal_walk_under in Hcal as (Hsub & Hst1 & He); [|done..].
    split; [|done]. destruct e; [|done].
    specialize (Hd (He eq_refl)). change Expt4.EPSILON with EPSILON in *. set_solver.
Qed.

Lemma dict_get_Some_elem {V} (d : dict V) k v : dict_get k d = Some v → (k, v) ∈ d.
Proof.
  induction d as [|[j w] d IH]; simpl; [done|]. case_decide.
  - intros [= ->]. subst. left.
  - intros ?%IH. by right.
Qed.

Lemma memo_under_insert memo k X Y :
  memo_under solved memo → solved !! k = Some Y → X ⊆ Y →
  memo_under solved (<[k := X]> memo).
Proof.
  intros Hm HY Hsub j Z. destruct (decide (k = j)) as [<-|].
  - rewrite lookup_insert_eq. intros [= <-]. eauto.
  - rewrite lookup_insert_ne by done. apply Hm.
Qed.

Lemma cal_first_under depth : rec_under (cal_first depth g).
Proof.
  induction depth as [|d IH]; intros s [memo visiting] X st'; [done|].
  cbn [cal_first fst]. destruct (memo !! s) as [known|] eqn:Hmemo.
  { intros [= <- <-] _ Hst. split; [done|]. by apply Hst. }
  intros Hrun Hkey Hst. destruct (solved_covers s Hkey) as [F HF].
  destruct (dict_get s g) as [alternatives|] eqn:Hget.
  2:{ injection Hrun as <- <-. exfalso. clear -Hget Hkey.
      induction g as [|[j w] g' IHg]; simpl in *; [by apply elem_of_nil in Hkey|].
      case_decide; [done|]. apply elem_of_cons in Hkey as [?|?]; [done|by apply IHg]. }
  apply dict_get_Some_elem in Hget.
  case_decide.
  { injection Hrun as <- <-. split; [done|]. exists F. split; [done|set_solver]. }
  apply bind_inv in Hrun as ([first [memo' visiting']] & Hrun & [= <- <-]).
  assert (first ⊆ F ∧ memo_under solved memo') as [Hfirst Hmemo'].
  { revert Hrun.
    apply (for_each_inv_step _ (λ acc, acc.1 ⊆ F ∧ memo_under solved acc.2.1)
             alternatives) with (s := (∅, (memo, visiting ∪ {[s]})))
             (s' := (first, (memo', visiting'))); [|split; [set_solver|done]].
    intros prod acc [X1 st1] Hprod [Hacc Hm] Hstep.
    by eapply cal_production_under in Hstep. }
  split; [|eauto]. by eapply memo_under_insert.
Qed.
End Under.

(** X18.  What the recursive, memoised [cal_first] computes for the keys of a
    grammar, run as [main] runs it, lies within what the iterative
    [compute_first_sets] of [expt 4/main.py] returns for the same grammar:
    cutting the recursion at a symbol that is being visited can lose members
    of a FIRST set, and never adds a wrong one. *)
Theorem cal_first_within_iterative
    (depth budget : nat) (g : grammar_dict) (memoised solved : sets)
    (s : string) (X : gset string)
    (Hrec : first_table depth g = Ok memoised)
    (Hiter : Expt4.compute_first_sets budget g = Ok solved)
    (Hs : memoised !! s = Some X) :
  ∃ Y, solved !! s = Some Y ∧ X ⊆ Y.
Proof.
  destruct (compute_first_sets_fixed g budget solved Hiter) as [_ Hfix].
  destruct (compute_first_sets_terminals _ _ _ Hiter) as [_ Hcov].
  unfold first_table in Hrec.
  destruct (for_each _ _ _) as [[first first_memo]|] eqn:Hrun; [|done].
  cbn in Hrec. injection Hrec as <-.
  assert (memo_under solved first ∧ memo_under solved first_memo) as [Hfirst _];
    [|by apply Hfirst].
  change first with ((first, first_memo).1) at 1.
  change first_memo with ((first, first_memo).2) at 2.
  revert Hrun.
  apply (for_each_inv_step _ (λ acc, memo_under solved acc.1 ∧ memo_under solved acc.2)).
  - intros k [f m] [f' m'] Hk [Hf Hm].
    intros ([v [m1 vis]] & Hcal & [= <- <-])%bind_inv. cbn [fst snd] in *.
    apply (cal_first_under g solved Hfix Hcov) in Hcal as (Hm1 & Y & HY & Hsub);
      [|done..].
    split; [|done]. by eapply memo_under_insert.
  - split; intros k Z Hk; cbn [fst snd] in Hk; by rewrite lookup_empty in Hk.
Qed.

Lemma unvisited_empty productions : unvisited productions ∅ ≤ length (keys productions).
Proof.
  unfold unvisited. rewrite difference_empty_L.
  induction (keys productions) as [|k l IH].
  - rewrite list_to_set_nil, size_empty. done.
  - rewrite list_to_set_cons, size_union_alt, size_singleton. cbn [length].
    assert (size (list_to_set l ∖ {[k]} : gset string) ≤ size (list_to_set l : gset string))
      by (apply subseteq_size; set_solver).
    lia.
Qed.

Lemma first_table_ok (productions : grammar_dict) (depth : nat) :
  length (keys productions) < depth →
  ∃ first, first_table depth productions = Ok first ∧
           ∀ k, is_Some (first !! k) ↔ k ∈ keys productions.
Proof.
  intros Hdepth. unfold first_table.
  assert (∀ l (first first_memo : sets),
            ∃ (first' first_memo' : sets),
              for_each l
                (λ s '(first, first_memo),
                   '(v, (first_memo', _)) ← cal_first depth productions s (first_memo, ∅);
                   Ok (<[s := v]> first, first_memo'))
                (first, first_memo) = Ok (first', first_memo') ∧
              ∀ k, is_Some (first' !! k) ↔ is_Some (first !! k) ∨ k ∈ l) as Hgen.
  { induction l as [|s l IH]; intros first first_memo; cbn [for_each].
    { exists first, first_memo. split; [done|]. intros k. rewrite elem_of_nil. tauto. }
    destruct (cal_first_balanced productions depth ∅) with (s := s) (memo := first_memo)
      as (X & memo' & -> & _).
    { pose proof (unvisited_empty productions). lia. }
    cbn [mbind res_bind].
    destruct (IH (<[s := X]> first) memo') as (first' & first_memo' & -> & Hdom).
    exists first', first_memo'. split; [done|]. intros k.
    rewrite Hdom, lookup_insert_is_Some, elem_of_cons. split.
    - intros [[->|[_ ?]]|?]; auto.
    - intros [?|[->|?]]; [|auto..]. destruct (decide (s = k)); auto. }
  destruct (Hgen (keys productions) ∅ ∅) as (first & first_memo & -> & Hdom).
  exists first. split; [done|]. intros k. rewrite Hdom, lookup_empty.
  split; [intros [[? [=]]|?]; done|auto].
Qed.

(** X19.  The loop of [main] that fills [first] returns for every grammar once
    the nested calls allowed exceed the number of its keys, with a FIRST set
    for every key and for nothing else. *)
Theorem first_table_returns (productions : grammar_dict) (depth : nat)
    (Hdepth : length (keys productions) < depth) :
  ∃ first, first_table depth productions = Ok first ∧
           ∀ k, is_Some (first !! k) ↔ k ∈ keys productions.
Proof. by apply first_table_ok. Qed.

Lemma cal_first_returns_witness :
  unvisited mutual_grammar ∅ < 3
  ∧ ∃ X memo', cal_first 3 mutual_grammar "A" (∅, ∅) = Ok (X, (memo', ∅)) ∧ ∅ ⊆ memo'.
Proof.
  assert (unvisited mutual_grammar ∅ < 3) as H
    by (apply (bool_decide_unpack _); vm_compute; exact I).
  split; [exact H|].
  apply (cal_first_returns mutual_grammar 3 "A" ∅ ∅ H).
Defined.

Lemma cal_first_within_iterative_witness :
  ∃ memoised solved X,
    (first_table 10 mutual_grammar = Ok memoised
     ∧ Expt4.compute_first_sets 10 mutual_grammar = Ok solved
     ∧ memoised !! "B" = Some X)
    ∧ ∃ Y, solved !! "B" = Some Y ∧ X ⊆ Y.
Proof.
  eexists _, _, _. split; [split_and!; [vm_compute; reflexivity..]|].
  eapply (cal_first_within_iterative 10 10 mutual_grammar); [vm_compute; reflexivity..].
Defined.

Lemma first_table_returns_witness :
  length (keys mutual_grammar) < 3
  ∧ ∃ first, first_table 3 mutual_grammar = Ok first ∧
             ∀ k, is_Some (first !! k) ↔ k ∈ keys mutual_grammar.
Proof.
  assert (length (keys mutual_grammar) < 3) as H by (simpl; lia).
  split; [exact H|].
  apply (first_table_returns mutual_grammar 3 H).
Defined.

(** ** expt 4/main.py: splitting tokens and reading the grammar file *)

Import Expt4Parse.

Lemma string_app_cons c (a b : string) : String c a +:+ b = String c (a +:+ b).
Proof. reflexivity. Qed.

Lemma string_app_nil_r (s : string) : s +:+ "" = s.
Proof. induction s as [|c s IH]; [done|]. by rewrite string_app_cons, IH. Qed.

Lemma string_app_assoc (a b c : string) : (a +:+ b) +:+ c = a +:+ (b +:+ c).
Proof. induction a as [|x a IH]; [done|]. by rewrite !string_app_cons, IH. Qed.

Lemma string_length_app (a b : string) :
  String.length (a +:+ b) = String.length a + String.length b.
Proof. induction a as [|x a IH]; [done|]. rewrite string_app_cons. simpl. by rewrite IH. Qed.

Lemma concat_empty_cons (x : string) (l : list string) :
  String.concat "" (x :: l) = x +:+ String.concat "" l.
Proof. destruct l; [by rewrite string_app_nil_r|done]. Qed.

Lemma startswith_app (a rest p : string) :
  startswith (a +:+ rest) p (String.length a) = String.prefix p rest.
Proof.
  induction a as [|x a IH]; [by destruct rest|]. rewrite string_app_cons. simpl. done.
Qed.

Lemma prefix_split (p s : string) : String.prefix p s = true → ∃ rest, s = p +:+ rest.
Proof.
  revert s. induction p as [|x p IH]; intros s.
  { exists s. done. }
  destruct s as [|y s]; [done|]. simpl.
  destruct (ascii_dec x y) as [->|]; [|done].
  intros (rest & ->)%IH. by exists rest.
Qed.

Lemma substring_app (a rest : string) m :
  substring (String.length a) m (a +:+ rest) = substring 0 m rest.
Proof. induction a as [|x a IH]; [done|]. rewrite string_app_cons. simpl. done. Qed.

Lemma substring_split m (s : string) :
  m ≤ String.length s →
  ∃ rest, s = substring 0 m s +:+ rest ∧ String.length (substring 0 m s) = m.
Proof.
  revert s. induction m as [|m IH]; intros s Hm.
  { exists s. by destruct s. }
  destruct s as [|c s]; simpl in *; [lia|].
  destruct (IH s) as (rest & Hs & Hl); [lia|].
  exists rest. rewrite string_app_cons, <- Hs, Hl. done.
Qed.

(** The inner loop stops at the first place from [lookahead] on where a
    nonterminal starts, or at the end of the token: the unrolling is long
    enough. *)
Lemma scan_spec steps token sorted_nonterminals lookahead :
  String.length token - lookahead ≤ steps → lookahead ≤ String.length token →
  let stop := scan steps token sorted_nonterminals lookahead in
  lookahead ≤ stop ≤ String.length token ∧
  (∀ i, lookahead ≤ i < stop →
     existsb (λ nt, startswith token nt i) sorted_nonterminals = false) ∧
  (stop = String.length token ∨
   existsb (λ nt, startswith token nt stop) sorted_nonterminals = true).
Proof.
  revert lookahead. induction steps as [|steps IH]; intros lookahead Hsteps Hle; simpl.
  { split; [lia|]. split; [intros i; lia|]. left. lia. }
  destruct (bool_decide (lookahead < String.length token)) eqn:Elt.
  - apply bool_decide_eq_true_1 in Elt.
    destruct (existsb (λ nt, startswith token nt lookahead) sorted_nonterminals) eqn:Ex; simpl.
    + split; [lia|]. split; [intros i; lia|]. by right.
    + destruct (IH (S lookahead)) as (Hb & Hnone & Hstop); [lia..|].
      split; [lia|]. split; [|done]. intros i Hi.
      destruct (decide (i = lookahead)) as [->|]; [done|]. apply Hnone. lia.
  - apply bool_decide_eq_false_1 in Elt. simpl.
    split; [lia|]. split; [intros i; lia|]. left. lia.
Qed.

Lemma split_loop_spec budget (consumed rest : string) sorted_nonterminals symbols :
  String.length rest < budget →
  ∃ pieces,
    split_loop budget (consumed +:+ rest) sorted_nonterminals (String.length consumed) symbols
      = Ok (symbols ++ pieces) ∧
    String.concat "" pieces = rest ∧ Forall (λ p, p ≠ "") pieces.
Proof.
  revert consumed rest symbols.
  induction budget as [|budget IH]; intros consumed rest symbols Hb; [lia|].
  cbn [split_loop]. rewrite string_length_app.
  destruct rest as [|c rest'] eqn:Hrest.
  { rewrite bool_decide_eq_false_2 by (simpl; lia).
    exists []. by rewrite app_nil_r. }
  rewrite <- Hrest in *. assert (0 < String.length rest) as Hpos by (subst rest; simpl; lia).
  rewrite bool_decide_eq_true_2 by lia.
  assert (∀ piece rest'' index, rest = piece +:+ rest'' → piece ≠ "" →
            index = String.length consumed + String.length piece →
            ∃ pieces,
              split_loop budget (consumed +:+ rest) sorted_nonterminals index
                (symbols ++ [piece])
              = Ok (symbols ++ pieces) ∧
              String.concat "" pieces = rest ∧ Forall (λ p, p ≠ "") pieces) as Hstep.
  { intros piece rest'' index Hsplit Hne ->.
    destruct (IH (consumed +:+ piece) rest'' (symbols ++ [piece])) as (pieces & Hrun & Hcat & Hall).
    { rewrite Hsplit, string_length_app in Hb.
      assert (0 < String.length piece) by (destruct piece; [done|simpl; lia]). lia. }
    exists (piece :: pieces). rewrite string_app_assoc, string_length_app, <- Hsplit in Hrun.
    rewrite Hrun, <- app_assoc. split_and!; [done| |by constructor].
    by rewrite concat_empty_cons, Hcat. }
  clear Hrest c rest'.
  destruct (find (λ nt, startswith (consumed +:+ rest) nt (String.length consumed))
              sorted_nonterminals) as [[|c found]|] eqn:Hfind.
  2:{ apply find_some in Hfind as [_ Hstart]. rewrite startswith_app in Hstart.
      apply prefix_split in Hstart as (rest'' & Hsplit). by eapply Hstep. }
  all: cbn zeta;
    pose proof (scan_spec (String.length (consumed +:+ rest)) (consumed +:+ rest)
                  sorted_nonterminals (S (String.length consumed))) as Hscan;
    cbn zeta in Hscan; rewrite string_length_app in Hscan;
    destruct Hscan as ([Hlo Hhi] & _); [lia..|];
    remember (scan (String.length consumed + String.length rest) (consumed +:+ rest)
                sorted_nonterminals (S (String.length consumed))) as stop eqn:Hstop;
    clear Hstop; rewrite substring_app;
    destruct (substring_split (stop - String.length consumed) rest) as (rest'' & Hsplit & Hlen);
      [lia|];
    (eapply Hstep; [exact Hsplit| |lia]);
    intros Hempty; rewrite Hempty in Hlen; simpl in Hlen; lia.
Qed.

(** X20.  [split_token] returns on every token, within the unrolling of its
    loops, and splits it without losing a character: no piece is empty, the
    pieces of an epsilon token are [[ε]], and the pieces of any other token,
    put together again, are the token. *)
Theorem split_token_round_trip (token : string) (nonterminals : gset string)
    (sorted_nonterminals : list string) :
  ∃ pieces,
    split_token token nonterminals sorted_nonterminals = Ok pieces ∧
    Forall (λ p, p ≠ "") pieces ∧
    (token ∈ EPSILON_TOKENS → pieces = [EPSILON]) ∧
    (token ∉ EPSILON_TOKENS → String.concat "" pieces = token).
Proof.
  unfold split_token. destruct (decide (token = "")) as [->|Hne].
  { exists []. split_and!; [done..| |done]. intros Hin. exfalso. revert Hin.
    apply (bool_decide_unpack _). vm_compute. exact I. }
  destruct (bool_decide (token ∈ EPSILON_TOKENS)) eqn:Eeps.
  { apply bool_decide_eq_true_1 in Eeps. exists [EPSILON]. split_and!; [done| |done..].
    by repeat constructor. }
  apply bool_decide_eq_false_1 in Eeps.
  destruct (decide (token ∈ nonterminals)).
  { exists [token]. split_and!; [done|by repeat constructor|done..]. }
  destruct (split_loop_spec (S (String.length token)) "" token sorted_nonterminals [])
    as (pieces & Hrun & Hcat & Hall); [lia|].
  exists pieces. split_and!; done.
Qed.


Lemma split_tokens_ok (parts : list string) nonterminals sorted_nonterminals :
  ∃ tokens,
    foldr (λ part rest,
             symbols ← split_token part nonterminals sorted_nonterminals;
             later ← rest; Ok (symbols ++ later))
      (Ok []) parts = Ok tokens.
Proof.
  induction parts as [|part parts [tokens IH]]; [by eexists|]. cbn [foldr].
  destruct (split_token_round_trip part nonterminals sorted_nonterminals) as (pieces & -> & _).
  rewrite IH. by eexists.
Qed.

Lemma tokenize_alternative_ok alternative nonterminals sorted_nonterminals :
  ∃ symbols,
    tokenize_alternative alternative nonterminals sorted_nonterminals = Ok symbols ∧
    symbols ≠ [].
Proof.
  unfold tokenize_alternative. destruct (split alternative) as [|part parts]; [by eexists|].
  destruct (split_tokens_ok (part :: parts) nonterminals sorted_nonterminals) as [tokens ->].
  cbn [mbind res_bind].
  destruct (normalize_symbol <$> filter (λ token, token ≠ "") tokens); by eexists.
Qed.

Lemma for_until_continues {A S R} (P : list A → S → Prop) (l : list A)
    (body : A → S → res (flow S R)) :
  (∀ before x s, P before s → ∃ s', body x s = Ok (Continue s') ∧ P (before ++ [x]) s') →
  ∀ before s, P before s →
    ∃ s', for_until l body s = Ok (Continue s') ∧ P (before ++ l) s'.
Proof.
  intros Hb. induction l as [|x l IH]; intros before s Hs; simpl.
  { exists s. by rewrite app_nil_r. }
  destruct (Hb before x s Hs) as (s1 & -> & Hs1). cbn [mbind res_bind].
  destruct (IH _ _ Hs1) as (s' & Hrun & Hs'). exists s'. by rewrite <- app_assoc in Hs'.
Qed.

Lemma dict_set_NoDup {V} k (v : V) (d : dict V) :
  NoDup (keys d) → NoDup (keys (dict_set k v d)).
Proof.
  induction d as [|[j w] d IH]; simpl.
  { intros _. apply NoDup_singleton. }
  intros [Hj Hd]%NoDup_cons. case_decide; simpl.
  - subst. by apply NoDup_cons.
  - apply NoDup_cons. split; [|by apply IH].
    change (j ∉ keys (dict_set k v d)). rewrite keys_dict_set. intros [?|?]; done.
Qed.


Lemma read_line_ok line_no raw_line st st' :
  read_line line_no raw_line st = inr st' →
  Forall entry_ok st.1 → start_is_first st →
  Forall entry_ok st'.1 ∧ start_is_first st'.
Proof.
  destruct st as [entries start_symbol]. unfold read_line.
  destruct (bool_decide (strip raw_line = "") || String.prefix "//" (strip raw_line)).
  { by intros [= <-]. }
  destruct (split_arrow (strip raw_line)) as [[lhs rhs]|]; [|done].
  destruct (decide (strip lhs = "")) as [|Hlhs]; [done|].
  destruct (decide (strip rhs = "")); [done|].
  destruct (filter (λ alt, alt ≠ "") (strip <$> split_on "|" (strip rhs)))
    as [|alt alternatives] eqn:Halts; [done|].
  intros [= <-] Hall Hstart. cbn [fst snd] in *. split.
  - apply Forall_app. split; [done|]. apply Forall_singleton. split_and!; [done..|].
    cbn [fst snd]. rewrite <- Halts. apply Forall_forall.
    by intros x [? _]%list_elem_of_filter.
  - unfold start_is_first in *. cbn [fst snd] in *. rewrite !fmap_app.
    destruct entries as [|e entries]; [by subst|]. by subst.
Qed.

Lemma read_lines_ok lines line_no st st' :
  read_lines line_no lines st = inr st' →
  Forall entry_ok st.1 → start_is_first st →
  Forall entry_ok st'.1 ∧ start_is_first st'.
Proof.
  revert line_no st. induction lines as [|raw_line lines IH]; intros line_no st; simpl.
  { by intros [= <-]. }
  destruct (read_line line_no raw_line st) as [|st1] eqn:Hline; [done|].
  intros Hrest Hall Hstart.
  destruct (read_line_ok _ _ _ _ Hline Hall Hstart) as [Hall1 Hstart1]. by eapply IH.
Qed.

(** The second loop of [parse_grammar_file] never raises: every alternative
    gives a production, appended to those of its left-hand side. *)
Lemma add_entries_ok nonterminals sorted_nonterminals (entries : list entry) :
  Forall entry_ok entries →
  ∃ productions,
    for_until entries
      (λ '(lhs, alternatives, line_no),
         for_until alternatives
           (add_alternative nonterminals sorted_nonterminals lhs line_no))
      [] = Ok (Continue productions : flow grammar_dict parse_error) ∧
    productions_ok productions ∧
    ∀ k, k ∈ keys productions ↔ k ∈ entries.*1.*1.
Proof.
  intros Hall.
  destruct (for_until_continues (R := parse_error)
              (λ before g, Forall entry_ok before → productions_ok g ∧
                           ∀ k, k ∈ keys g ↔ k ∈ before.*1.*1)
              entries
              (λ '(lhs, alternatives, line_no),
                 for_until alternatives
                   (add_alternative nonterminals sorted_nonterminals lhs line_no)))
    with (before := @nil entry) (s := @nil (string * list production))
    as (productions & Hrun & Hp).
  - intros before [[lhs alternatives] line_no] g Hg.
    destruct (for_until_continues (R := parse_error)
                (λ alts g', Forall entry_ok (before ++ [(lhs, alternatives, line_no)]) →
                            productions_ok g' ∧
                            ∀ k, k ∈ keys g' ↔
                                 k ∈ before.*1.*1 ∨ (alts ≠ [] ∧ k = lhs))
                alternatives
                (add_alternative nonterminals sorted_nonterminals lhs line_no))
      with (before := @nil string) (s := g) as (g' & Hrun & Hg').
    + intros alts alt ga Hga. unfold add_alternative.
      destruct (tokenize_alternative_ok alt nonterminals sorted_nonterminals)
        as (symbols & -> & Hne).
      cbn [mbind res_bind]. destruct symbols as [|x symbols]; [done|].
      eexists. split; [done|]. intros Hok.
      destruct (Hga Hok) as [[Hnd Hwf] Hkeys].
      apply Forall_app in Hok as [_ [Hlhs _]%Forall_singleton]. cbn [fst snd] in Hlhs.
      split; [split|].
      * by apply dict_set_NoDup.
      * intros nt prods [Hin|[= -> ->]]%dict_set_elem; [by apply Hwf|].
        split_and!; [done|by destruct (default [] _)|].
        apply Forall_app. split; [|by apply Forall_singleton].
        destruct (dict_get lhs ga) as [old|] eqn:Hget; [|by constructor].
        apply dict_get_Some_elem in Hget. by apply Hwf in Hget as (_ & _ & ?).
      * intros k. rewrite keys_dict_set, Hkeys. split.
        -- intros [[?|[_ ->]]| ->]; [by left|right..]; (split; [by destruct alts|done]).
        -- intros [?|[_ ->]]; [left; by left|by right].
    + intros Hok. apply Forall_app in Hok as [Hok _]. destruct (Hg Hok) as [Hwf Hkeys].
      split; [done|]. intros k. rewrite Hkeys. split; [by left|]. by intros [?|[? _]].
    + exists g'. split; [done|]. intros Hok. destruct (Hg' Hok) as [Hwf Hkeys].
      split; [done|]. intros k. rewrite Hkeys, !fmap_app, elem_of_app. cbn.
      rewrite list_elem_of_singleton.
      apply Forall_app in Hok as [_ [_ [Halts _]]%Forall_singleton]. cbn [fst snd] in Halts.
      split; [intros [?|[_ ->]]; auto|]. intros [?| ->]; [by left|right]. done.
  - intros _. split; [split; [apply NoDup_nil_2|by intros ?? ?%elem_of_nil]|].
    intros k. cbn. by rewrite !elem_of_nil.
  - exists productions. split; [done|]. by apply Hp.
Qed.

Lemma read_lines_error lines line_no st e :
  read_lines line_no lines st = inl e →
  ∀ line_no' alt lhs, e ≠ UnableToParse line_no' alt lhs.
Proof.
  revert line_no st. induction lines as [|raw_line lines IH]; intros line_no st; simpl; [done|].
  destruct (read_line line_no raw_line st) as [e'|st1] eqn:Hline; [|by apply IH].
  intros [= <-]. revert Hline. destruct st as [entries start_symbol]. unfold read_line.
  destruct (bool_decide (strip raw_line = "") || String.prefix "//" (strip raw_line)); [done|].
  destruct (split_arrow (strip raw_line)) as [[lhs rhs]|]; [|by intros [= <-]].
  destruct (decide (strip lhs = "")); [by intros [= <-]|].
  destruct (decide (strip rhs = "")); [by intros [= <-]|].
  destruct (filter (λ alt, alt ≠ "") (strip <$> split_on "|" (strip rhs)));
    [by intros [= <-]|done].
Qed.

Lemma parse_grammar_file_ok lines :
  ∃ r, parse_grammar_file lines = Ok r ∧
    match r with
    | inl e => ∀ line_no alt lhs, e ≠ UnableToParse line_no alt lhs
    | inr (g, start_symbol) => start_symbol ∈ keys g ∧ productions_ok g
    end.
Proof.
  unfold parse_grammar_file.
  destruct (read_lines 1 lines ([], None)) as [e|[entries start_symbol]] eqn:Hread.
  { exists (inl e). split; [done|]. by eapply read_lines_error. }
  destruct start_symbol as [start_symbol|]; [|by exists (inl NoGrammar)].
  apply read_lines_ok in Hread as [Hall Hstart]; [|by constructor|done].
  unfold start_is_first in Hstart. cbn [fst snd] in *.
  destruct (add_entries_ok (list_to_set entries.*1.*1)
              (sort_nonterminals (list_to_set entries.*1.*1)) entries Hall)
    as (productions & -> & Hok & Hkeys).
  cbn [mbind res_bind]. exists (inr (productions, start_symbol)). split; [done|].
  split; [|done]. apply Hkeys. destruct (entries.*1.*1) as [|k ks]; [done|].
  injection Hstart as ->. left.
Qed.

(** X21.  [parse_grammar_file] on the lines of a file either raises one of its
    [GrammarParseError]s, never the one that says a production cannot be
    parsed ([tokenize_alternative] returns no empty list), or returns a
    grammar whose keys are distinct and not empty, each with at least one
    production and no empty one, and a start symbol that is one of the keys. *)
Theorem parse_grammar_file_returns (lines : list string) :
  ∃ r, parse_grammar_file lines = Ok r ∧
    match r with
    | inl e => ∀ line_no alt lhs, e ≠ UnableToParse line_no alt lhs
    | inr (g, start_symbol) =>
        start_symbol ∈ keys g ∧ NoDup (keys g) ∧
        ∀ nt prods, (nt, prods) ∈ g → nt ≠ "" ∧ prods ≠ [] ∧ Forall (λ p, p ≠ []) prods
    end.
Proof.
  destruct (parse_grammar_file_ok lines) as (r & Hr & H). exists r. split; [done|].
  destruct r as [e|[g start_symbol]]; [done|]. by destruct H as [? [? ?]].
Qed.

(** X22.  [main] of [expt 4/main.py] raises nothing on the lines of a file: it
    prints the error of [parse_grammar_file], or both solvers return, within a
    number of passes that the grammar bounds, with a FIRST and a FOLLOW set
    for every key and the end marker in FOLLOW of the start symbol. *)
Theorem main_returns (lines : list string) :
  ∃ r bound, ∀ budget, bound ≤ budget →
    main budget lines = Ok r ∧
    match r with
    | inl e => parse_grammar_file lines = Ok (inl e)
    | inr (first_sets, follow_sets) =>
        ∃ g start_symbol X,
          parse_grammar_file lines = Ok (inr (g, start_symbol)) ∧
          (∀ k, k ∈ keys g → is_Some (first_sets !! k) ∧ is_Some (follow_sets !! k)) ∧
          follow_sets !! start_symbol = Some X ∧ "$" ∈ X
    end.
Proof.
  destruct (parse_grammar_file_ok lines) as ([e|[g start_symbol]] & Hparse & H).
  { exists (inl e), 0. intros budget _. unfold main. by rewrite Hparse. }
  destruct H as [Hstart _].
  destruct (compute_first_sets_total_aux g) as (first & [Hcov _] & Hfirst).
  destruct (compute_follow_sets_total_aux g first start_symbol Hcov Hstart)
    as (follow & (Hfcov & _ & X & HX & Hend) & Hfollow).
  exists (inr (first, follow)), (first_budget g + follow_budget g first).
  intros budget Hb. unfold main. rewrite Hparse. cbn [mbind res_bind].
  rewrite Hfirst by lia. cbn [mbind res_bind]. rewrite Hfollow by lia. cbn [mbind res_bind].
  split; [done|]. exists g, start_symbol, X. split_and!; [done| |done..].
  intros k Hk. split; [by apply Hcov|by apply Hfcov].
Qed.

(** ** expt 4/first_n_follow.py: the recursive FOLLOW returns *)

Import Expt4RecFollow.

Section FollowRec.
Variables (productions : grammar_dict) (first : sets) (start_symbol : string).
Hypothesis first_covers : ∀ k, k ∈ keys productions → is_Some (first !! k).
Hypothesis start_is_key : start_symbol ∈ keys productions.

Lemma update_follow_ok s additions memo visiting :
  follow_store_ok start_symbol (memo, visiting) →
  follow_store_ok start_symbol (update_follow s additions memo, visiting) ∧
  dom (update_follow s additions memo) = dom memo.
Proof.
  intros [Hvis Hend]. unfold update_follow, follow_store_ok. cbn [fst snd] in *.
  rewrite dom_alter_L. split; [|done]. split; [done|]. intros X.
  destruct (decide (s = start_symbol)) as [->|Hne].
  - rewrite lookup_alter_eq. destruct (memo !! start_symbol) as [Y|] eqn:HY; [|done].
    intros [= <-]. apply elem_of_union_l. by apply Hend.
  - rewrite lookup_alter_ne by done. apply Hend.
Qed.

Lemma follow_rest_ok s rest memo visiting :
  follow_store_ok start_symbol (memo, visiting) →
  ∃ memo' ended, follow_rest productions first s rest memo = Ok (memo', ended) ∧
    follow_store_ok start_symbol (memo', visiting) ∧ dom memo' = dom memo.
Proof.
  revert memo. induction rest as [|x rest IH]; intros memo Hok; simpl.
  { by eexists _, _. }
  case_decide; [by apply IH|].
  destruct (dict_mem x productions) eqn:Ex.
  - apply dict_mem_true in Ex. destruct (first_covers x Ex) as [sf Hsf].
    rewrite (getitem_ok _ _ _ Hsf). cbn [mbind res_bind].
    destruct (update_follow_ok s (sf ∖ {[EPSILON]}) memo visiting Hok) as [Hok1 Hdom1].
    case_decide.
    + destruct (IH _ Hok1) as (memo' & ended & Hrun & Hok' & Hdom').
      exists memo', ended. split_and!; [done..|congruence].
    + by eexists _, _.
  - destruct (update_follow_ok s {[x]} memo visiting Hok) as [Hok1 Hdom1]. by eexists _, _.
Qed.

Lemma unmemoised_mono memo memo' :
  dom memo ⊆ dom memo' → unmemoised productions memo' ≤ unmemoised productions memo.
Proof.
  clear first_covers start_is_key. intros Hsub. unfold unmemoised.
  apply subseteq_size. set_solver.
Qed.

Section Nested.
Variables (rec : string → store → res (gset string * store)) (n : nat) (s : string)
  (memo0 : sets).
Hypothesis rec_ok : follow_call_ok productions start_symbol rec n.
Hypothesis memo0_small : unmemoised productions memo0 < n.

(** The stores the loops of a call on [s] go through. *)
Local Abbreviation inside visiting memo :=
  (follow_store_ok start_symbol (memo, visiting) ∧ dom memo0 ⊆ dom memo).

Lemma inherit_ok head memo visiting :
  inside visiting memo →
  ∃ memo', inherit rec s head (memo, visiting) = Ok (memo', visiting) ∧
           inside visiting memo'.
Proof.
  intros [Hok Hdom]. unfold inherit. case_decide; [|by eexists].
  destruct (rec_ok head memo visiting Hok) as (X & memo1 & -> & Hok1 & Hdom1 & _).
  { pose proof (unmemoised_mono _ _ Hdom). lia. }
  cbn [mbind res_bind].
  destruct (update_follow_ok s X memo1 visiting Hok1) as [Hok2 Hdom2].
  eexists. split; [done|]. split; [done|]. rewrite Hdom2. by etrans.
Qed.

Lemma after_occurrence_ok head rest memo visiting :
  inside visiting memo →
  ∃ memo', after_occurrence rec productions first s head rest (memo, visiting)
           = Ok (memo', visiting) ∧ inside visiting memo'.
Proof.
  intros [Hok Hdom]. unfold after_occurrence. destruct rest as [|x rest].
  { by apply inherit_ok. }
  cbn [fst snd].
  destruct (follow_rest_ok s (x :: rest) memo visiting Hok)
    as (memo1 & ended & -> & Hok1 & Hdom1).
  cbn [mbind res_bind]. destruct ended.
  - apply inherit_ok. split; [done|]. by rewrite Hdom1.
  - eexists. split; [done|]. split; [done|]. by rewrite Hdom1.
Qed.

Lemma follow_production_ok head prod memo visiting :
  inside visiting memo →
  ∃ memo', follow_production rec productions first s head prod (memo, visiting)
           = Ok (memo', visiting) ∧ inside visiting memo'.
Proof.
  revert memo. induction prod as [|x rest IH]; intros memo Hin; cbn [follow_production].
  { by eexists. }
  case_decide.
  - destruct (after_occurrence_ok head rest memo visiting Hin) as (memo1 & -> & Hin1).
    cbn [mbind res_bind]. by apply IH.
  - cbn [mbind res_bind]. by apply IH.
Qed.

Lemma follow_productions_ok memo visiting :
  inside visiting memo →
  ∃ memo',
    for_each productions
      (λ '(head, rules),
         for_each rules (follow_production rec productions first s head))
      (memo, visiting) = Ok (memo', visiting) ∧ inside visiting memo'.
Proof.
  generalize productions at 1. intros items. revert memo.
  induction items as [|[head rules] items IH]; intros memo Hin; cbn [for_each].
  { by eexists. }
  assert (∃ memo1, for_each rules (follow_production rec productions first s head)
                     (memo, visiting) = Ok (memo1, visiting) ∧ inside visiting memo1)
    as (memo1 & -> & Hin1).
  { clear IH. revert memo Hin. induction rules as [|prod rules IHr]; intros memo Hin;
      cbn [for_each]; [by eexists|].
    destruct (follow_production_ok head prod memo visiting Hin) as (memo1 & -> & Hin1).
    cbn [mbind res_bind]. by apply IHr. }
  cbn [mbind res_bind]. by apply IH.
Qed.
End Nested.

Lemma cal_follow_ok depth :
  follow_call_ok productions start_symbol
    (cal_follow depth productions first start_symbol) depth.
Proof.
  induction depth as [|d IH]; intros s memo visiting Hok Hn; [lia|].
  cbn [cal_follow]. destruct (memo !! s) as [known|] eqn:Hmemo.
  { by exists known, memo. }
  destruct Hok as [Hvis Hend]. cbn [fst snd] in *.
  assert (s ∉ dom memo) as Hdom by by apply not_elem_of_dom.
  assert (s ∉ visiting) as Hs by set_solver.
  destruct (dict_mem s productions) eqn:Ekey; cbn [negb].
  2:{ exists ∅, (<[s := ∅]> memo). split_and!; [done| | |by rewrite lookup_insert_eq].
      - split; cbn [fst snd]; [set_solver|]. intros X.
        rewrite lookup_insert_ne; [apply Hend|]. intros ->.
        apply bool_decide_eq_false_1 in Ekey. done.
      - set_solver. }
  apply dict_mem_true in Ekey. rewrite decide_False by done.
  set (memo1 := if decide (s = start_symbol) then update_follow s {["$"]} (<[s := ∅]> memo)
                else <[s := ∅]> memo).
  assert (dom memo1 = {[s]} ∪ dom memo) as Hdom1.
  { unfold memo1. case_decide; [unfold update_follow; rewrite dom_alter_L|]; set_solver. }
  assert (follow_store_ok start_symbol (memo1, visiting ∪ {[s]})) as Hok1.
  { split; cbn [fst snd]; [set_solver|]. intros X. unfold memo1. case_decide as Hst.
    - subst s. unfold update_follow. rewrite lookup_alter_eq, lookup_insert_eq.
      intros [= <-]. set_solver.
    - rewrite lookup_insert_ne by done. apply Hend. }
  assert (unmemoised productions memo1 < d) as Hd.
  { unfold unmemoised in *. rewrite Hdom1.
    assert (list_to_set (keys productions) ∖ ({[s]} ∪ dom memo)
            ⊂ (list_to_set (keys productions) ∖ dom memo : gset string)) as Hsub.
    { assert (s ∈ (list_to_set (keys productions) : gset string))
        by by apply elem_of_list_to_set.
      split; [set_solver|]. intros Hsub. specialize (Hsub s). set_solver. }
    apply subset_size in Hsub. lia. }
  destruct (follow_productions_ok _ d s memo1 IH Hd memo1 (visiting ∪ {[s]}))
    as (memo2 & -> & [Hvis2 Hend2] & Hdom2); [by split|].
  cbn [mbind res_bind fst snd] in *. rewrite decide_True by set_solver.
  assert (s ∈ dom memo2) as [X HX]%elem_of_dom by set_solver.
  exists X, memo2. rewrite HX. cbn [default].
  replace ((visiting ∪ {[s]}) ∖ {[s]}) with visiting by set_solver.
  split_and!; [done| |set_solver|done]. split; cbn [fst snd]; [set_solver|done].
Qed.
End FollowRec.

(** X23.  [cal_follow] returns on every grammar, cyclic ones included, when
    [first] has a set for every key, every symbol being visited is memoised,
    and the nested calls allowed exceed the number of keys not memoised yet.
    The set returned is the one memoised for the symbol, nothing memoised is
    dropped, [visiting] is handed back as it was, and the set memoised for the
    start symbol, if any, still holds the end marker. *)
Theorem cal_follow_returns (productions : grammar_dict) (first : sets)
    (start_symbol s : string) (depth : nat) (memo : sets) (visiting : gset string)
    (Hfirst : Forall (λ k, is_Some (first !! k)) (keys productions))
    (Hstart : start_symbol ∈ keys productions)
    (Hstore : follow_store_ok start_symbol (memo, visiting))
    (Hdepth : unmemoised productions memo < depth) :
  ∃ X memo',
    cal_follow depth productions first start_symbol s (memo, visiting)
      = Ok (X, (memo', visiting)) ∧
    memo' !! s = Some X ∧ dom memo ⊆ dom memo' ∧
    follow_store_ok start_symbol (memo', visiting).
Proof.
  destruct (cal_follow_ok productions first start_symbol) with (depth := depth)
    (s := s) (memo := memo) (visiting := visiting) as (X & memo' & Hrun & Hok & Hdom & HX);
    [by apply Forall_forall|done..|].
  by exists X, memo'.
Qed.

Lemma unmemoised_empty productions : unmemoised productions ∅ ≤ length (keys productions).
Proof.
  pose proof (unvisited_empty productions) as H. unfold unvisited, unmemoised in *.
  by rewrite dom_empty_L.
Qed.

Lemma follow_table_ok (productions : grammar_dict) (first : sets)
    (start_symbol : string) (depth : nat) :
  Forall (λ k, is_Some (first !! k)) (keys productions) →
  start_symbol ∈ keys productions →
  length (keys productions) < depth →
  ∃ follow,
    follow_table depth productions first start_symbol = Ok follow ∧
    (∀ k, k ∈ keys productions → is_Some (follow !! k)) ∧
    ∃ X, follow !! start_symbol = Some X ∧ "$" ∈ X.
Proof.
  intros Hfirst Hstart Hdepth. unfold follow_table.
  assert (∀ l (memo : sets),
            follow_store_ok start_symbol (memo, ∅) →
            ∃ memo' : sets,
              for_each l
                (λ s follow_memo,
                   '(_, (follow_memo, _)) ←
                     cal_follow depth productions first start_symbol s (follow_memo, ∅);
                   Ok follow_memo)
                memo = Ok memo' ∧
              follow_store_ok start_symbol (memo', ∅) ∧
              ∀ k, k ∈ dom memo ∨ k ∈ l → k ∈ dom memo') as Hgen.
  { induction l as [|s l IH]; intros memo Hok; cbn [for_each].
    { exists memo. split_and!; [done..|]. intros k [?|?%elem_of_nil]; done. }
    destruct (cal_follow_ok productions first start_symbol) with (depth := depth)
      (s := s) (memo := memo) (visiting := (∅ : gset string))
      as (X & memo1 & -> & Hok1 & Hdom1 & HX); [by apply Forall_forall|done..| |].
    { pose proof (unmemoised_empty productions).
      assert (unmemoised productions memo ≤ unmemoised productions ∅)
        by (unfold unmemoised; apply subseteq_size; set_solver).
      lia. }
    cbn [mbind res_bind]. destruct (IH memo1 Hok1) as (memo' & -> & Hok' & Hdom').
    exists memo'. split_and!; [done..|]. intros k [?|[->|?]%elem_of_cons].
    - apply Hdom'. left. set_solver.
    - apply Hdom'. left. by apply elem_of_dom.
    - apply Hdom'. by right. }
  destruct (Hgen (keys productions) ∅) as (follow & -> & [_ Hend] & Hdom).
  { split; cbn [fst snd]; [set_solver|]. intros X. by rewrite lookup_empty. }
  exists follow. split; [done|]. cbn [fst snd] in *.
  assert (∀ k, k ∈ keys productions → is_Some (follow !! k)) as Hcov.
  { intros k Hk. apply elem_of_dom, Hdom. by right. }
  split; [done|]. destruct (Hcov _ Hstart) as [X HX]. exists X. split; [done|]. by apply Hend.
Qed.

(** X24.  The loop of [main] that fills [follow] returns, once the nested calls
    allowed exceed the number of keys, when [first] has a set for every key
    and the start symbol is a key: the store it leaves has a FOLLOW set for
    every key, and the one of the start symbol holds the end marker. *)
Theorem follow_table_returns (productions : grammar_dict) (first : sets)
    (start_symbol : string) (depth : nat)
    (Hfirst : Forall (λ k, is_Some (first !! k)) (keys productions))
    (Hstart : start_symbol ∈ keys productions)
    (Hdepth : length (keys productions) < depth) :
  ∃ follow,
    follow_table depth productions first start_symbol = Ok follow ∧
    (∀ k, k ∈ keys productions → is_Some (follow !! k)) ∧
    ∃ X, follow !! start_symbol = Some X ∧ "$" ∈ X.
Proof. by apply follow_table_ok. Qed.

Lemma cal_follow_returns_witness :
  (Forall (λ k, is_Some (({["A" := {["a"; "b"]}; "B" := {["b"]}]} : sets) !! k))
     (keys Expt4Rec.mutual_grammar)
   ∧ "A" ∈ keys Expt4Rec.mutual_grammar
   ∧ follow_store_ok "A" (∅, ∅)
   ∧ unmemoised Expt4Rec.mutual_grammar ∅ < 3)
  ∧ ∃ X memo',
      cal_follow 3 Expt4Rec.mutual_grammar {["A" := {["a"; "b"]}; "B" := {["b"]}]} "A" "B"
        (∅, ∅) = Ok (X, (memo', ∅)) ∧
      memo' !! "B" = Some X ∧ dom (∅ : sets) ⊆ dom memo' ∧
      follow_store_ok "A" (memo', ∅).
Proof.
  assert (Forall (λ k, is_Some (({["A" := {["a"; "b"]}; "B" := {["b"]}]} : sets) !! k))
            (keys Expt4Rec.mutual_grammar)) as H1
    by (apply (bool_decide_unpack _); vm_compute; exact I).
  assert ("A" ∈ keys Expt4Rec.mutual_grammar) as H2
    by (apply (bool_decide_unpack _); vm_compute; exact I).
  assert (follow_store_ok "A" (∅, ∅)) as H3.
  { split; [done|]. intros X HX. cbn [fst] in HX. by rewrite lookup_empty in HX. }
  assert (unmemoised Expt4Rec.mutual_grammar ∅ < 3) as H4
    by (apply (bool_decide_unpack _); vm_compute; exact I).
  split; [split_and!; [exact H1|exact H2|exact H3|exact H4]|].
  apply (cal_follow_returns Expt4Rec.mutual_grammar {["A" := {["a"; "b"]}; "B" := {["b"]}]}
           "A" "B" 3 ∅ ∅ H1 H2 H3 H4).
Defined.

Lemma follow_table_returns_witness :
  (Forall (λ k, is_Some (({["A" := {["a"; "b"]}; "B" := {["b"]}]} : sets) !! k))
     (keys Expt4Rec.mutual_grammar)
   ∧ "A" ∈ keys Expt4Rec.mutual_grammar
   ∧ length (keys Expt4Rec.mutual_grammar) < 3)
  ∧ ∃ follow,
      follow_table 3 Expt4Rec.mutual_grammar {["A" := {["a"; "b"]}; "B" := {["b"]}]} "A"
        = Ok follow ∧
      (∀ k, k ∈ keys Expt4Rec.mutual_grammar → is_Some (follow !! k)) ∧
      ∃ X, follow !! "A" = Some X ∧ "$" ∈ X.
Proof.
  assert (Forall (λ k, is_Some (({["A" := {["a"; "b"]}; "B" := {["b"]}]} : sets) !! k))
            (keys Expt4Rec.mutual_grammar)) as H1
    by (apply (bool_decide_unpack _); vm_compute; exact I).
  assert ("A" ∈ keys Expt4Rec.mutual_grammar) as H2
    by (apply (bool_decide_unpack _); vm_compute; exact I).
  assert (length (keys Expt4Rec.mutual_grammar) < 3) as H3 by (simpl; lia).
  split; [split_and!; [exact H1|exact H2|exact H3]|].
  apply (follow_table_returns Expt4Rec.mutual_grammar
           {["A" := {["a"; "b"]}; "B" := {["b"]}]} "A" 3 H1 H2 H3).
Defined.

(** ** expt 4/first_n_follow.py: how [main] ends *)

Import Expt4RecMain.

Lemma dict_set_nonempty {V} k (v : V) (d : dict V) : dict_set k v d ≠ [].
Proof. destruct d as [|[j w] d]; simpl; [done|]. by case_decide. Qed.

Lemma foldl_nonempty {A B} (step : list B → A → list B) (l : list A) (b : list B) :
  (∀ b a, step b a ≠ []) → l ≠ [] → foldl step b l ≠ [].
Proof.
  intros Hstep. destruct l as [|a l _] using rev_ind; [done|]. intros _.
  rewrite foldl_app. apply Hstep.
Qed.

Lemma read_line_grows raw_line productions productions' :
  read_line raw_line productions = inr productions' →
  (skipped (strip raw_line) = true ∧ productions' = productions) ∨
  (skipped (strip raw_line) = false ∧ productions' ≠ []).
Proof.
  unfold read_line. destruct (skipped (strip raw_line)); [intros [= <-]; by left|].
  destruct (split_arrow (strip raw_line)) as [[lhs rhs]|]; [|done].
  case_decide; [done|]. intros [= <-]. right. split; [done|].
  apply foldl_nonempty.
  - intros b a. apply dict_set_nonempty.
  - by destruct (filter (λ alt, alt ≠ "") (strip <$> split_on "|" (strip rhs))).
Qed.

Lemma parse_grammar_empty lines productions :
  parse_grammar lines productions = inr [] →
  productions = [] ∧ Forall (λ raw_line, skipped (strip raw_line) = true) lines.
Proof.
  revert productions. induction lines as [|raw_line lines IH]; intros productions; simpl.
  { by intros [= ->]. }
  destruct (read_line raw_line productions) as [|productions'] eqn:Hline; [done|].
  intros [-> Hall]%IH. apply read_line_grows in Hline as [[Hskip <-]|[_ ?]]; [|done].
  split; [done|]. by constructor.
Qed.

(** X25.  How [main] of [expt 4/first_n_follow.py] ends on the lines of a file,
    given more nested calls than the grammar has keys.  It prints the
    [ValueError] of [parse_grammar]; or the file holds nothing but blank lines
    and comments, the grammar is empty and [next(iter(productions))] raises
    [StopIteration]; or it displays a FIRST and a FOLLOW set for every key,
    with the end marker in FOLLOW of the first key. *)
Theorem main_outcome (lines : list string) (depth : nat)
    (Hdepth : ∀ productions, parse_grammar lines [] = inr productions →
                length (keys productions) < depth) :
  ∃ out,
    main depth lines = Ok out ∧
    match out with
    | ParseError e => parse_grammar lines [] = inl e
    | StopIteration _ =>
        parse_grammar lines [] = inr [] ∧
        Forall (λ raw_line, skipped (strip raw_line) = true) lines
    | Displayed first follow =>
        ∃ productions start_symbol X,
          parse_grammar lines [] = inr productions ∧
          head (keys productions) = Some start_symbol ∧
          (∀ k, k ∈ keys productions → is_Some (first !! k) ∧ is_Some (follow !! k)) ∧
          follow !! start_symbol = Some X ∧ "$" ∈ X
    end.
Proof.
  unfold main. destruct (parse_grammar lines []) as [e|productions] eqn:Hparse.
  { by exists (ParseError e). }
  specialize (Hdepth productions eq_refl).
  destruct (first_table_ok productions depth Hdepth) as (first & -> & Hcov).
  cbn [mbind res_bind].
  destruct (head (keys productions)) as [start_symbol|] eqn:Hhead.
  2:{ exists (StopIteration first). split; [done|].
      destruct productions; [|done]. split; [done|].
      by apply parse_grammar_empty in Hparse as [_ ?]. }
  assert (start_symbol ∈ keys productions) as Hstart.
  { destruct (keys productions); [done|]. injection Hhead as ->. left. }
  destruct (follow_table_ok productions first start_symbol depth)
    as (follow & -> & Hfcov & X & HX & Hend); [|done..|].
  { apply Forall_forall. intros k Hk. by apply Hcov. }
  cbn [mbind res_bind]. exists (Displayed first follow). split; [done|].
  exists productions, start_symbol, X. split_and!; [done..| |done|done].
  intros k Hk. split; [by apply Hcov|by apply Hfcov].
Qed.

Lemma main_outcome_witness :
  (∀ productions, parse_grammar ["A -> B x | a"; "B -> A y | b"] [] = inr productions →
     length (keys productions) < 3)
  ∧ ∃ out,
      main 3 ["A -> B x | a"; "B -> A y | b"] = Ok out ∧
      match out with
      | ParseError e => parse_grammar ["A -> B x | a"; "B -> A y | b"] [] = inl e
      | StopIteration _ =>
          parse_grammar ["A -> B x | a"; "B -> A y | b"] [] = inr [] ∧
          Forall (λ raw_line, skipped (strip raw_line) = true)
            ["A -> B x | a"; "B -> A y | b"]
      | Displayed first follow =>
          ∃ productions start_symbol X,
            parse_grammar ["A -> B x | a"; "B -> A y | b"] [] = inr productions ∧
            head (keys productions) = Some start_symbol ∧
            (∀ k, k ∈ keys productions → is_Some (first !! k) ∧ is_Some (follow !! k)) ∧
            follow !! start_symbol = Some X ∧ "$" ∈ X
      end.
Proof.
  assert (∀ productions,
            parse_grammar ["A -> B x | a"; "B -> A y | b"] [] = inr productions →
            length (keys productions) < 3) as H.
  { intros productions Hp. vm_compute in Hp. injection Hp as <-. simpl. lia. }
  split; [exact H|].
  apply (main_outcome ["A -> B x | a"; "B -> A y | b"] 3 H).
Defined.

(** ** Normalising a symbol twice *)

Lemma lstrip_clean s : starts_clean (lstrip s).
Proof.
  induction s as [|c s IH]; simpl; [done|].
  destruct (is_space c) eqn:E; [done|]. simpl. done.
Qed.

Lemma lstrip_id s : starts_clean s → lstrip s = s.
Proof. destruct s as [|c s]; simpl; [done|]. by intros ->. Qed.

Lemma rstrip_clean s : starts_clean s → starts_clean (rstrip s).
Proof.
  destruct s as [|c s]; simpl; [done|]. intros Hc.
  destruct (rstrip s); [by rewrite Hc|done].
Qed.

Lemma rstrip_idemp s : rstrip (rstrip s) = rstrip s.
Proof.
  induction s as [|c s IH]; simpl; [done|].
  destruct (rstrip s) as [|d r] eqn:E.
  - destruct (is_space c) eqn:Ec; simpl; [done|]. by rewrite Ec.
  - simpl. simpl in IH. destruct (rstrip r) as [|e r'] eqn:Er.
    + destruct (is_space d); [done|]. by injection IH as ->.
    + by rewrite IH.
Qed.

Lemma strip_idemp s : strip (strip s) = strip s.
Proof.
  unfold strip. rewrite (lstrip_id (rstrip (lstrip s))).
  - apply rstrip_idemp.
  - apply rstrip_clean, lstrip_clean.
Qed.

(** X26.  [normalize_symbol], of [expt 4/main.py] and of
    [expt 4/first_n_follow.py], gives a symbol that it leaves as it is:
    normalising twice is normalising once, as stripping twice is stripping
    once. *)
Theorem normalize_symbol_idempotent (symbol : string) :
  Expt4Parse.normalize_symbol (Expt4Parse.normalize_symbol symbol)
    = Expt4Parse.normalize_symbol symbol
  ∧ Expt4Rec.normalize_symbol (Expt4Rec.normalize_symbol symbol)
    = Expt4Rec.normalize_symbol symbol
  ∧ strip (strip symbol) = strip symbol.
Proof.
  split_and!; [| |apply strip_idemp].
  - unfold Expt4Parse.normalize_symbol. cbn zeta.
    destruct (bool_decide (strip symbol ∈ Expt4Parse.EPSILON_TOKENS)) eqn:E; [done|].
    by rewrite strip_idemp, E.
  - unfold Expt4Rec.normalize_symbol. cbn zeta.
    destruct (decide (strip symbol = "")) as [He|Hne]; [done|].
    destruct (bool_decide (strip symbol ∈ Expt4Rec.EPSILON_ALIASES)) eqn:E; [done|].
    rewrite strip_idemp. rewrite decide_False by done. by rewrite E.
Qed.
